(** * Kiibohd animation generator: a shallow embedding of its generator core

    The development embeds the two source files of the repository:

    - [src/unnamed/part_000], the current script, in [Module Part000];
    - [src/kiianigen.js], the earlier script, in [Module Kiianigen].

    What both files share verbatim ([getPixel]) is declared once, before the
    modules.

    Numbers.  JavaScript numbers are IEEE doubles.  The embedding idealises
    them: integers are [Z], the quotients the script forms ([step / steps],
    [j / ids.length], [secondsPerBreath * 100 / FRAME_DELAY]) are exact
    rationals [Q], and the values of [Math.sin] are real numbers [R].  Pixel
    identifiers and colour channels stay far below 2^53, where doubles are
    exact on integers.  [Math.random] is an oracle [nat -> Q] read through a
    counter, so a run is a function of the oracle.

    Arguments.  A generator argument is typed as the script uses it: a
    colour is an array of three integers, a count is an integer, and [None]
    is an argument left out. *)

From Stdlib Require Import ZArith QArith Qround Qabs String Ascii List Bool Lia Lqa.
From Stdlib Require Import DecimalString Sorted Permutation.
From Stdlib Require DecimalZ DecimalPos.
From Stdlib Require Import Reals Lra.
Import ListNotations.

Local Open Scope string_scope.
Local Open Scope Z_scope.

(* ================================================================== *)
(** * JavaScript values and strings *)

(** [String(n)] for an integer-valued number. *)
Definition string_of_Z (z : Z) : string := NilZero.string_of_int (Z.to_int z).

(** A row or column argument of [getPixel]: the script passes numbers
    ([getPixel(x, y, ...)]) and strings ([getPixel(null, "-2%", ...)]). *)
Inductive JsPrim : Type :=
| JNum (n : Z)
| JStr (s : string).

(** The conversion [+] applies when one operand is a string. *)
Definition toString (v : JsPrim) : string :=
  match v with
  | JNum n => string_of_Z n
  | JStr s => s
  end.

(** [Array.prototype.join] on an array of strings. *)
Fixpoint join (sep : string) (l : list string) : string :=
  match l with
  | [] => ""
  | [x] => x
  | x :: rest => x ++ sep ++ join sep rest
  end.

(** [(v) ? v : 0] on a channel that may be [undefined] or [null] ([None]). *)
Definition orZero (v : option Z) : Z :=
  match v with
  | Some n => if n =? 0 then 0 else n
  | None => 0
  end.

(** [x !== undefined && x !== null ? [f x] : []]: the guarded [rc.push]. *)
Definition pushIfDefined {A : Type} (f : A -> string) (x : option A) : list string :=
  match x with
  | Some a => [f a]
  | None => []
  end.

(** [getPixel(row, col, r, g, b, pixelNumber)], the same text in both files
    ([part_000] l.339-357, [kiianigen.js] l.171-189). *)
Definition getPixel (row col : option JsPrim) (r g b : option Z)
    (pixelNumber : option Z) : string :=
  let rc := [] in
  let colors := [orZero r; orZero g; orZero b] in
  let rc := app rc (pushIfDefined (fun v => "r:" ++ toString v) row) in
  let rc := app rc (pushIfDefined (fun v => "c:" ++ toString v) col) in
  let rc := app rc (pushIfDefined string_of_Z pixelNumber) in
  "P[" ++ join "," rc ++ "](" ++ join "," (map string_of_Z colors) ++ ")".

(* ================================================================== *)
(** * Numbers, colours and interpolation *)

(** The value an interpolation function returns: an exact rational where the
    script only adds, multiplies and divides, a real where it calls
    [Math.sin]. *)
Inductive JsNum : Type :=
| NumQ (q : Q)
| NumR (r : R).

(** [Math.round]: the nearest integer, halves towards plus infinity. *)
Definition Math_round (x : JsNum) : Z :=
  match x with
  | NumQ q => Qfloor (q + (1 # 2))
  | NumR r => Int_part (r + / 2)
  end.

(** [val = Math.max(val, 0); val = Math.min(val, 255)]. *)
Definition clampChannel (val : Z) : Z := Z.min (Z.max val 0) 255.

(** A colour is the array [[r, g, b]]. *)
Inductive Color : Type := RGB (r g b : Z).

(** [color[i]]; [undefined] ([None]) past the third channel. *)
Definition channel (c : Color) (i : nat) : option Z :=
  match c, i with
  | RGB r _ _, 0%nat => Some r
  | RGB _ g _, 1%nat => Some g
  | RGB _ _ b, 2%nat => Some b
  | _, _ => None
  end.

(** [origColor.map(function(origChannel, idx) { ... destColor[idx] ... })]. *)
Definition mapChannels (f : Z -> Z -> Z) (origColor destColor : Color) : Color :=
  match origColor, destColor with
  | RGB r1 g1 b1, RGB r2 g2 b2 => RGB (f r1 r2) (f g1 g2) (f b1 b2)
  end.

(** [linearInterpolate(step, steps, val1, val2)] ([part_000] l.363-365). *)
Definition linearInterpolate (step steps val1 val2 : Q) : Q :=
  ((val2 - val1) * (step / steps) + val1)%Q.

(** [sineInterpolate(step, steps, val1, val2)] ([part_000] l.372-377). *)
Definition sineInterpolate (step steps val1 val2 : R) : R :=
  let angle := (step / steps * PI - PI / 2)%R in
  let sine := sin angle in
  let interpolateVal := ((sine + 1) / 2)%R in
  ((val2 - val1) * interpolateVal + val1)%R.

(** [randomInterpolate(step, steps, val1, val2)] ([part_000] l.382-384);
    [u] is the value [Math.random()] returns in the call. *)
Definition randomInterpolate (u : Q) (step steps val1 val2 : Q) : Q :=
  ((val2 - val1) * u + val1)%Q.

(** An interpolation function as [colorBleed] calls it: the loop counter, the
    step count and the two integer channels. *)
Definition Interp : Type := Z -> Q -> Z -> Z -> JsNum.

Definition interpLinear : Interp := fun s steps v1 v2 =>
  NumQ (linearInterpolate (inject_Z s) steps (inject_Z v1) (inject_Z v2)).

Definition interpSine : Interp := fun s steps v1 v2 =>
  NumR (sineInterpolate (IZR s) (Q2R steps) (IZR v1) (IZR v2)).

Definition interpRandom (u : Q) : Interp := fun s steps v1 v2 =>
  NumQ (randomInterpolate u (inject_Z s) steps (inject_Z v1) (inject_Z v2)).

(** The values [s] takes in [for (var s = 0; s <= steps; s++)]. *)
Definition loopUpTo (steps : Q) : list Z :=
  map Z.of_nat (seq 0 (Z.to_nat (Qfloor steps + 1))).

(** [n < m] on numbers. *)
Definition Qltb (n m : Q) : bool := negb (Qle_bool m n).

(** [arr[i]] for a number [i]: [undefined] ([None]) outside the array. *)
Definition elementAt {A : Type} (arr : list A) (i : Z) : option A :=
  if i <? 0 then None else nth_error arr (Z.to_nat i).

(** What [colorBleed] returns: the one colour [colors[step]] when a step is
    set ([undefined] when [step] is no index of [colors]), else the array. *)
Inductive BleedResult : Type :=
| BleedStep (c : option Color)
| BleedAll (cs : list Color).

(** An element of the array [multiColorBleed] returns.  When [colorBleed]
    falls back to one colour, [colors.concat(fade)] spreads that colour's
    three numbers into the array, so an element is a colour or a number. *)
Inductive Entry : Type :=
| EColor (c : Color)
| ENum (n : Z).

(** [entry[k]]: a channel of a colour, [undefined] on a number. *)
Definition entryChannel (e : Entry) (k : nat) : option Z :=
  match e with
  | EColor c => channel c k
  | ENum _ => None
  end.

(** The array the caller of [colorBleed] goes on with.  The last case,
    [colorBleed] returning [undefined], does not occur when the caller leaves
    [step] unset (lemma [colorBleed_unset_step]). *)
Definition bleedEntries (r : BleedResult) : list Entry :=
  match r with
  | BleedAll cs => map EColor cs
  | BleedStep (Some (RGB r g b)) => [ENum r; ENum g; ENum b]
  | BleedStep None => []
  end.

(** An animation object. *)
Record Animation : Type := mkAnimation {
  settings : string;
  type : string;
  frames : list string
}.

(* ================================================================== *)
(** * The device data and the effects of a generator *)

(** An entry of [json.leds]. *)
Record Led : Type := mkLed {
  led_id : Z;
  scanCode : option string
}.

(** What [main] sets up before a generator runs: the global [maxRow] and
    [maxCol], the leds, and the oracle behind [Math.random()]. *)
Record Env : Type := mkEnv {
  maxRow : Z;
  maxCol : Z;
  leds : list Led;
  random : nat -> Q
}.

(** [if (leds[i].scanCode)]: a scan code that is set and not empty. *)
Definition hasScanCode (l : Led) : bool :=
  match scanCode l with
  | Some "" => false
  | Some _ => true
  | None => false
  end.

Definition keyedLeds (env : Env) : list Led := filter hasScanCode (leds env).
Definition blankLeds (env : Env) : list Led :=
  filter (fun l => negb (hasScanCode l)) (leds env).

(** The property key [leds[i].scanCode] turns into. *)
Definition scanCodeKey (l : Led) : string :=
  match scanCode l with
  | Some s => s
  | None => "undefined"
  end.

(** [ledIdByScanCode[key]] after the loop of [main]: the last led stored
    under the key wins. *)
Definition ledIdByScanCode (env : Env) (key : string) : option Z :=
  fold_left (fun found l => if String.eqb (scanCodeKey l) key
                            then Some (led_id l) else found)
            (leds env) None.

(** A generator reads random numbers through a counter and may end in an
    uncaught [TypeError] ([None]). *)
Definition Gen (A : Type) : Type := nat -> option (A * nat).

Definition ret {A : Type} (a : A) : Gen A := fun n => Some (a, n).

Definition bind {A B : Type} (m : Gen A) (k : A -> Gen B) : Gen B :=
  fun n => match m n with
           | Some (a, n') => k a n'
           | None => None
           end.

Notation "x <- m ;; k" := (bind m (fun x => k))
  (at level 61, m at next level, right associativity).

(** A computation that neither draws a number nor throws after [Some]. *)
Definition lift {A : Type} (o : option A) : Gen A :=
  fun n => match o with
           | Some a => Some (a, n)
           | None => None
           end.

(** [Math.random()]. *)
Definition Math_random (env : Env) : Gen Q := fun n => Some (random env n, S n).

(** A loop whose body draws numbers: the results in order. *)
Fixpoint forEach {A B : Type} (l : list A) (body : A -> Gen B) : Gen (list B) :=
  match l with
  | [] => ret []
  | a :: rest =>
      b <- body a ;;
      bs <- forEach rest body ;;
      ret (b :: bs)
  end.

(** The same for a body that can only throw. *)
Fixpoint forEachOpt {A B : Type} (l : list A) (body : A -> option B) : option (list B) :=
  match l with
  | [] => Some []
  | a :: rest =>
      match body a with
      | Some b => option_map (cons b) (forEachOpt rest body)
      | None => None
      end
  end.

(** The values of [i] in [for (i = lo; i <= hi; i++)]. *)
Definition range (lo hi : Z) : list Z :=
  map (fun d => lo + Z.of_nat d) (seq 0 (Z.to_nat (hi - lo + 1))).

(** The values of [i] in [for (i = hi; i > stop; i--)]. *)
Definition rangeDown (hi stop : Z) : list Z :=
  map (fun d => hi - Z.of_nat d) (seq 0 (Z.to_nat (hi - stop))).

(** [getPixel(null, col, color[0], color[1], color[2])] and
    [getPixel(null, null, color[0], color[1], color[2], id)] for an element
    [color] of a bleed. *)
Definition colPixel (col : string) (color : Entry) : string :=
  getPixel None (Some (JStr col))
           (entryChannel color 0) (entryChannel color 1) (entryChannel color 2) None.

Definition idPixel (color : Entry) (pixelNumber : option Z) : string :=
  getPixel None None
           (entryChannel color 0) (entryChannel color 1) (entryChannel color 2)
           pixelNumber.

(** The three channels of a colour as [getPixel] arguments. *)
Definition rgbPixel (row col : option JsPrim) (c : Color) (pixelNumber : option Z) : string :=
  getPixel row col (channel c 0) (channel c 1) (channel c 2) pixelNumber.

(** [normColor(colorVal)] ([part_000] l.544-546). *)
Definition normColor (colorVal : Q) : Z :=
  Z.max (Z.min (Math_round (NumQ colorVal)) 255) 0.

(** [normColor(color[k] * factor)]; a channel that is [undefined] gives [NaN],
    which [getPixel] then replaces by 0 like [undefined]. *)
Definition scaled (color : Entry) (k : nat) (factor : Q) : option Z :=
  option_map (fun v => normColor (inject_Z v * factor)) (entryChannel color k).

(** [columns[k] + "%"]: the text of the number, ["undefined%"] outside the
    array. *)
Definition percentAt (columns : list Z) (k : Z) : string :=
  match elementAt columns k with
  | Some c => string_of_Z c ++ "%"
  | None => "undefined%"
  end.

(** [var popped = ids.pop(); ids.unshift(popped);] on a non-empty array. *)
Definition popUnshift {A : Type} (ids : list A) : list A :=
  match rev ids with
  | [] => []
  | popped :: front => popped :: rev front
  end.

(** [arr.push(arr.shift())] on a non-empty array. *)
Definition shiftPush {A : Type} (arr : list A) : list A :=
  match arr with
  | [] => []
  | x :: rest => app rest [x]
  end.

(** An array with the index of each element. *)
Definition indexed {A : Type} (arr : list A) : list (nat * A) :=
  combine (seq 0 (length arr)) arr.

(** [j / arr.length]. *)
Definition fraction (j len : nat) : Q :=
  (inject_Z (Z.of_nat j) / inject_Z (Z.of_nat len))%Q.

(** [if (!color) { color = dflt; }]. *)
Definition orDefault (color : option Color) (dflt : Color) : Color :=
  match color with
  | Some c => c
  | None => dflt
  end.

(** ** Sorting a frame by pixel id *)

Definition isDigit (c : ascii) : bool :=
  let n := N_of_ascii c in (48 <=? n)%N && (n <=? 57)%N.

(** The longest prefix of digits and what follows it. *)
Fixpoint spanDigits (s : string) : string * string :=
  match s with
  | String c rest =>
      if isDigit c
      then let (ds, after) := spanDigits rest in (String c ds, after)
      else ("", s)
  | "" => ("", "")
  end.

(** [a.match(/\[(\d+)\]/)[1]]: the digits of the leftmost ["[digits]"];
    [None] when there is no match, where the script throws a [TypeError]. *)
Fixpoint matchBracketDigits (a : string) : option string :=
  match a with
  | "" => None
  | String c rest =>
      if Ascii.eqb c "["
      then match spanDigits rest with
           | (String d ds, String after _) =>
               if Ascii.eqb after "]" then Some (String d ds)
               else matchBracketDigits rest
           | _ => matchBracketDigits rest
           end
      else matchBracketDigits rest
  end.

(** [parseInt(digits, 10)] on a non-empty string of digits: the integer
    itself, which the double the script gets is for every id up to 2^53. *)
Definition parseInt (digits : string) : option Z :=
  option_map Z.of_uint (NilEmpty.uint_of_string digits).

(** The key the comparison function of [sortPixelFrame] computes. *)
Definition pixelId (a : string) : option Z :=
  match matchBracketDigits a with
  | Some digits => parseInt digits
  | None => None
  end.

(** [Array.prototype.sort] with the comparison [(a, b) => key a - key b]: a
    stable insertion sort on the keys. *)
Fixpoint insertByKey (x : Z * string) (l : list (Z * string)) : list (Z * string) :=
  match l with
  | [] => [x]
  | y :: rest => if fst x <=? fst y then x :: y :: rest else y :: insertByKey x rest
  end.

Definition sortByKey (l : list (Z * string)) : list (Z * string) :=
  fold_right insertByKey [] l.

(** ** The animations object and the [all] pseudo-generator *)

(** [json.animations]: the properties in insertion order. *)
Definition AnimMap : Type := list (string * Animation).

(** [animOrig[g]]. *)
Fixpoint getProp (animOrig : AnimMap) (g : string) : option Animation :=
  match animOrig with
  | [] => None
  | (k, a) :: rest => if String.eqb k g then Some a else getProp rest g
  end.

(** [animOrig[g] = a]: an existing property keeps its place. *)
Fixpoint setProp (animOrig : AnimMap) (g : string) (a : Animation) : AnimMap :=
  match animOrig with
  | [] => [(g, a)]
  | (k, b) :: rest =>
      if String.eqb k g then (k, a) :: rest else (k, b) :: setProp rest g a
  end.

(** [g.indexOf('!') === -1]. *)
Definition notExcluded (g : string) : bool :=
  match String.index 0 "!" g with
  | None => true
  | Some _ => false
  end.

(** The branch [generator === 'all'] of [main], the same text in both files
    ([part_000] l.182-187, [kiianigen.js] l.83-88): [gens] is the object
    [generators], each function called without arguments. *)
Fixpoint generateAll (gens : list (string * Gen Animation)) (animOrig : AnimMap)
    : Gen AnimMap :=
  match gens with
  | [] => ret animOrig
  | (g, gen) :: rest =>
      if notExcluded g
      then a <- gen ;; generateAll rest (setProp animOrig g a)
      else generateAll rest animOrig
  end.

(** [generators[generator]], own properties only. *)
Fixpoint lookupGenerator (gens : list (string * Gen Animation)) (generator : string)
    : option (Gen Animation) :=
  match gens with
  | [] => None
  | (g, gen) :: rest =>
      if String.eqb g generator then Some gen else lookupGenerator rest generator
  end.

(** How the generation step of [main] ends.  The branch for [conf], which
    reads a file of its own, is not run here; what it does with the data
    it has read is [generateFromConf], further down. *)
Inductive Outcome : Type :=
| UnknownGenerator
| FromConf
| Generated (animations : AnimMap).

(* ================================================================== *)
(** * [src/unnamed/part_000] *)

Module Part000.

(** [colorBleed(origColor, destColor, steps, step, interpolateFunc)]
    (l.408-436).  [None] is an argument left [undefined]. *)
Definition colorBleed (origColor destColor : Color) (steps : option Q)
    (step : option Z) (interpolateFunc : option Interp) : BleedResult :=
  let '(steps, step) :=
    match steps with
    | None => (2%Q, Some 1)
    | Some n => if Qltb n 2 then (2%Q, Some 1) else (n, step)
    end in
  let interpolateFunc :=
    match interpolateFunc with
    | None => interpLinear
    | Some f => f
    end in
  let colors :=
    map (fun s =>
           mapChannels (fun origChannel destChannel =>
                          let val := interpolateFunc s steps origChannel destChannel in
                          let val := Math_round val in
                          let val := Z.max val 0 in
                          let val := Z.min val 255 in
                          val)
                       origColor destColor)
        (loopUpTo steps) in
  match step with
  | Some k => BleedStep (elementAt colors k)
  | None => BleedAll colors
  end.

(** The loop of [multiColorBleed]: [i] is the loop counter, [l] the colours
    from index [i] on, [first] is [colorValues[0]]. *)
Fixpoint bleedSegments (frameCountPerColor : Q) (interpolateFunc : option Interp)
    (first : Color) (i : nat) (l : list Color) : list Entry :=
  match l with
  | [] => []
  | cOrig :: rest =>
      let cDest := match rest with
                   | [] => first
                   | next :: _ => next
                   end in
      let fade := bleedEntries
                    (colorBleed cOrig cDest (Some frameCountPerColor) None
                                interpolateFunc) in
      let fade := if (0 <? i)%nat then tl fade else fade in
      app fade (bleedSegments frameCountPerColor interpolateFunc first (S i) rest)
  end.

(** [multiColorBleed(frameCountPerColor, interpolateFunc, ...colorValues)]
    (l.451-471). *)
Definition multiColorBleed (frameCountPerColor : Q) (interpolateFunc : option Interp)
    (colorValues : list Color) : list Entry :=
  let colors :=
    match colorValues with
    | [] => []
    | first :: _ => bleedSegments frameCountPerColor interpolateFunc first 0 colorValues
    end in
  removelast colors.

(** [colorPulseGenerator(frameCountPerColor, ...colors)] (l.484-505). *)
Definition colorPulseGenerator (frameCountPerColor : Q) (args : list Color) : Animation :=
  let colors := multiColorBleed frameCountPerColor None args in
  let frames :=
    map (fun color => join "," [colPixel "-1%" color; colPixel "101%" color]) colors in
  {| settings := "framedelay:3, framestretch, loop, replace:all, pfunc:interp";
     type := "animation";
     frames := frames |}.

(** [colorBreatheGenerator(breathsPerMinute, ...colors)] (l.510-535).  The
    script calls it with 12 breaths per minute only. *)
Definition colorBreatheGenerator (breathsPerMinute : Q) (colorValues : list Color)
    : Animation :=
  let FRAME_DELAY := 3 in
  let secondsPerBreath := (60 / breathsPerMinute)%Q in
  let stepsPerInhale := ((secondsPerBreath * 100 / inject_Z FRAME_DELAY) / 2)%Q in
  let colors := multiColorBleed stepsPerInhale (Some interpSine) colorValues in
  let frames :=
    map (fun color => join "," [colPixel "-1%" color; colPixel "101%" color]) colors in
  {| settings := "framedelay:" ++ string_of_Z FRAME_DELAY
                   ++ ", framestretch, loop, replace:all, pfunc:interp";
     type := "animation";
     frames := frames |}.

(** [sortPixelFrame(frame)] (l.555-560).  An array of fewer than two
    elements is never compared; otherwise every element is, and one without
    a bracketed id ends the script with a [TypeError] ([None]). *)
Definition sortPixelFrame (frame : list string) : option (list string) :=
  match frame with
  | [] | [_] => Some frame
  | _ =>
      option_map (fun keys => map snd (sortByKey (combine keys frame)))
                 (forEachOpt frame pixelId)
  end.

(** [generators.dodgyPixel] (l.579-607). *)
Definition dodgyPixel (env : Env) (hiColor bgColor : option Color) : Gen Animation :=
  let hiColor := orDefault hiColor (RGB 255 255 255) in
  let bgColor := orDefault bgColor (RGB 25 25 25) in
  let frame :=
    flat_map (fun x =>
                map (fun y => rgbPixel (Some (JNum x)) (Some (JNum y)) bgColor None)
                    (range 0 (maxCol env)))
             (range 0 (maxRow env)) in
  let frames := [join "," frame] in
  blinks <- forEach (seq 0 50) (fun _ =>
              u1 <- Math_random env ;;
              let rx := Math_round (NumQ (u1 * inject_Z (maxRow env))) in
              u2 <- Math_random env ;;
              let ry := Math_round (NumQ (u2 * inject_Z (maxCol env))) in
              ret [rgbPixel (Some (JNum rx)) (Some (JNum ry)) hiColor None;
                   rgbPixel (Some (JNum rx)) (Some (JNum ry)) bgColor None]) ;;
  ret {| settings := "framedelay:1, loop, replace:all";
         type := "animation";
         frames := app frames (concat blinks) |}.

(** [generators.whiteNoise] (l.1203-1228). *)
Definition whiteNoise (env : Env) (maxFrames : option Z) : Gen Animation :=
  let maxFrames :=
    match maxFrames with
    | None => 20
    | Some m => if m =? 0 then 20 else m
    end in
  let maxIntensity := 153 in
  frames <- forEach (range 0 (maxFrames - 1)) (fun f =>
              frame <- forEach (range 1 119) (fun p =>
                         u <- Math_random env ;;
                         let rIntensity := Qfloor (u * inject_Z maxIntensity) in
                         ret (getPixel None None (Some rIntensity) (Some rIntensity)
                                       (Some rIntensity) (Some p))) ;;
              ret (join "," frame)) ;;
  ret {| settings := "framedelay:1, loop, replace:all";
         type := "animation";
         frames := frames |}.

(** [generators.escapeTest] (l.1302-1328). *)
Definition escapeTest (env : Env) : Gen Animation :=
  let randomPixel (id : Z) : Gen string :=
    u1 <- Math_random env ;;
    u2 <- Math_random env ;;
    u3 <- Math_random env ;;
    ret (getPixel None None (Some (Qfloor (u1 * 255))) (Some (Qfloor (u2 * 0)))
                  (Some (Qfloor (u3 * 0))) (Some id)) in
  frames <- forEach (range 0 9) (fun _ =>
              p1 <- randomPixel 1 ;;
              p16 <- randomPixel 16 ;;
              ret (join "," [p1; p16])) ;;
  ret {| settings := "framedelay:1, loop, replace:all";
         type := "animation";
         frames := frames |}.

(** [createKitt2000Frame(i)], the function [kitt2000] declares (l.651-712),
    with the variables of [kitt2000] it reads as parameters.  Reading a
    channel of [bleedColors[0]] or [reversedBleedColors[0]] throws when the
    array is empty. *)
Definition createKitt2000Frame (bgColor : Color) (columns : list Z)
    (bleedColors reversedBleedColors : list Entry) (i : Z) : option (list string) :=
  let len := Z.of_nat (length reversedBleedColors) in
  let columnsLength := Z.of_nat (length columns) in
  let bg (col : string) := rgbPixel None (Some (JStr col)) bgColor None in
  let frame := [bg "-2%"] in
  match
    match elementAt reversedBleedColors (len - i) with
    | Some e => Some (app frame [colPixel "0%" e])
    | None =>
        if len - i <? 0
        then option_map
               (fun e0 => app frame [bg "0%"; colPixel (percentAt columns (i - len)) e0])
               (nth_error reversedBleedColors 0)
        else Some frame
    end
  with
  | None => None
  | Some frame =>
      match nth_error bleedColors 0 with
      | None => None
      | Some head =>
          let frame := app frame [colPixel (percentAt columns i) head] in
          match
            match elementAt reversedBleedColors (columnsLength - i + 1) with
            | Some e => Some (app frame [colPixel "100%" e])
            | None =>
                if i + len <? columnsLength
                then option_map
                       (fun e0 =>
                          app frame [colPixel (percentAt columns (i + len)) e0; bg "100%"])
                       (nth_error reversedBleedColors 0)
                else Some frame
            end
          with
          | None => None
          | Some frame => Some (app frame [bg "102%"])
          end
      end
  end.

(** [generators.kitt2000] (l.612-724).  The value [lastBleedColor] the
    script computes is used nowhere and is left out.  [step] is
    [100 / 50 = 2], so the columns are the integers 0, 2, ..., 102. *)
Definition kitt2000 (hiColor bgColor : option Color) (width : option Z)
    : option Animation :=
  let hiColor := orDefault hiColor (RGB 255 0 0) in
  let bgColor := orDefault bgColor (RGB 0 0 0) in
  let width := match width with
               | None => 5
               | Some w => w
               end in
  let bleed := width in
  let bleedColors :=
    bleedEntries (colorBleed hiColor bgColor (Some (inject_Z bleed)) None None) in
  let bleedColors := tl bleedColors in
  let reversedBleedColors := rev bleedColors in
  let steps := 50 in
  let step := 100 / steps in
  let minColumn := 0 in
  let maxColumn := 102 in
  let columns :=
    map (fun k => minColumn + Z.of_nat k * step)
        (seq 0 (Z.to_nat ((maxColumn - minColumn) / step + 1))) in
  let columnsLength := Z.of_nat (length columns) in
  let frameText (i : Z) :=
    option_map (join ",")
               (createKitt2000Frame bgColor columns bleedColors reversedBleedColors i) in
  match forEachOpt (range 0 (columnsLength - 1)) frameText,
        forEachOpt (rangeDown (columnsLength - 2) 1) frameText with
  | Some forward, Some backward =>
      Some {| settings := "framedelay:2, framestretch, loop, replace:all, pfunc:interp";
              type := "animation";
              frames := app forward backward |}
  | _, _ => None
  end.

(** [generators.bluewipe] (l.730-788).  [bleedColors] and [lastBleedColor]
    are computed and used nowhere.  The second loop passes [bgColor[0]] as
    the column and [null] as the red channel, as the script does. *)
Definition bluewipe : Animation :=
  let bgColor := RGB 93 93 93 in
  let hiColor := RGB 0 26 255 in
  let steps := 50 in
  let step := 100 / steps in
  let overflow := 1 in
  let rowText (n : Z) := Some (JStr (string_of_Z n ++ "%")) in
  let forward :=
    map (fun i => join "," [rgbPixel (rowText (-2)) None bgColor None;
                            rgbPixel (rowText ((i - overflow) * step)) None hiColor None;
                            rgbPixel (rowText 102) None bgColor None])
        (range (- overflow) (steps + overflow)) in
  let backward :=
    map (fun i => join "," [getPixel (rowText (-2)) (option_map JNum (channel bgColor 0))
                                     None (channel bgColor 1) (channel bgColor 2) None;
                            rgbPixel (rowText ((i - overflow) * step)) None hiColor None;
                            rgbPixel (rowText 102) None bgColor None])
        (rangeDown (steps + overflow + 1) (- overflow - 1)) in
  {| settings := "framedelay:3, framestretch, loop, replace:all, pfunc:interp";
     type := "animation";
     frames := app forward backward |}.

(** [generators.macSleepBreath] (l.793-801). *)
Definition macSleepBreath (hiColor loColor : option Color) : Animation :=
  let hiColor := orDefault hiColor (RGB 255 255 255) in
  let loColor := orDefault loColor (RGB 1 1 1) in
  colorBreatheGenerator 12 [hiColor; loColor].

(** [generators.blueGreenBreath] (l.806-808). *)
Definition blueGreenBreath : Animation :=
  colorBreatheGenerator 12 [RGB 0 255 0; RGB 0 0 255].

(** [generators.topAndBottom] (l.1234-1252). *)
Definition topAndBottom (env : Env) : Animation :=
  let frame :=
    app (map (fun l => getPixel None None (Some 0) (Some 255) (Some 0) (Some (led_id l)))
             (blankLeds env))
        (map (fun l => getPixel None None (Some 0) (Some 0) (Some 255) (Some (led_id l)))
             (keyedLeds env)) in
  {| settings := "framedelay:5, loop, replace:all";
     type := "animation";
     frames := [join "," frame] |}.

(** The body of the second loop of [topAndBottom2], once per remaining
    iteration, with the array [ids] as the iteration finds it. *)
Fixpoint topAndBottom2Frames (topColor botColor : Color) (iterations : nat)
    (ids : list Z) : list string :=
  match iterations with
  | O => []
  | S rest =>
      let ids := popUnshift ids in
      let frame :=
        app [rgbPixel None None topColor (Some 1); rgbPixel None None topColor (Some 87)]
            (map (fun '(j, id) =>
                    let perc := fraction j (length ids) in
                    getPixel None None
                             (scaled (EColor botColor) 0 perc)
                             (scaled (EColor botColor) 1 perc)
                             (scaled (EColor botColor) 2 perc)
                             (Some id))
                 (indexed ids)) in
      join "," frame :: topAndBottom2Frames topColor botColor rest ids
  end.

(** [generators.topAndBottom2] (l.1258-1296). *)
Definition topAndBottom2 : Animation :=
  let topColor := RGB 0 255 0 in
  let botColor := RGB 0 0 255 in
  let ids := range 88 119 in
  let frames := topAndBottom2Frames topColor botColor (length (range 88 119)) ids in
  {| settings := "framedelay:5, loop, replace:all, pfunc:interp";
     type := "animation";
     frames := frames |}.

(** [generators.baseTopBreath] (l.1112-1151).  [botColors[i]] outside the
    array is [undefined], and reading its channel a [TypeError]. *)
Definition baseTopBreath (color1 color2 : option Color) : option Animation :=
  let color1 := orDefault color1 (RGB 0 255 0) in
  let color2 := orDefault color2 (RGB 0 0 255) in
  let breathsPerMinute := 12 in
  let FRAME_DELAY := 3 in
  let secondsPerBreath := Math_round (NumQ (60 / inject_Z breathsPerMinute)) in
  let stepsPerInhale :=
    ((inject_Z secondsPerBreath * 100 / inject_Z FRAME_DELAY) / 2)%Q in
  let topColors := multiColorBleed stepsPerInhale (Some interpSine) [color1; color2] in
  let botColors := multiColorBleed stepsPerInhale (Some interpSine) [color2; color1] in
  option_map
    (fun frames =>
       {| settings := "framedelay:" ++ string_of_Z FRAME_DELAY
                        ++ ", framestretch, loop, replace:all, pfunc:interp";
          type := "animation";
          frames := frames |})
    (forEachOpt (indexed topColors)
       (fun '(i, topColor) =>
          option_map
            (fun botColor =>
               join "," [idPixel topColor (Some 1); idPixel topColor (Some 87);
                         idPixel botColor (Some 88); idPixel botColor (Some 119)])
            (nth_error botColors i))).

(** The loop of [blueGreenBaseTopBreathSpin] from iteration [i] on, with the
    array [baseIds] as the iteration finds it. *)
Fixpoint spinFrames (botColors : list Entry) (i : nat) (baseIds : list Z)
    (topColors : list Entry) : option (list string) :=
  match topColors with
  | [] => Some []
  | topColor :: rest =>
      match nth_error botColors i with
      | None => None
      | Some botColor =>
          let baseIds := popUnshift baseIds in
          let frame :=
            app [idPixel topColor (Some 1); idPixel topColor (Some 87)]
                (map (fun '(j, id) =>
                        let perc := fraction j (length baseIds) in
                        getPixel None None (scaled botColor 0 perc)
                                 (scaled botColor 1 perc) (scaled botColor 2 perc)
                                 (Some id))
                     (indexed baseIds)) in
          option_map (cons (join "," frame)) (spinFrames botColors (S i) baseIds rest)
      end
  end.

(** [generators.blueGreenBaseTopBreathSpin] (l.813-870). *)
Definition blueGreenBaseTopBreathSpin : option Animation :=
  let FRAME_DELAY := 10 in
  let secondsPerBreath := (64 # 10)%Q in
  let stepsPerInhale := ((secondsPerBreath * 100 / inject_Z FRAME_DELAY) / 2)%Q in
  let topColors :=
    multiColorBleed stepsPerInhale (Some interpSine) [RGB 0 255 0; RGB 0 0 255] in
  let botColors :=
    multiColorBleed stepsPerInhale (Some interpSine) [RGB 0 0 255; RGB 0 255 0] in
  let baseIds := range 88 119 in
  option_map
    (fun frames =>
       {| settings := "framedelay:" ++ string_of_Z FRAME_DELAY
                        ++ ", framestretch, loop, replace:all, pfunc:interp";
          type := "animation";
          frames := frames |})
    (spinFrames botColors 0 baseIds topColors).

(** A key of a key group: a scan code or a led id. *)
Inductive Key : Type :=
| KScan (code : string)
| KId (n : Z).

(** An element of a key group: one key, or the pair [[first, last]]. *)
Inductive KeySpec : Type :=
| Single (k : Key)
| Range (first last : Key).

Definition FUNC_KEY_GROUP := [Range (KScan "0x01") (KScan "0x10")].
Definition LEFT_GROUP :=
  [Single (KScan "0x11"); Single (KScan "0x24"); Single (KScan "0x36");
   Single (KScan "0x45"); Range (KScan "0x55") (KScan "0x57")].
Definition RIGHT_GROUP :=
  [Single (KScan "0x1F"); Single (KScan "0x31"); Single (KScan "0x43");
   Single (KScan "0x52"); Range (KScan "0x59") (KScan "0x5C")].
Definition NAV_GROUP :=
  [Range (KScan "0x21") (KScan "0x23"); Range (KScan "0x33") (KScan "0x35")].
Definition ARROW_GROUP := [Single (KScan "0x54"); Range (KScan "0x5D") (KScan "0x5F")].
Definition LETTERS_GROUP :=
  [Range (KScan "0x12") (KScan "0x1D"); Range (KScan "0x25") (KScan "0x30");
   Range (KScan "0x37") (KScan "0x41"); Range (KScan "0x47") (KScan "0x50")].
Definition SPACE_GROUP := [Single (KScan "0x58")].
Definition BASE_GROUP := [Range (KId 88) (KId 119)].

(** [KEY_GROUPS], in the order of its keys (l.89-98). *)
Definition KEY_GROUPS : list (string * list KeySpec) :=
  [("FUNC_KEY_GROUP", FUNC_KEY_GROUP); ("LEFT_GROUP", LEFT_GROUP);
   ("LETTERS_GROUP", LETTERS_GROUP); ("RIGHT_GROUP", RIGHT_GROUP);
   ("SPACE_GROUP", SPACE_GROUP); ("NAV_GROUP", NAV_GROUP);
   ("ARROW_GROUP", ARROW_GROUP); ("BASE_GROUP", BASE_GROUP)].

Definition LEFT_BASE_LEDS : list Z :=
  [94; 95; 96; 97; 98; 99; 100; 101; 102; 103; 104; 105; 106; 107; 108; 109; 110].
Definition RIGHT_BASE_LEDS : list Z :=
  [94; 93; 92; 91; 90; 89; 88; 119; 118; 117; 116; 115; 114; 113; 112; 111; 110].

(** [getShiftedArray(arr)] (l.567-571), on an array that is not empty, as
    the script calls it. *)
Definition getShiftedArray {A : Type} (arr : list A) : list A := shiftPush arr.

(** The colours after [if (!defd(colorValues[0])) ...] and
    [if (!defd(colorValues[1])) ...]. *)
Definition withDefaultColors (colorValues : list Color) : list Color :=
  match colorValues with
  | [] => [RGB 0 255 0; RGB 0 0 255]
  | [c] => [c; RGB 0 0 255]
  | _ => colorValues
  end.

(** [keyToId(key)] inside [keyGroupCycler]. *)
Definition keyToId (env : Env) (key : Key) : option Z :=
  match key with
  | KScan code => ledIdByScanCode env code
  | KId n => Some n
  end.

(** The pixel numbers the loop over [keys] passes to [getPixel], in order.
    With a bound that is [undefined] the loop [for (k = id0; k <= idN; k++)]
    does not run. *)
Definition groupPixelNumbers (env : Env) (keys : list KeySpec) : list (option Z) :=
  flat_map (fun spec =>
              match spec with
              | Range first last =>
                  match keyToId env first, keyToId env last with
                  | Some id0, Some idN => map Some (range id0 idN)
                  | _, _ => []
                  end
              | Single k => [keyToId env k]
              end)
           keys.

(** The first loop of [keyGroupCycler]: each group with its bleed, the
    colours shifted by one from group to group. *)
Fixpoint keyGroupBleeds (stepsPerColor : Q) (curColors : list Color)
    (groups : list (string * list KeySpec)) : list (list KeySpec * list Entry) :=
  match groups with
  | [] => []
  | (_, keys) :: rest =>
      (keys, multiColorBleed stepsPerColor (Some interpSine) curColors)
        :: keyGroupBleeds stepsPerColor (getShiftedArray curColors) rest
  end.

(** [generators.keyGroupCycler] (l.872-951).  [keyGroupFrames[g][i]] outside
    the array is [undefined]; the script reads its channels, and throws, as
    soon as the group has a pixel to emit. *)
Definition keyGroupCycler (env : Env) (stepsPerColor : option Z) (args : list Color)
    : option Animation :=
  let stepsPerColor := match stepsPerColor with
                       | None => 16
                       | Some n => n
                       end in
  let colorValues := withDefaultColors args in
  let keyGroupFrames := keyGroupBleeds (inject_Z stepsPerColor) colorValues KEY_GROUPS in
  let frameCount := length (snd (last keyGroupFrames ([], []))) in
  option_map
    (fun frames =>
       {| settings := "framedelay:" ++ string_of_Z 10 ++ ", framestretch, loop, replace:all";
          type := "animation";
          frames := frames |})
    (forEachOpt (seq 0 frameCount)
       (fun i =>
          option_map (fun parts => join "," (concat parts))
            (forEachOpt keyGroupFrames
               (fun '(keys, groupFrames) =>
                  match groupPixelNumbers env keys, nth_error groupFrames i with
                  | [], _ => Some []
                  | ids, Some color => Some (map (idPixel color) ids)
                  | _ :: _, None => None
                  end)))).

(** The commands one frame of [verticalPulseWithTracers] pushes for the
    base leds (the loop over [j], l.1060-1095). *)
Definition tracerCommands (botColor : Entry) (ltSide rtSide : list (option Z))
    : list string :=
  let onIntensity := 1%Q in
  let offIntensity := (5 # 100)%Q in
  flat_map
    (fun '(j, lt) =>
       match lt with
       | None => []
       | Some ltId =>
           let intensity :=
             if Z.of_nat j >? Z.of_nat (length ltSide) - 4
             then onIntensity else offIntensity in
           let rt := match nth_error rtSide j with
                     | Some (Some rtId) => Some rtId
                     | _ => None
                     end in
           let pixel (id : option Z) :=
             getPixel None None (scaled botColor 0 intensity)
                      (scaled botColor 1 intensity) (scaled botColor 2 intensity) id in
           app [pixel (Some ltId)]
               (if negb (ltId =? 94) && negb (ltId =? 110) then [pixel rt] else [])
       end)
    (indexed ltSide).

(** The frame loop of [verticalPulseWithTracers] from iteration [i] on
    (l.1048-1104): each frame as the sorted array of its commands. *)
Fixpoint tracerFrames (botColors : list Entry) (i : nat)
    (ltSide rtSide : list (option Z)) (topColors : list Entry)
    : option (list (list string)) :=
  match topColors with
  | [] => Some []
  | topColor :: rest =>
      match nth_error botColors i with
      | None => None
      | Some botColor =>
          let frame :=
            app [idPixel topColor (Some 1); idPixel topColor (Some 87)]
                (tracerCommands botColor ltSide rtSide) in
          match sortPixelFrame frame with
          | None => None
          | Some frame =>
              option_map (cons frame)
                (tracerFrames botColors (S i) (shiftPush ltSide) (shiftPush rtSide) rest)
          end
      end
  end.

(** The two sides padded with [null] and the step count, as l.996-1021
    leave them. *)
Definition tracerSetup (stepsPerColor : Z) (colorCount : Z)
    : list (option Z) * list (option Z) * Z :=
  let stepsPerInhale := stepsPerColor in
  let ltSide := map Some LEFT_BASE_LEDS in
  let rtSide := map Some RIGHT_BASE_LEDS in
  let stepsPerInhale :=
    if Z.of_nat (length ltSide) >? stepsPerInhale
    then Z.of_nat (length ltSide) else stepsPerInhale in
  let actualStepsPerInhale := stepsPerInhale in
  if Z.rem (colorCount * actualStepsPerInhale) (Z.of_nat (length ltSide)) >? 0
  then
    let currentLoops :=
      Qfloor (inject_Z (colorCount * actualStepsPerInhale)
              / inject_Z (Z.of_nat (length ltSide))) in
    let diff := colorCount * actualStepsPerInhale
                - Z.of_nat (length ltSide) * currentLoops in
    let addSteps := Qceiling (inject_Z diff / inject_Z currentLoops) in
    let ltSide := app ltSide (repeat None (Z.to_nat addSteps)) in
    let rtSide := app rtSide (repeat None (Z.to_nat addSteps)) in
    let stepsPerInhale :=
      if Z.of_nat (length ltSide) * currentLoops >? actualStepsPerInhale * colorCount
      then Math_round (NumQ (inject_Z (Z.of_nat (length ltSide) * currentLoops)
                             / inject_Z colorCount))
      else stepsPerInhale in
    (ltSide, rtSide, stepsPerInhale)
  else (ltSide, rtSide, stepsPerInhale).

(** The frames of [verticalPulseWithTracers] before they are joined. *)
Definition verticalPulseFrames (stepsPerColor : option Z) (args : list Color)
    : option (list (list string)) :=
  let stepsPerColor := match stepsPerColor with
                       | None => 32
                       | Some n => n
                       end in
  let colorValues := withDefaultColors args in
  let colorCount := Z.of_nat (length colorValues) in
  let '(ltSide, rtSide, stepsPerInhale) := tracerSetup stepsPerColor colorCount in
  let topColors :=
    multiColorBleed (inject_Z stepsPerInhale) (Some interpSine) colorValues in
  let shiftedColors := shiftPush colorValues in
  let botColors :=
    multiColorBleed (inject_Z stepsPerInhale) (Some interpSine) shiftedColors in
  tracerFrames botColors 0 ltSide rtSide topColors.

(** [generators.verticalPulseWithTracers] (l.966-1107). *)
Definition verticalPulseWithTracers (stepsPerColor : option Z) (args : list Color)
    : option Animation :=
  let FRAME_DELAY := 5 in
  option_map
    (fun frames =>
       {| settings := "framedelay:" ++ string_of_Z FRAME_DELAY
                        ++ ", framestretch, loop, replace:all, pfunc:interp";
          type := "animation";
          frames := map (join ",") frames |})
    (verticalPulseFrames stepsPerColor args).

(** A call of a generator with its arguments; [None] is an argument
    left out. *)
Inductive GenCall : Type :=
| CallDodgyPixel (hiColor bgColor : option Color)
| CallKitt2000 (hiColor bgColor : option Color) (width : option Z)
| CallBluewipe
| CallMacSleepBreath (hiColor loColor : option Color)
| CallBlueGreenBreath
| CallBlueGreenBaseTopBreathSpin
| CallKeyGroupCycler (stepsPerColor : option Z) (colors : list Color)
| CallVerticalPulseWithTracers (stepsPerColor : option Z) (colors : list Color)
| CallBaseTopBreath (color1 color2 : option Color)
| CallRedPulse
| CallLinearPulse (hiColor loColor : option Color)
| CallBlueYellowPulse
| CallRgbPulse
| CallRgbZebraPulse
| CallWhiteNoise (maxFrames : option Z)
| CallTopAndBottom
| CallTopAndBottom2
| CallEscapeTest.

(** The key of the generator in [generators]. *)
Definition callName (c : GenCall) : string :=
  match c with
  | CallDodgyPixel _ _ => "dodgyPixel"
  | CallKitt2000 _ _ _ => "kitt2000"
  | CallBluewipe => "bluewipe"
  | CallMacSleepBreath _ _ => "macSleepBreath"
  | CallBlueGreenBreath => "blueGreenBreath"
  | CallBlueGreenBaseTopBreathSpin => "blueGreenBaseTopBreathSpin"
  | CallKeyGroupCycler _ _ => "keyGroupCycler"
  | CallVerticalPulseWithTracers _ _ => "verticalPulseWithTracers"
  | CallBaseTopBreath _ _ => "baseTopBreath"
  | CallRedPulse => "redPulse"
  | CallLinearPulse _ _ => "linearPulse"
  | CallBlueYellowPulse => "blueYellowPulse"
  | CallRgbPulse => "rgbPulse"
  | CallRgbZebraPulse => "rgbZebraPulse"
  | CallWhiteNoise _ => "whiteNoise"
  | CallTopAndBottom => "topAndBottom"
  | CallTopAndBottom2 => "topAndBottom2"
  | CallEscapeTest => "escapeTest"
  end.

(** The function bodies of the object [generators] (l.574-1329). *)
Definition invoke (env : Env) (c : GenCall) : Gen Animation :=
  match c with
  | CallDodgyPixel hiColor bgColor => dodgyPixel env hiColor bgColor
  | CallKitt2000 hiColor bgColor width => lift (kitt2000 hiColor bgColor width)
  | CallBluewipe => ret bluewipe
  | CallMacSleepBreath hiColor loColor => ret (macSleepBreath hiColor loColor)
  | CallBlueGreenBreath => ret blueGreenBreath
  | CallBlueGreenBaseTopBreathSpin => lift blueGreenBaseTopBreathSpin
  | CallKeyGroupCycler stepsPerColor colors => lift (keyGroupCycler env stepsPerColor colors)
  | CallVerticalPulseWithTracers stepsPerColor colors =>
      lift (verticalPulseWithTracers stepsPerColor colors)
  | CallBaseTopBreath color1 color2 => lift (baseTopBreath color1 color2)
  | CallRedPulse => ret (colorPulseGenerator 240 [RGB 255 25 0; RGB 0 0 0])
  | CallLinearPulse hiColor loColor =>
      ret (colorPulseGenerator 240 [orDefault hiColor (RGB 255 25 0);
                                    orDefault loColor (RGB 0 0 0)])
  | CallBlueYellowPulse => ret (colorPulseGenerator 240 [RGB 0 0 255; RGB 255 255 0])
  | CallRgbPulse =>
      ret (colorPulseGenerator 120 [RGB 255 0 0; RGB 0 255 0; RGB 0 0 255])
  | CallRgbZebraPulse =>
      ret (colorPulseGenerator 120 [RGB 255 0 0; RGB 255 255 255; RGB 0 255 0;
                                    RGB 255 255 255; RGB 0 0 255; RGB 255 255 255])
  | CallWhiteNoise maxFrames => whiteNoise env maxFrames
  | CallTopAndBottom => ret (topAndBottom env)
  | CallTopAndBottom2 => ret topAndBottom2
  | CallEscapeTest => escapeTest env
  end.

(** The generators in the order the object declares them, each as [main]
    calls it: [generators[g]()]. *)
Definition callsWithoutArguments : list GenCall :=
  [CallDodgyPixel None None; CallKitt2000 None None None; CallBluewipe;
   CallMacSleepBreath None None; CallBlueGreenBreath; CallBlueGreenBaseTopBreathSpin;
   CallKeyGroupCycler None []; CallVerticalPulseWithTracers None [];
   CallBaseTopBreath None None; CallRedPulse; CallLinearPulse None None;
   CallBlueYellowPulse; CallRgbPulse; CallRgbZebraPulse; CallWhiteNoise None;
   CallTopAndBottom; CallTopAndBottom2; CallEscapeTest].

Definition generators (env : Env) : list (string * Gen Animation) :=
  map (fun c => (callName c, invoke env c)) callsWithoutArguments.

(** The generation step of [main] (l.130-138 and l.182-199).  In the last
    branch the first test has made sure the generator exists. *)
Definition generate (env : Env) (generator : string) (animOrig : AnimMap)
    : Gen Outcome :=
  let found := lookupGenerator (generators env) generator in
  let unknown :=
    match found with
    | None => negb (String.eqb generator "all") && negb (String.eqb generator "conf")
    | Some _ => false
    end in
  if String.eqb generator "" || unknown then ret UnknownGenerator
  else if String.eqb generator "all"
  then animations <- generateAll (generators env) animOrig ;;
       ret (Generated animations)
  else if String.eqb generator "conf" then ret FromConf
  else
    match found with
    | Some gen => a <- gen ;; ret (Generated (setProp animOrig generator a))
    | None => ret UnknownGenerator
    end.

End Part000.

(* ================================================================== *)
(** * [src/kiianigen.js] *)

Module Kiianigen.

(** [colorBleed(origColor, destColor, steps, step)] (l.210-236). *)
Definition colorBleed (origColor destColor : Color) (steps : option Q)
    (step : option Z) : BleedResult :=
  let '(steps, step) :=
    match steps with
    | None => (2%Q, Some 1)
    | Some n => if Qltb n 2 then (2%Q, Some 1) else (n, step)
    end in
  let diffSteps (orig dest : Z) : Q :=
    let cDiff := dest - orig in
    (inject_Z cDiff / steps)%Q in
  let colors :=
    map (fun s =>
           mapChannels (fun orig dest =>
                          let iColor :=
                            Math_round (NumQ (inject_Z orig
                                              + inject_Z s * diffSteps orig dest)) in
                          let iColor := Z.max iColor 0 in
                          let iColor := Z.min iColor 255 in
                          iColor)
                       origColor destColor)
        (loopUpTo steps) in
  match step with
  | Some k => BleedStep (elementAt colors k)
  | None => BleedAll colors
  end.

(** The loop of [multiColorBleed], as in [Part000.bleedSegments]. *)
Fixpoint bleedSegments (frameCountPerColor : Q) (first : Color) (i : nat)
    (l : list Color) : list Entry :=
  match l with
  | [] => []
  | cOrig :: rest =>
      let cDest := match rest with
                   | [] => first
                   | next :: _ => next
                   end in
      let fade := bleedEntries (colorBleed cOrig cDest (Some frameCountPerColor) None) in
      let fade := if (0 <? i)%nat then tl fade else fade in
      app fade (bleedSegments frameCountPerColor first (S i) rest)
  end.

(** [multiColorBleed(frameCountPerColor, ...colorValues)] (l.249-269). *)
Definition multiColorBleed (frameCountPerColor : Q) (colorValues : list Color)
    : list Entry :=
  let colors :=
    match colorValues with
    | [] => []
    | first :: _ => bleedSegments frameCountPerColor first 0 colorValues
    end in
  removelast colors.

(** [colorPulseGenerator(frameCountPerColor, ...colors)] (l.282-303). *)
Definition colorPulseGenerator (frameCountPerColor : Q) (args : list Color) : Animation :=
  let colors := multiColorBleed frameCountPerColor args in
  let frames :=
    map (fun color => join "," [colPixel "-1%" color; colPixel "101%" color]) colors in
  {| settings := "framedelay:3, framestretch, loop, replace:all, pfunc:interp";
     type := "animation";
     frames := frames |}.

(** [generators.dodgyPixel] (l.311-333). *)
Definition dodgyPixel (env : Env) : Gen Animation :=
  let frame :=
    flat_map (fun x =>
                map (fun y => getPixel (Some (JNum x)) (Some (JNum y))
                                       (Some 25) (Some 25) (Some 25) None)
                    (range 0 (maxCol env)))
             (range 0 (maxRow env)) in
  let frames := [join "," frame] in
  blinks <- forEach (seq 0 50) (fun _ =>
              u1 <- Math_random env ;;
              let rx := Math_round (NumQ (u1 * inject_Z (maxRow env))) in
              u2 <- Math_random env ;;
              let ry := Math_round (NumQ (u2 * inject_Z (maxCol env))) in
              ret [getPixel (Some (JNum rx)) (Some (JNum ry))
                            (Some 255) (Some 255) (Some 255) None;
                   getPixel (Some (JNum rx)) (Some (JNum ry))
                            (Some 25) (Some 25) (Some 25) None]) ;;
  ret {| settings := "framedelay:1, loop, replace:all";
         type := "animation";
         frames := app frames (concat blinks) |}.

(** [generators.kitt2000] (l.338-380).  [lastBleedColor] is [colors[4]] of a
    bleed over five steps; were it [undefined], reading its channels would
    throw. *)
Definition kitt2000 : option Animation :=
  let bgColor := RGB 0 0 0 in
  let hiColor := RGB 255 26 0 in
  let bleed := 5 in
  match colorBleed hiColor bgColor (Some (inject_Z bleed)) (Some (bleed - 1)) with
  | BleedStep (Some lastBleedColor) =>
      let steps := 50 in
      let step := 100 / steps in
      let overflow := 1 in
      let colText (n : Z) := Some (JStr (string_of_Z n ++ "%")) in
      let frame (i : Z) :=
        join "," [rgbPixel None (colText (-2)) bgColor None;
                  rgbPixel None (colText ((i - overflow - (bleed - 1)) * step))
                           lastBleedColor None;
                  rgbPixel None (colText ((i - overflow) * step)) hiColor None;
                  rgbPixel None (colText ((i - overflow + (bleed - 1)) * step))
                           lastBleedColor None;
                  rgbPixel None (colText 102) bgColor None] in
      Some {| settings := "framedelay:3, framestretch, loop, replace:all, pfunc:interp";
              type := "animation";
              frames := app (map frame (range (- overflow) (steps + overflow)))
                            (map frame (rangeDown (steps + overflow + 1) (- overflow - 1))) |}
  | _ => None
  end.

(** [generators.bluewipe] (l.386-422). *)
Definition bluewipe : Animation :=
  let bgColor := RGB 93 93 93 in
  let hiColor := RGB 0 26 255 in
  let steps := 50 in
  let step := 100 / steps in
  let overflow := 1 in
  let rowText (n : Z) := Some (JStr (string_of_Z n ++ "%")) in
  let forward :=
    map (fun i => join "," [rgbPixel (rowText (-2)) None bgColor None;
                            rgbPixel (rowText ((i - overflow) * step)) None hiColor None;
                            rgbPixel (rowText 102) None bgColor None])
        (range (- overflow) (steps + overflow)) in
  let backward :=
    map (fun i => join "," [getPixel (rowText (-2)) (option_map JNum (channel bgColor 0))
                                     None (channel bgColor 1) (channel bgColor 2) None;
                            rgbPixel (rowText ((i - overflow) * step)) None hiColor None;
                            rgbPixel (rowText 102) None bgColor None])
        (rangeDown (steps + overflow + 1) (- overflow - 1)) in
  {| settings := "framedelay:3, framestretch, loop, replace:all, pfunc:interp";
     type := "animation";
     frames := app forward backward |}.

(** [generators.whiteNoise] (l.455-480). *)
Definition whiteNoise (env : Env) (maxFrames : option Z) : Gen Animation :=
  let maxFrames :=
    match maxFrames with
    | None => 20
    | Some m => if m =? 0 then 20 else m
    end in
  let maxIntensity := 153 in
  frames <- forEach (range 0 (maxFrames - 1)) (fun f =>
              frame <- forEach (range 1 119) (fun p =>
                         u <- Math_random env ;;
                         let rIntensity := Qfloor (u * inject_Z maxIntensity) in
                         ret (getPixel None None (Some rIntensity) (Some rIntensity)
                                       (Some rIntensity) (Some p))) ;;
              ret (join "," frame)) ;;
  ret {| settings := "framedelay:1, loop, replace:all";
         type := "animation";
         frames := frames |}.

(** [generators.topAndBottom] (l.486-503). *)
Definition topAndBottom (env : Env) : Animation :=
  let frame :=
    app (map (fun l => getPixel None None (Some 0) (Some 255) (Some 0) (Some (led_id l)))
             (blankLeds env))
        (map (fun l => getPixel None None (Some 0) (Some 0) (Some 255) (Some (led_id l)))
             (keyedLeds env)) in
  {| settings := "framedelay:1, loop, replace:all";
     type := "animation";
     frames := [join "," frame] |}.

(** [generators.escapeTest] (l.509-525). *)
Definition escapeTest (env : Env) : Gen Animation :=
  let randomPixel (id : Z) : Gen string :=
    u1 <- Math_random env ;;
    u2 <- Math_random env ;;
    u3 <- Math_random env ;;
    ret (getPixel None None (Some (Qfloor (u1 * 255))) (Some (Qfloor (u2 * 0)))
                  (Some (Qfloor (u3 * 0))) (Some id)) in
  frames <- forEach (range 0 9) (fun _ =>
              p1 <- randomPixel 1 ;;
              p16 <- randomPixel 16 ;;
              ret (join "," [p1; p16])) ;;
  ret {| settings := "framedelay:1, loop, replace:all";
         type := "animation";
         frames := frames |}.

(** A call of a generator with its arguments. *)
Inductive GenCall : Type :=
| CallDodgyPixel
| CallKitt2000
| CallBluewipe
| CallRedPulse
| CallBlueYellowPulse
| CallRgbPulse
| CallRgbZebraPulse
| CallWhiteNoise (maxFrames : option Z)
| CallTopAndBottom
| CallEscapeTest.

Definition callName (c : GenCall) : string :=
  match c with
  | CallDodgyPixel => "dodgyPixel"
  | CallKitt2000 => "kitt2000"
  | CallBluewipe => "bluewipe"
  | CallRedPulse => "redPulse"
  | CallBlueYellowPulse => "blueYellowPulse"
  | CallRgbPulse => "rgbPulse"
  | CallRgbZebraPulse => "rgbZebraPulse"
  | CallWhiteNoise _ => "whiteNoise"
  | CallTopAndBottom => "topAndBottom"
  | CallEscapeTest => "escapeTest"
  end.

(** The function bodies of the object [generators] (l.306-526). *)
Definition invoke (env : Env) (c : GenCall) : Gen Animation :=
  match c with
  | CallDodgyPixel => dodgyPixel env
  | CallKitt2000 => lift kitt2000
  | CallBluewipe => ret bluewipe
  | CallRedPulse => ret (colorPulseGenerator 240 [RGB 255 25 0; RGB 0 0 0])
  | CallBlueYellowPulse => ret (colorPulseGenerator 240 [RGB 0 0 255; RGB 255 255 0])
  | CallRgbPulse =>
      ret (colorPulseGenerator 120 [RGB 255 0 0; RGB 0 255 0; RGB 0 0 255])
  | CallRgbZebraPulse =>
      ret (colorPulseGenerator 120 [RGB 255 0 0; RGB 255 255 255; RGB 0 255 0;
                                    RGB 255 255 255; RGB 0 0 255; RGB 255 255 255])
  | CallWhiteNoise maxFrames => whiteNoise env maxFrames
  | CallTopAndBottom => ret (topAndBottom env)
  | CallEscapeTest => escapeTest env
  end.

Definition callsWithoutArguments : list GenCall :=
  [CallDodgyPixel; CallKitt2000; CallBluewipe; CallRedPulse; CallBlueYellowPulse;
   CallRgbPulse; CallRgbZebraPulse; CallWhiteNoise None; CallTopAndBottom;
   CallEscapeTest].

Definition generators (env : Env) : list (string * Gen Animation) :=
  map (fun c => (callName c, invoke env c)) callsWithoutArguments.

(** The generation step of [main] (l.50-53 and l.83-91).  In the last
    branch the first test has made sure the generator exists. *)
Definition generate (env : Env) (generator : string) (animOrig : AnimMap)
    : Gen Outcome :=
  let found := lookupGenerator (generators env) generator in
  let unknown :=
    match found with
    | None => negb (String.eqb generator "all")
    | Some _ => false
    end in
  if String.eqb generator "" || unknown then ret UnknownGenerator
  else if String.eqb generator "all"
  then animations <- generateAll (generators env) animOrig ;;
       ret (Generated animations)
  else
    match found with
    | Some gen => a <- gen ;; ret (Generated (setProp animOrig generator a))
    | None => ret UnknownGenerator
    end.

End Kiianigen.

(* ================================================================== *)
(** * The rest of [main], and [generateFromConf] *)

(** An entry of [kll.PixelIds]. *)
Record PixelId : Type := mkPixelId {
  Row : Z;
  Col : Z
}.

(** The loop of [main] over [kll.PixelIds] ([part_000] l.176-180,
    [kiianigen.js] l.76-80): the pair of [maxRow] and [maxCol] it leaves,
    from their initial value 0. *)
Definition maxRowCol (pixelIds : list PixelId) : Z * Z :=
  fold_left (fun '(maxRow, maxCol) px =>
               (Z.max maxRow (Row px), Z.max maxCol (Col px)))
            pixelIds (0, 0).

(** The class [\s] on code units below 256: tab, line feed, vertical tab,
    form feed, carriage return, space and no-break space. *)
Definition isSpace (c : ascii) : bool :=
  let n := N_of_ascii c in
  ((9 <=? n)%N && (n <=? 13)%N) || (n =? 32)%N || (n =? 160)%N.

(** The class [\w]: a letter, a digit or the underscore. *)
Definition isWord (c : ascii) : bool :=
  let n := N_of_ascii c in
  ((48 <=? n)%N && (n <=? 57)%N) || ((65 <=? n)%N && (n <=? 90)%N)
  || (n =? 95)%N || ((97 <=? n)%N && (n <=? 122)%N).

(** [s.replace(/\s+/g, '_')]: [inRun] says that the character before was
    white space, which the underscore written for its run covers. *)
Fixpoint replaceSpaceRuns (inRun : bool) (s : string) : string :=
  match s with
  | "" => ""
  | String c rest =>
      if isSpace c
      then if inRun then replaceSpaceRuns true rest
           else String "_" (replaceSpaceRuns true rest)
      else String c (replaceSpaceRuns false rest)
  end.

(** [s.replace(/\W+/g, '')]. *)
Fixpoint removeNonWord (s : string) : string :=
  match s with
  | "" => ""
  | String c rest =>
      if isWord c then String c (removeNonWord rest) else removeNonWord rest
  end.

(** [animNameToUse] ([part_000] l.313), for a name of code units below
    256. *)
Definition animNameToUse (animName : string) : string :=
  removeNonWord (replaceSpaceRuns false animName).

(** [kiianiconf.json], as the branch for [conf] of [main] hands it to
    [generateFromConf].  [animations] holds the properties of the object,
    each name once.  An entry [{generator, params}] is given as the call it
    denotes: the generator with [params] as its arguments, or without
    arguments when [params] is missing. *)
Record ConfData : Type := mkConfData {
  animations : list (string * Part000.GenCall);
  activeAnimations : list string
}.

(** [confData.animations[animName]]. *)
Fixpoint confAnimation (anims : list (string * Part000.GenCall)) (animName : string)
    : option Part000.GenCall :=
  match anims with
  | [] => None
  | (k, c) :: rest => if String.eqb k animName then Some c else confAnimation rest animName
  end.

(** The loop of [generateFromConf] over the names still to come.  For a
    name [animations] does not hold, [anim] is [undefined] and reading
    [anim.generator] throws. *)
Fixpoint generateActive (env : Env) (anims : list (string * Part000.GenCall))
    (active : list string) (animOrig : AnimMap) : Gen AnimMap :=
  match active with
  | [] => ret animOrig
  | animName :: rest =>
      match confAnimation anims animName with
      | None => lift None
      | Some call =>
          a <- Part000.invoke env call ;;
          generateActive env anims rest (setProp animOrig (animNameToUse animName) a)
      end
  end.

(** [generateFromConf(animOrig, confData)] ([part_000] l.300-320); the
    animations object it leaves. *)
Definition generateFromConf (env : Env) (animOrig : AnimMap) (confData : ConfData)
    : Gen AnimMap :=
  generateActive env (animations confData) (activeAnimations confData) animOrig.

(** [DEMO_CONF] ([part_000] l.44-78). *)
Definition DEMO_CONF : ConfData :=
  {| animations :=
       [("KARR 1.0", Part000.CallKitt2000 (Some (RGB 255 102 0)) None None);
        ("KITT 2000", Part000.CallKitt2000 None None None);
        ("White Noise", Part000.CallWhiteNoise None);
        ("Turquoise Hexagon Sun",
         Part000.CallBaseTopBreath (Some (RGB 0 255 0)) (Some (RGB 0 0 255)));
        ("Iced Cooly",
         Part000.CallDodgyPixel (Some (RGB 204 204 204)) (Some (RGB 0 0 255)));
        ("Quick RGB with Tracers",
         Part000.CallVerticalPulseWithTracers
           (Some 17) [RGB 255 0 0; RGB 0 255 0; RGB 0 0 255])];
     activeAnimations :=
       ["KARR 1.0"; "KITT 2000"; "Turquoise Hexagon Sun"; "Iced Cooly";
        "White Noise"; "Quick RGB with Tracers"] |}.

(* ================================================================== *)
(** * The vocabulary of the statements *)

(** A colour whose three channels are integers of [[0, 255]]. *)
Definition inRange (c : Color) : Prop :=
  match c with
  | RGB r g b => (0 <= r <= 255) /\ (0 <= g <= 255) /\ (0 <= b <= 255)
  end.

(** The same for an element of a multi-colour bleed. *)
Definition entryInRange (e : Entry) : Prop :=
  match e with
  | EColor c => inRange c
  | ENum n => 0 <= n <= 255
  end.

(** The colours a result of [colorBleed] holds. *)
Definition resultColors (r : BleedResult) : list Color :=
  match r with
  | BleedAll cs => cs
  | BleedStep (Some c) => [c]
  | BleedStep None => []
  end.

(** A colour after [Math.round] and the clamp on each channel. *)
Definition roundClamp (c : Color) : Color :=
  match c with
  | RGB r g b =>
      RGB (clampChannel (Math_round (NumQ (inject_Z r))))
          (clampChannel (Math_round (NumQ (inject_Z g))))
          (clampChannel (Math_round (NumQ (inject_Z b))))
  end.

(** The average of two colours, rounded and clamped on each channel. *)
Definition midpoint (c1 c2 : Color) : Color :=
  match c1, c2 with
  | RGB r1 g1 b1, RGB r2 g2 b2 =>
      RGB (clampChannel (Math_round (NumQ ((inject_Z r1 + inject_Z r2) / 2))))
          (clampChannel (Math_round (NumQ ((inject_Z g1 + inject_Z g2) / 2))))
          (clampChannel (Math_round (NumQ ((inject_Z b1 + inject_Z b2) / 2))))
  end.

(** [steps === undefined || steps < 2]. *)
Definition unsetOrBelowTwo (steps : option Q) : Prop :=
  match steps with
  | None => True
  | Some n => (n < 2)%Q
  end.

(** The colours [Part000.colorBleed] computes, whatever it then returns. *)
Definition bleedColorsP (origColor destColor : Color) (steps : Q) (f : Interp)
    : list Color :=
  map (fun s => mapChannels (fun o d => clampChannel (Math_round (f s steps o d)))
                            origColor destColor)
      (loopUpTo steps).

(** The colours [Kiianigen.colorBleed] computes. *)
Definition bleedColorsK (origColor destColor : Color) (steps : Q) : list Color :=
  map (fun s => mapChannels
                  (fun o d => clampChannel
                                (Math_round (NumQ (inject_Z o
                                                   + inject_Z s * (inject_Z (d - o) / steps)))))
                  origColor destColor)
      (loopUpTo steps).

Definition interpOrLinear (f : option Interp) : Interp :=
  match f with
  | None => interpLinear
  | Some g => g
  end.

(** The loop of [multiColorBleed] over any bleed between two colours. *)
Fixpoint segmentsOf (fade : Color -> Color -> list Entry) (first : Color) (i : nat)
    (l : list Color) : list Entry :=
  match l with
  | [] => []
  | cOrig :: rest =>
      let cDest := match rest with
                   | [] => first
                   | next :: _ => next
                   end in
      app (if (0 <? i)%nat then tl (fade cOrig cDest) else fade cOrig cDest)
          (segmentsOf fade first (S i) rest)
  end.

(** The number of elements [multiColorBleed] adds for each colour. *)
Definition framesPerColor (steps : Q) : nat :=
  if Qltb steps 2 then 2%nat else Z.to_nat (Qfloor steps).

(** From every counter [m] returns, without a throw, a value with [P]. *)
Definition returns {A : Type} (m : Gen A) (P : A -> Prop) : Prop :=
  forall n, exists a n', m n = Some (a, n') /\ P a.

(** One frame of [whiteNoise]: pixel ids 1 to 119, each with its grey
    level on the three channels. *)
Definition noiseFrame (levels : list Z) : string :=
  join "," (map (fun '(p, v) => getPixel None None (Some v) (Some v) (Some v) (Some p))
                (combine (range 1 119) levels)).

(** The tokens of a settings string: the parts between commas, without the
    blanks that follow a comma. *)
Fixpoint tokensFrom (cur : string) (s : string) : list string :=
  match s with
  | "" => [cur]
  | String c rest =>
      if Ascii.eqb c ","
      then cur :: tokensFrom "" rest
      else if Ascii.eqb c " " && String.eqb cur ""
           then tokensFrom cur rest
           else tokensFrom (cur ++ String c "") rest
  end.

Definition settingsTokens (s : string) : list string := tokensFrom "" s.

(** The type tag and the two settings every generator is to set. *)
Definition tagged (a : Animation) : Prop :=
  type a = "animation"
  /\ In "loop" (settingsTokens (settings a))
  /\ In "replace:all" (settingsTokens (settings a)).

Definition wellFormed (a : Animation) : Prop := tagged a /\ frames a <> [].

Ltac solve_tagged :=
  unfold tagged; cbn [type settings];
  repeat split; vm_compute; tauto.

(** The number of frames [whiteNoise] emits: [maxFrames], 20 when it is
    unset or 0, none when it is negative. *)
Definition noiseFrameCount (maxFrames : option Z) : nat :=
  match maxFrames with
  | None => 20%nat
  | Some m => if m =? 0 then 20%nat else Z.to_nat m
  end.

Definition keyLe (a b : Z * string) : Prop := fst a <= fst b.

(** The pixel ids of the commands of a frame, in order, do not decrease. *)
Definition sortedById (frame : list string) : Prop :=
  exists keys, forEachOpt frame pixelId = Some keys /\ Sorted Z.le keys.

(** The two sides hold led ids at the same places and [null] elsewhere. *)
Definition sidesOk (ltSide rtSide : list (option Z)) : Prop :=
  Forall2 (fun lt rt => match lt with
                        | Some a => 0 <= a /\ exists b, rt = Some b /\ 0 <= b
                        | None => True
                        end)
          ltSide rtSide.

(** A call that asks [whiteNoise] for a negative number of frames. *)
Definition negativeFramesP (c : Part000.GenCall) : Prop :=
  match c with
  | Part000.CallWhiteNoise (Some m) => m < 0
  | _ => False
  end.

Definition negativeFramesK (c : Kiianigen.GenCall) : Prop :=
  match c with
  | Kiianigen.CallWhiteNoise (Some m) => m < 0
  | _ => False
  end.

(** A device with a 6 by 18 grid, no leds, and an oracle that always
    answers one third. *)
Definition sampleEnv : Env := mkEnv 5 17 [] (fun _ => (1 # 3)%Q).

(** ** Vocabulary for the pixel ids of a frame *)

(** No character of the string is an opening bracket. *)
Fixpoint noBracket (s : string) : bool :=
  match s with
  | "" => true
  | String c rest => negb (Ascii.eqb c "[") && noBracket rest
  end.

(** A row or column argument whose text holds no opening bracket: every
    number, and a string such as ["-2%"]. *)
Definition plainPrim (v : option JsPrim) : Prop :=
  match v with
  | Some (JStr s) => noBracket s = true
  | _ => True
  end.

(** The command carries a pixel id the comparison of [sortPixelFrame]
    can read. *)
Definition hasId (cmd : string) : Prop := exists id, pixelId cmd = Some id.

(** ** Vocabulary for the colours of a bleed *)

(** An interpolation function whose rounded value lies between the two
    channels, whatever the step of the loop. *)
Definition staysBetween (f : Interp) : Prop :=
  forall s n o d,
    0 <= s -> (inject_Z s <= n)%Q -> (0 < n)%Q ->
    Z.min o d <= Math_round (f s n o d) <= Z.max o d.

(** Every channel of [c] lies between that channel of [c1] and of [c2]
    after the clamp. *)
Definition channelsBetween (c1 c2 c : Color) : Prop :=
  match c1, c2, c with
  | RGB r1 g1 b1, RGB r2 g2 b2, RGB r g b =>
      (Z.min (clampChannel r1) (clampChannel r2) <= r
       <= Z.max (clampChannel r1) (clampChannel r2))
      /\ (Z.min (clampChannel g1) (clampChannel g2) <= g
          <= Z.max (clampChannel g1) (clampChannel g2))
      /\ (Z.min (clampChannel b1) (clampChannel b2) <= b
          <= Z.max (clampChannel b1) (clampChannel b2))
  end.

(** An interpolation function that is exact at both ends of the loop. *)
Definition exactAtEnds (f : Interp) : Prop :=
  forall (n o d : Z),
    0 < n ->
    Math_round (f 0 (inject_Z n) o d) = o
    /\ Math_round (f n (inject_Z n) o d) = d.

(** ** Vocabulary for [main] and [generateFromConf] *)

(** The property names every object inherits from [Object.prototype].
    Reading one of them from [generators] or from a table gives the
    inherited value, and writing ["__proto__"] replaces the prototype; the
    maps of this development hold own properties only, so the statements
    about arbitrary names leave these out. *)
Definition objectPrototypeNames : list string :=
  ["constructor"; "hasOwnProperty"; "isPrototypeOf"; "propertyIsEnumerable";
   "toLocaleString"; "toString"; "valueOf"; "__proto__"; "__defineGetter__";
   "__defineSetter__"; "__lookupGetter__"; "__lookupSetter__"].

(** Every character of the string is a letter, a digit or the underscore. *)
Fixpoint allWord (s : string) : bool :=
  match s with
  | "" => true
  | String c rest => isWord c && allWord rest
  end.

(** The colour [topAndBottom] gives a led: blue with a scan code, green
    without. *)
Definition topAndBottomPixel (l : Led) : string :=
  if hasScanCode l
  then getPixel None None (Some 0) (Some 0) (Some 255) (Some (led_id l))
  else getPixel None None (Some 0) (Some 255) (Some 0) (Some (led_id l)).

(** ** Vocabulary for the number of frames *)

(** The step count [verticalPulseWithTracers] gives each colour, once the
    tracers are set up. *)
Definition tracerSteps (stepsPerColor : option Z) (colors : list Color) : Z :=
  let '(_, _, stepsPerInhale) :=
    Part000.tracerSetup (match stepsPerColor with
                         | Some n => n
                         | None => 32
                         end)
                        (Z.of_nat (length (Part000.withDefaultColors colors))) in
  stepsPerInhale.

(** The number of frames of each call of a generator of [part_000]. *)
Definition frameCountP (c : Part000.GenCall) : nat :=
  match c with
  | Part000.CallDodgyPixel _ _ => 101
  | Part000.CallKitt2000 _ _ _ => 101
  | Part000.CallBluewipe => 107
  | Part000.CallMacSleepBreath _ _ => 166
  | Part000.CallBlueGreenBreath => 166
  | Part000.CallBlueGreenBaseTopBreathSpin => 64
  | Part000.CallKeyGroupCycler stepsPerColor colors =>
      length (Part000.withDefaultColors colors)
      * framesPerColor (inject_Z (match stepsPerColor with
                                  | Some n => n
                                  | None => 16
                                  end))
  | Part000.CallVerticalPulseWithTracers stepsPerColor colors =>
      length (Part000.withDefaultColors colors)
      * Z.to_nat (tracerSteps stepsPerColor colors)
  | Part000.CallBaseTopBreath _ _ => 166
  | Part000.CallRedPulse => 480
  | Part000.CallLinearPulse _ _ => 480
  | Part000.CallBlueYellowPulse => 480
  | Part000.CallRgbPulse => 360
  | Part000.CallRgbZebraPulse => 720
  | Part000.CallWhiteNoise maxFrames => noiseFrameCount maxFrames
  | Part000.CallTopAndBottom => 1
  | Part000.CallTopAndBottom2 => 32
  | Part000.CallEscapeTest => 10
  end.

(** The same for [kiianigen.js]. *)
Definition frameCountK (c : Kiianigen.GenCall) : nat :=
  match c with
  | Kiianigen.CallDodgyPixel => 101
  | Kiianigen.CallKitt2000 => 107
  | Kiianigen.CallBluewipe => 107
  | Kiianigen.CallRedPulse => 480
  | Kiianigen.CallBlueYellowPulse => 480
  | Kiianigen.CallRgbPulse => 360
  | Kiianigen.CallRgbZebraPulse => 720
  | Kiianigen.CallWhiteNoise maxFrames => noiseFrameCount maxFrames
  | Kiianigen.CallTopAndBottom => 1
  | Kiianigen.CallEscapeTest => 10
  end.

(** The pixel numbers of the commands the tracers push, place by place of
    two sides that hold ids at the same places. *)
Definition tracerIds (ltSide rtSide : list (option Z)) : list Z :=
  flat_map (fun '(lt, rt) =>
              match lt, rt with
              | Some ltId, Some rtId =>
                  ltId :: (if negb (ltId =? 94) && negb (ltId =? 110) then [rtId] else [])
              | Some ltId, None => [ltId]
              | None, _ => []
              end)
           (combine ltSide rtSide).

(** The pixels of a frame of [verticalPulseWithTracers]: the two of the
    keyboard and the 32 of the base. *)
Definition tracerPixels : list Z := 1 :: 87 :: range 88 119.

(** The two frames of a blink of [dodgyPixel] at a cell. *)
Definition blinkFrames (hiColor bgColor : Color) (cell : Z * Z) : list string :=
  [rgbPixel (Some (JNum (fst cell))) (Some (JNum (snd cell))) hiColor None;
   rgbPixel (Some (JNum (fst cell))) (Some (JNum (snd cell))) bgColor None].

(** An interpolation function whose rounded value moves from the first
    channel towards the second as the step grows. *)
Definition monotoneInterp (f : Interp) : Prop :=
  forall s t n o d,
    0 <= s -> s <= t -> (inject_Z t <= n)%Q -> (0 < n)%Q ->
    (o <= d -> Math_round (f s n o d) <= Math_round (f t n o d))
    /\ (d <= o -> Math_round (f t n o d) <= Math_round (f s n o d)).

(** On every channel, [cj] is as far as [ci] or further on the way from
    [c1] to [c2]. *)
Definition channelsToward (c1 c2 ci cj : Color) : Prop :=
  match c1, c2, ci, cj with
  | RGB r1 g1 b1, RGB r2 g2 b2, RGB ri gi bi, RGB rj gj bj =>
      ((r1 <= r2 -> ri <= rj) /\ (r2 <= r1 -> rj <= ri))
      /\ ((g1 <= g2 -> gi <= gj) /\ (g2 <= g1 -> gj <= gi))
      /\ ((b1 <= b2 -> bi <= bj) /\ (b2 <= b1 -> bj <= bi))
  end.

(** One frame of [escapeTest]: pixel 1 and pixel 16, each with its red
    level and no green or blue. *)
Definition escapeFrame (reds : Z * Z) : string :=
  join "," [getPixel None None (Some (fst reds)) (Some 0) (Some 0) (Some 1);
            getPixel None None (Some (snd reds)) (Some 0) (Some 0) (Some 16)].

(** The frame of a pulse for a colour: the columns left and right of the
    keyboard. *)
Definition pulseFrame (c : Color) : string :=
  join "," [rgbPixel None (Some (JStr "-1%")) c None;
            rgbPixel None (Some (JStr "101%")) c None].

(** ** Vocabulary for the frames before they are sorted *)

(** The frame loop of [verticalPulseWithTracers] from iteration [i] on
    (l.1048-1104), each frame as the array of the commands pushed, before
    [sortPixelFrame] is called on it. *)
Fixpoint tracerPushed (botColors : list Entry) (i : nat)
    (ltSide rtSide : list (option Z)) (topColors : list Entry) : list (list string) :=
  match topColors with
  | [] => []
  | topColor :: rest =>
      match nth_error botColors i with
      | None => []
      | Some botColor =>
          app [idPixel topColor (Some 1); idPixel topColor (Some 87)]
              (Part000.tracerCommands botColor ltSide rtSide)
            :: tracerPushed botColors (S i) (shiftPush ltSide) (shiftPush rtSide) rest
      end
  end.

(** The frames of [verticalPulseWithTracers] as pushed, with the set-up of
    [Part000.verticalPulseFrames]. *)
Definition verticalPulsePushed (stepsPerColor : option Z) (args : list Color)
    : list (list string) :=
  let stepsPerColor := match stepsPerColor with
                       | None => 32
                       | Some n => n
                       end in
  let colorValues := Part000.withDefaultColors args in
  let colorCount := Z.of_nat (length colorValues) in
  let '(ltSide, rtSide, stepsPerInhale) :=
    Part000.tracerSetup stepsPerColor colorCount in
  let topColors :=
    Part000.multiColorBleed (inject_Z stepsPerInhale) (Some interpSine) colorValues in
  let shiftedColors := shiftPush colorValues in
  let botColors :=
    Part000.multiColorBleed (inject_Z stepsPerInhale) (Some interpSine) shiftedColors in
  tracerPushed botColors 0 ltSide rtSide topColors.

(** The command carries a pixel id of at most 2^53, up to where [parseInt]
    returns every integer exactly. *)
Definition hasExactId (cmd : string) : Prop :=
  exists id, pixelId cmd = Some id /\ id <= 9007199254740992.

(* ================================================================== *)
(** * Lemmas *)

(** ** Strings *)

Lemma append_assoc (a b c : string) : (a ++ b) ++ c = a ++ (b ++ c).
Proof. induction a as [|x a IH]; cbn; [reflexivity | now rewrite IH]. Qed.

(** ** Rounding and clamping *)

Lemma Math_round_integer (z : Z) : Math_round (NumQ (inject_Z z)) = z.
Proof.
  cbn [Math_round]. unfold Qfloor, Qplus, inject_Z. cbn [Qnum Qden].
  change (Z.pos (1 * 2)) with 2.
  replace (z * 2 + 1 * 1) with (1 + z * 2) by lia.
  rewrite Z.div_add by lia. reflexivity.
Qed.

Lemma Math_round_Qeq (p q : Q) : (p == q)%Q -> Math_round (NumQ p) = Math_round (NumQ q).
Proof. intros H. cbn [Math_round]. now rewrite H. Qed.

Lemma clampChannel_range (v : Z) : 0 <= clampChannel v <= 255.
Proof. unfold clampChannel. lia. Qed.

(** Rounding and clamping leave a colour of 8-bit channels as it is. *)
Lemma roundClamp_inRange (c : Color) : inRange c -> roundClamp c = c.
Proof.
  destruct c as [r g b]. intros (Hr & Hg & Hb). cbn [roundClamp].
  rewrite !Math_round_integer. unfold clampChannel. f_equal; lia.
Qed.

Lemma mapChannels_inRange (f : Z -> Z -> Z) (c1 c2 : Color) :
  (forall a b, 0 <= f a b <= 255) -> inRange (mapChannels f c1 c2).
Proof. intros H. destruct c1, c2. cbn. auto. Qed.

Lemma Qltb_true (n m : Q) : Qltb n m = true <-> (n < m)%Q.
Proof.
  unfold Qltb. rewrite negb_true_iff. split.
  - intros H. apply Qnot_le_lt. intros Hle. apply Qle_bool_iff in Hle. congruence.
  - intros H. destruct (Qle_bool m n) eqn:E; [|reflexivity].
    apply Qle_bool_iff in E. exfalso. eapply Qlt_not_le; eauto.
Qed.

Lemma Qltb_false (n m : Q) : Qltb n m = false <-> (m <= n)%Q.
Proof.
  unfold Qltb. rewrite negb_false_iff. apply Qle_bool_iff.
Qed.

Lemma Qltb_inject_Z (n : Z) : 2 <= n -> Qltb (inject_Z n) 2 = false.
Proof.
  intros H. apply Qltb_false. change 2%Q with (inject_Z 2). now rewrite <- Zle_Qle.
Qed.

(** ** The loop counter *)

Lemma loopUpTo_length (steps : Q) :
  length (loopUpTo steps) = Z.to_nat (Qfloor steps + 1).
Proof. unfold loopUpTo. now rewrite length_map, length_seq. Qed.

Lemma loopUpTo_inject_Z (n : Z) :
  loopUpTo (inject_Z n) = map Z.of_nat (seq 0 (Z.to_nat (n + 1))).
Proof. unfold loopUpTo. now rewrite Qfloor_Z. Qed.

Lemma loopUpTo_two : loopUpTo 2 = [0; 1; 2].
Proof. reflexivity. Qed.

Lemma nth_error_seq_map {A : Type} (f : nat -> A) (len k : nat) :
  (k < len)%nat -> nth_error (map f (seq 0 len)) k = Some (f k).
Proof.
  intros H. rewrite nth_error_map, nth_error_seq.
  destruct (Nat.ltb_spec k len); [reflexivity | lia].
Qed.

Lemma loopUpTo_nth (n : Z) (k : nat) :
  (Z.of_nat k <= n) ->
  nth_error (loopUpTo (inject_Z n)) k = Some (Z.of_nat k).
Proof.
  intros H. rewrite loopUpTo_inject_Z. apply nth_error_seq_map. lia.
Qed.
(** ** The colour bleed *)

Lemma colorBleedP_unfold (c1 c2 : Color) (steps : option Q) (step : option Z)
    (f : option Interp) :
  Part000.colorBleed c1 c2 steps step f =
  match steps with
  | None => BleedStep (elementAt (bleedColorsP c1 c2 2 (interpOrLinear f)) 1)
  | Some n =>
      if Qltb n 2
      then BleedStep (elementAt (bleedColorsP c1 c2 2 (interpOrLinear f)) 1)
      else match step with
           | Some k => BleedStep (elementAt (bleedColorsP c1 c2 n (interpOrLinear f)) k)
           | None => BleedAll (bleedColorsP c1 c2 n (interpOrLinear f))
           end
  end.
Proof.
  unfold Part000.colorBleed, bleedColorsP, clampChannel, interpOrLinear.
  destruct steps as [n|]; [destruct (Qltb n 2)|]; reflexivity.
Qed.

Lemma colorBleedK_unfold (c1 c2 : Color) (steps : option Q) (step : option Z) :
  Kiianigen.colorBleed c1 c2 steps step =
  match steps with
  | None => BleedStep (elementAt (bleedColorsK c1 c2 2) 1)
  | Some n =>
      if Qltb n 2
      then BleedStep (elementAt (bleedColorsK c1 c2 2) 1)
      else match step with
           | Some k => BleedStep (elementAt (bleedColorsK c1 c2 n) k)
           | None => BleedAll (bleedColorsK c1 c2 n)
           end
  end.
Proof.
  unfold Kiianigen.colorBleed, bleedColorsK, clampChannel.
  destruct steps as [n|]; [destruct (Qltb n 2)|]; reflexivity.
Qed.

Lemma bleedColorsP_length c1 c2 steps f :
  length (bleedColorsP c1 c2 steps f) = Z.to_nat (Qfloor steps + 1).
Proof. unfold bleedColorsP. now rewrite length_map, loopUpTo_length. Qed.

Lemma bleedColorsK_length c1 c2 steps :
  length (bleedColorsK c1 c2 steps) = Z.to_nat (Qfloor steps + 1).
Proof. unfold bleedColorsK. now rewrite length_map, loopUpTo_length. Qed.

Lemma bleedColorsP_inRange c1 c2 steps f :
  Forall inRange (bleedColorsP c1 c2 steps f).
Proof.
  unfold bleedColorsP. apply Forall_map, Forall_forall. intros s _.
  apply mapChannels_inRange. intros. apply clampChannel_range.
Qed.

Lemma bleedColorsK_inRange c1 c2 steps :
  Forall inRange (bleedColorsK c1 c2 steps).
Proof.
  unfold bleedColorsK. apply Forall_map, Forall_forall. intros s _.
  apply mapChannels_inRange. intros. apply clampChannel_range.
Qed.

Lemma elementAt_In {A : Type} (l : list A) (k : Z) (a : A) :
  elementAt l k = Some a -> In a l.
Proof.
  unfold elementAt. destruct (k <? 0); [discriminate|]. apply nth_error_In.
Qed.

Lemma elementAt_nat {A : Type} (l : list A) (k : nat) :
  elementAt l (Z.of_nat k) = nth_error l k.
Proof.
  unfold elementAt. destruct (Z.ltb_spec (Z.of_nat k) 0); [lia|].
  now rewrite Nat2Z.id.
Qed.

(** Linear interpolation at the two ends and in the middle. *)
Lemma linear_first (steps : Q) (v1 v2 : Z) :
  Math_round (interpLinear 0 steps v1 v2) = Math_round (NumQ (inject_Z v1)).
Proof.
  unfold interpLinear, linearInterpolate. apply Math_round_Qeq.
  change (inject_Z 0) with 0%Q. unfold Qdiv. ring.
Qed.

Lemma linear_last (n : Z) (v1 v2 : Z) :
  n <> 0 ->
  Math_round (interpLinear n (inject_Z n) v1 v2) = Math_round (NumQ (inject_Z v2)).
Proof.
  intros Hn. unfold interpLinear, linearInterpolate. apply Math_round_Qeq.
  assert (~ (inject_Z n == 0)%Q) by (unfold Qeq; cbn; lia).
  field. assumption.
Qed.

Lemma linear_middle (v1 v2 : Z) :
  Math_round (interpLinear 1 2%Q v1 v2)
  = Math_round (NumQ ((inject_Z v1 + inject_Z v2) / 2)).
Proof.
  unfold interpLinear, linearInterpolate. apply Math_round_Qeq.
  change (inject_Z 1) with 1%Q. field.
Qed.

Lemma diffSteps_first (steps : Q) (v1 v2 : Z) :
  Math_round (NumQ (inject_Z v1 + inject_Z 0 * (inject_Z (v2 - v1) / steps)))
  = Math_round (NumQ (inject_Z v1)).
Proof. apply Math_round_Qeq. change (inject_Z 0) with 0%Q. ring. Qed.

Lemma diffSteps_last (n : Z) (v1 v2 : Z) :
  n <> 0 ->
  Math_round (NumQ (inject_Z v1 + inject_Z n * (inject_Z (v2 - v1) / inject_Z n)))
  = Math_round (NumQ (inject_Z v2)).
Proof.
  intros Hn. apply Math_round_Qeq.
  assert (~ (inject_Z n == 0)%Q) by (unfold Qeq; cbn; lia).
  unfold Zminus. rewrite inject_Z_plus, inject_Z_opp. field. assumption.
Qed.

Lemma diffSteps_middle (v1 v2 : Z) :
  Math_round (NumQ (inject_Z v1 + inject_Z 1 * (inject_Z (v2 - v1) / 2)))
  = Math_round (NumQ ((inject_Z v1 + inject_Z v2) / 2)).
Proof.
  apply Math_round_Qeq. unfold Zminus. rewrite inject_Z_plus, inject_Z_opp.
  change (inject_Z 1) with 1%Q. field.
Qed.
Lemma bleedColorsP_first c1 c2 (n : Z) :
  0 <= n ->
  nth_error (bleedColorsP c1 c2 (inject_Z n) interpLinear) 0 = Some (roundClamp c1).
Proof.
  intros Hn. unfold bleedColorsP. rewrite nth_error_map, (loopUpTo_nth n 0) by lia.
  cbn [option_map Z.of_nat]. f_equal. destruct c1, c2. cbn [mapChannels roundClamp].
  now rewrite !linear_first.
Qed.

Lemma bleedColorsP_last c1 c2 (n : Z) :
  0 < n ->
  nth_error (bleedColorsP c1 c2 (inject_Z n) interpLinear) (Z.to_nat n)
  = Some (roundClamp c2).
Proof.
  intros Hn. unfold bleedColorsP.
  rewrite nth_error_map, (loopUpTo_nth n (Z.to_nat n)) by lia.
  cbn [option_map]. rewrite Z2Nat.id by lia. f_equal.
  destruct c1, c2. cbn [mapChannels roundClamp].
  now rewrite !linear_last by lia.
Qed.

Lemma bleedColorsK_first c1 c2 (n : Z) :
  0 <= n ->
  nth_error (bleedColorsK c1 c2 (inject_Z n)) 0 = Some (roundClamp c1).
Proof.
  intros Hn. unfold bleedColorsK. rewrite nth_error_map, (loopUpTo_nth n 0) by lia.
  cbn [option_map Z.of_nat]. f_equal. destruct c1, c2. cbn [mapChannels roundClamp].
  now rewrite !diffSteps_first.
Qed.

Lemma bleedColorsK_last c1 c2 (n : Z) :
  0 < n ->
  nth_error (bleedColorsK c1 c2 (inject_Z n)) (Z.to_nat n) = Some (roundClamp c2).
Proof.
  intros Hn. unfold bleedColorsK.
  rewrite nth_error_map, (loopUpTo_nth n (Z.to_nat n)) by lia.
  cbn [option_map]. rewrite Z2Nat.id by lia. f_equal.
  destruct c1, c2. cbn [mapChannels roundClamp].
  now rewrite !diffSteps_last by lia.
Qed.

Lemma bleedColorsP_middle c1 c2 :
  elementAt (bleedColorsP c1 c2 2 interpLinear) 1 = Some (midpoint c1 c2).
Proof.
  unfold bleedColorsP. rewrite loopUpTo_two. cbn [map elementAt Z.ltb Z.compare Z.to_nat
    Pos.to_nat Pos.iter_op Nat.add nth_error].
  f_equal. destruct c1, c2. cbn [mapChannels midpoint]. now rewrite !linear_middle.
Qed.

Lemma bleedColorsK_middle c1 c2 :
  elementAt (bleedColorsK c1 c2 2) 1 = Some (midpoint c1 c2).
Proof.
  unfold bleedColorsK. rewrite loopUpTo_two. cbn [map elementAt Z.ltb Z.compare Z.to_nat
    Pos.to_nat Pos.iter_op Nat.add nth_error].
  f_equal. destruct c1, c2. cbn [mapChannels midpoint]. now rewrite !diffSteps_middle.
Qed.

(** With [step] left unset [colorBleed] never returns [undefined]: the case
    [BleedStep None] of [bleedEntries] is not reached from
    [multiColorBleed] and [kitt2000]. *)
Lemma colorBleed_unset_step c1 c2 (steps : Q) (f : option Interp) :
  Part000.colorBleed c1 c2 (Some steps) None f <> BleedStep None
  /\ Kiianigen.colorBleed c1 c2 (Some steps) None <> BleedStep None.
Proof.
  rewrite colorBleedP_unfold, colorBleedK_unfold.
  destruct (Qltb steps 2); [|split; discriminate].
  unfold bleedColorsP, bleedColorsK. rewrite loopUpTo_two. split; discriminate.
Qed.
(** ** The multi-colour bleed *)

Lemma bleedSegmentsP_generic n f first i l :
  Part000.bleedSegments n f first i l
  = segmentsOf (fun a b => bleedEntries (Part000.colorBleed a b (Some n) None f)) first i l.
Proof.
  revert i. induction l as [|c rest IH]; intros i; [reflexivity|].
  cbn [Part000.bleedSegments segmentsOf]. now rewrite IH.
Qed.

Lemma bleedSegmentsK_generic n first i l :
  Kiianigen.bleedSegments n first i l
  = segmentsOf (fun a b => bleedEntries (Kiianigen.colorBleed a b (Some n) None)) first i l.
Proof.
  revert i. induction l as [|c rest IH]; intros i; [reflexivity|].
  cbn [Kiianigen.bleedSegments segmentsOf]. now rewrite IH.
Qed.

Lemma fadeP_length n f a b :
  length (bleedEntries (Part000.colorBleed a b (Some n) None f)) = S (framesPerColor n).
Proof.
  rewrite colorBleedP_unfold. unfold framesPerColor.
  destruct (Qltb n 2) eqn:E.
  - unfold bleedColorsP. rewrite loopUpTo_two. cbn [map elementAt Z.ltb Z.compare Z.to_nat
      Pos.to_nat Pos.iter_op Nat.add nth_error].
    destruct a, b. reflexivity.
  - cbn [bleedEntries]. rewrite length_map, bleedColorsP_length.
    apply Qltb_false in E. assert (2 <= Qfloor n).
    { change 2 with (Qfloor 2). now apply Qfloor_resp_le. }
    lia.
Qed.

Lemma fadeK_length n a b :
  length (bleedEntries (Kiianigen.colorBleed a b (Some n) None)) = S (framesPerColor n).
Proof.
  rewrite colorBleedK_unfold. unfold framesPerColor.
  destruct (Qltb n 2) eqn:E.
  - unfold bleedColorsK. rewrite loopUpTo_two. cbn [map elementAt Z.ltb Z.compare Z.to_nat
      Pos.to_nat Pos.iter_op Nat.add nth_error].
    destruct a, b. reflexivity.
  - cbn [bleedEntries]. rewrite length_map, bleedColorsK_length.
    apply Qltb_false in E. assert (2 <= Qfloor n).
    { change 2 with (Qfloor 2). now apply Qfloor_resp_le. }
    lia.
Qed.

Lemma length_tl {A : Type} (l : list A) : length (tl l) = pred (length l).
Proof. now destruct l. Qed.

Lemma length_removelast {A : Type} (l : list A) :
  length (removelast l) = pred (length l).
Proof.
  induction l as [|a [|b l] IH]; try reflexivity.
  change (removelast (a :: b :: l)) with (a :: removelast (b :: l)).
  cbn [length] in *. now rewrite IH.
Qed.

Lemma segmentsOf_length fade first (k : nat) l :
  (forall a b, length (fade a b) = S k) ->
  forall i, length (segmentsOf fade first (S i) l) = (length l * k)%nat.
Proof.
  intros Hf. induction l as [|c rest IH]; intros i; [reflexivity|].
  cbn [segmentsOf length]. rewrite length_app, IH.
  change (0 <? S i)%nat with true. cbv iota. rewrite length_tl, Hf. cbn. lia.
Qed.

Lemma segmentsOf_length_from_zero fade c (k : nat) l :
  (forall a b, length (fade a b) = S k) ->
  length (segmentsOf fade c 0 (c :: l)) = S (length (c :: l) * k).
Proof.
  intros Hf. cbn [segmentsOf length]. change (0 <? 0)%nat with false. cbv iota.
  rewrite length_app, (segmentsOf_length _ _ k), Hf by assumption.
  cbn. lia.
Qed.

(** The number of elements of a multi-colour bleed. *)
Lemma multiColorBleedP_length n f l :
  length (Part000.multiColorBleed n f l) = (length l * framesPerColor n)%nat.
Proof.
  unfold Part000.multiColorBleed. destruct l as [|c l]; [reflexivity|].
  rewrite length_removelast, bleedSegmentsP_generic.
  rewrite (segmentsOf_length_from_zero _ _ (framesPerColor n)); [reflexivity|].
  intros. apply fadeP_length.
Qed.

Lemma multiColorBleedK_length n l :
  length (Kiianigen.multiColorBleed n l) = (length l * framesPerColor n)%nat.
Proof.
  unfold Kiianigen.multiColorBleed. destruct l as [|c l]; [reflexivity|].
  rewrite length_removelast, bleedSegmentsK_generic.
  rewrite (segmentsOf_length_from_zero _ _ (framesPerColor n)); [reflexivity|].
  intros. apply fadeK_length.
Qed.

Lemma framesPerColor_pos n : (0 < framesPerColor n)%nat.
Proof.
  unfold framesPerColor. destruct (Qltb n 2) eqn:E; [lia|].
  apply Qltb_false in E. assert (2 <= Qfloor n).
  { change 2 with (Qfloor 2). now apply Qfloor_resp_le. }
  lia.
Qed.

Lemma framesPerColor_integer (n : Z) :
  2 <= n -> framesPerColor (inject_Z n) = Z.to_nat n.
Proof.
  intros H. unfold framesPerColor. now rewrite Qltb_inject_Z, Qfloor_Z.
Qed.

(** Every element stays in range. *)
Lemma Forall_tl {A : Type} (P : A -> Prop) (l : list A) : Forall P l -> Forall P (tl l).
Proof. intros H. destruct l; [constructor | now inversion H]. Qed.

Lemma Forall_removelast {A : Type} (P : A -> Prop) (l : list A) :
  Forall P l -> Forall P (removelast l).
Proof.
  induction l as [|a [|b l] IH]; intros H; try constructor.
  - now inversion H.
  - apply IH. now inversion H.
Qed.

Lemma segmentsOf_Forall (P : Entry -> Prop) fade first l :
  (forall a b, Forall P (fade a b)) ->
  forall i, Forall P (segmentsOf fade first i l).
Proof.
  intros Hf. induction l as [|c rest IH]; intros i; [constructor|].
  cbn [segmentsOf]. apply Forall_app. split; [|apply IH].
  destruct (0 <? i)%nat; [apply Forall_tl|]; apply Hf.
Qed.

Lemma bleedEntries_inRange (r : BleedResult) :
  match r with
  | BleedAll cs => Forall inRange cs
  | BleedStep (Some c) => inRange c
  | BleedStep None => True
  end ->
  Forall entryInRange (bleedEntries r).
Proof.
  destruct r as [[[r g b]|]|cs]; cbn [bleedEntries]; intros H.
  - destruct H as (Hr & Hg & Hb). repeat constructor; cbn; lia.
  - constructor.
  - apply Forall_map. eapply Forall_impl; [|exact H]. auto.
Qed.

Lemma colorBleedP_inRange c1 c2 steps step f :
  match Part000.colorBleed c1 c2 steps step f with
  | BleedAll cs => Forall inRange cs
  | BleedStep (Some c) => inRange c
  | BleedStep None => True
  end.
Proof.
  rewrite colorBleedP_unfold.
  assert (Hel : forall n k,
             match elementAt (bleedColorsP c1 c2 n (interpOrLinear f)) k with
             | Some c => inRange c
             | None => True
             end).
  { intros n k. destruct (elementAt _ k) eqn:E; [|exact I].
    apply elementAt_In in E.
    exact (proj1 (Forall_forall _ _) (bleedColorsP_inRange _ _ _ _) _ E). }
  destruct steps as [n|]; [destruct (Qltb n 2); [|destruct step]|];
    try apply Hel. apply bleedColorsP_inRange.
Qed.

Lemma colorBleedK_inRange c1 c2 steps step :
  match Kiianigen.colorBleed c1 c2 steps step with
  | BleedAll cs => Forall inRange cs
  | BleedStep (Some c) => inRange c
  | BleedStep None => True
  end.
Proof.
  rewrite colorBleedK_unfold.
  assert (Hel : forall n k,
             match elementAt (bleedColorsK c1 c2 n) k with
             | Some c => inRange c
             | None => True
             end).
  { intros n k. destruct (elementAt _ k) eqn:E; [|exact I].
    apply elementAt_In in E.
    exact (proj1 (Forall_forall _ _) (bleedColorsK_inRange _ _ _) _ E). }
  destruct steps as [n|]; [destruct (Qltb n 2); [|destruct step]|];
    try apply Hel. apply bleedColorsK_inRange.
Qed.

Lemma multiColorBleedP_inRange n f l :
  Forall entryInRange (Part000.multiColorBleed n f l).
Proof.
  unfold Part000.multiColorBleed. apply Forall_removelast.
  destruct l as [|c l]; [constructor|].
  rewrite bleedSegmentsP_generic. apply segmentsOf_Forall.
  intros. apply bleedEntries_inRange, colorBleedP_inRange.
Qed.

Lemma multiColorBleedK_inRange n l :
  Forall entryInRange (Kiianigen.multiColorBleed n l).
Proof.
  unfold Kiianigen.multiColorBleed. apply Forall_removelast.
  destruct l as [|c l]; [constructor|].
  rewrite bleedSegmentsK_generic. apply segmentsOf_Forall.
  intros. apply bleedEntries_inRange, colorBleedK_inRange.
Qed.
(** ** Generators as computations *)

Lemma returns_ret {A : Type} (a : A) (P : A -> Prop) : P a -> returns (ret a) P.
Proof. intros H n. exists a, n. now split. Qed.

Lemma returns_bind {A B : Type} (m : Gen A) (k : A -> Gen B) (P : A -> Prop)
    (Q : B -> Prop) :
  returns m P -> (forall a, P a -> returns (k a) Q) -> returns (bind m k) Q.
Proof.
  intros Hm Hk n. destruct (Hm n) as (a & n1 & E & Ha).
  destruct (Hk a Ha n1) as (b & n2 & E2 & Hb).
  exists b, n2. unfold bind. rewrite E. now split.
Qed.

Lemma returns_weaken {A : Type} (m : Gen A) (P Q : A -> Prop) :
  returns m P -> (forall a, P a -> Q a) -> returns m Q.
Proof.
  intros Hm HPQ n. destruct (Hm n) as (a & n1 & E & Ha). exists a, n1. auto.
Qed.

Lemma returns_lift {A : Type} (o : option A) (P : A -> Prop) :
  (exists a, o = Some a /\ P a) -> returns (lift o) P.
Proof. intros (a & -> & Ha) n. exists a, n. now split. Qed.

Lemma returns_random (env : Env) (P : Q -> Prop) :
  (forall k, P (random env k)) -> returns (Math_random env) P.
Proof. intros H n. exists (random env n), (S n). split; [reflexivity | apply H]. Qed.

Lemma returns_forEach {A B : Type} (l : list A) (body : A -> Gen B)
    (P : A -> B -> Prop) :
  (forall a, In a l -> returns (body a) (P a)) ->
  returns (forEach l body) (Forall2 P l).
Proof.
  induction l as [|a l IH]; intros H.
  - apply returns_ret. constructor.
  - cbn [forEach]. eapply returns_bind; [apply H; now left|].
    intros b Hb. eapply returns_bind; [apply IH; intros; apply H; now right|].
    intros bs Hbs. apply returns_ret. now constructor.
Qed.

Lemma Forall2_length_eq {A B : Type} (P : A -> B -> Prop) l l' :
  Forall2 P l l' -> length l' = length l.
Proof. induction 1; cbn; congruence. Qed.

Lemma forEachOpt_defined {A B : Type} (l : list A) (body : A -> option B)
    (P : A -> B -> Prop) :
  (forall a, In a l -> exists b, body a = Some b /\ P a b) ->
  exists bs, forEachOpt l body = Some bs /\ Forall2 P l bs.
Proof.
  induction l as [|a l IH]; intros H.
  - exists []. split; [reflexivity | constructor].
  - destruct (H a (or_introl eq_refl)) as (b & Eb & Hb).
    destruct IH as (bs & Ebs & Hbs); [intros; apply H; now right|].
    exists (b :: bs). cbn. rewrite Eb, Ebs. split; [reflexivity | now constructor].
Qed.

Lemma range_length (lo hi : Z) : length (range lo hi) = Z.to_nat (hi - lo + 1).
Proof. unfold range. now rewrite length_map, length_seq. Qed.

(** ** White noise *)

Lemma Qfloor_scaled_range (u : Q) (cap : Z) :
  (0 <= u)%Q -> (u < 1)%Q -> 0 < cap -> 0 <= Qfloor (u * inject_Z cap) < cap.
Proof.
  intros H0 H1 Hc.
  assert (Hcq : (0 < inject_Z cap)%Q) by (change 0%Q with (inject_Z 0); now rewrite <- Zlt_Qlt).
  split.
  - change 0 with (Qfloor 0). apply Qfloor_resp_le.
    apply Qmult_le_0_compat; [assumption | now apply Qlt_le_weak].
  - rewrite Zlt_Qlt. eapply Qle_lt_trans; [apply Qfloor_le|].
    setoid_replace (inject_Z cap) with (1 * inject_Z cap)%Q at 2 by ring.
    now apply Qmult_lt_compat_r.
Qed.

Lemma noise_levels (ps : list Z) (pxs : list string) :
  Forall2 (fun p px => exists v, 0 <= v < 153
                                 /\ px = getPixel None None (Some v) (Some v) (Some v) (Some p))
          ps pxs ->
  exists levels,
    length levels = length ps
    /\ Forall (fun v => 0 <= v < 153) levels
    /\ pxs = map (fun '(p, v) => getPixel None None (Some v) (Some v) (Some v) (Some p))
                 (combine ps levels).
Proof.
  induction 1 as [|p px ps pxs (v & Hv & ->) _ (levels & Hl & Hr & ->)].
  - exists []. repeat split. constructor.
  - exists (v :: levels). cbn. repeat split; [congruence | now constructor].
Qed.

Lemma whiteNoise_returns (env : Env) (maxFrames : Z) :
  (forall k, (0 <= random env k)%Q /\ (random env k < 1)%Q) ->
  maxFrames <> 0 ->
  returns (Part000.whiteNoise env (Some maxFrames))
    (fun a =>
       settings a = "framedelay:1, loop, replace:all"
       /\ type a = "animation"
       /\ exists levels,
           frames a = map noiseFrame levels
           /\ length levels = Z.to_nat maxFrames
           /\ Forall (fun frame => length frame = 119%nat
                                   /\ Forall (fun v => 0 <= v < 153) frame) levels).
Proof.
  intros Hr Hm. unfold Part000.whiteNoise.
  destruct (Z.eqb_spec maxFrames 0) as [|_]; [contradiction|].
  eapply returns_bind.
  - apply (returns_forEach _ _
             (fun _ frame => exists lv, frame = noiseFrame lv /\ length lv = 119%nat
                                        /\ Forall (fun v => 0 <= v < 153) lv)).
    intros f _. eapply returns_bind.
    + apply (returns_forEach _ _
               (fun p px => exists v, 0 <= v < 153
                   /\ px = getPixel None None (Some v) (Some v) (Some v) (Some p))).
      intros p _. eapply returns_bind.
      * apply (returns_random env (fun u => (0 <= u)%Q /\ (u < 1)%Q)). apply Hr.
      * intros u [Hu0 Hu1]. apply returns_ret.
        exists (Qfloor (u * inject_Z 153)). split; [|reflexivity].
        now apply Qfloor_scaled_range.
    + intros pxs Hpxs. apply returns_ret.
      destruct (noise_levels _ _ Hpxs) as (lv & Hl & Hv & ->).
      exists lv. repeat split; assumption.
  - intros fs Hfs. apply returns_ret. cbn [settings type frames]. repeat split.
    assert (Hlen : length fs = Z.to_nat maxFrames).
    { rewrite (Forall2_length_eq _ _ _ Hfs), range_length. f_equal. lia. }
    clear -Hfs Hlen. rewrite <- Hlen. clear Hlen.
    induction Hfs as [|f fr fs' frs (lv & -> & Hl & Hv) _ (levels & E & El & Ev)].
    + exists []. repeat split. constructor.
    + exists (lv :: levels). cbn. repeat split; [congruence | congruence |].
      constructor; [now split | assumption].
Qed.
(** ** Well-formed animations *)

Lemma nonempty_of_length {A : Type} (l : list A) : (0 < length l)%nat -> l <> [].
Proof. destruct l; cbn; [lia | discriminate]. Qed.

Lemma multiColorBleedP_nonempty n f l :
  l <> [] -> (0 < length (Part000.multiColorBleed n f l))%nat.
Proof.
  intros H. rewrite multiColorBleedP_length. pose proof (framesPerColor_pos n).
  destruct l; [contradiction | cbn; lia].
Qed.

Lemma multiColorBleedK_nonempty n l :
  l <> [] -> (0 < length (Kiianigen.multiColorBleed n l))%nat.
Proof.
  intros H. rewrite multiColorBleedK_length. pose proof (framesPerColor_pos n).
  destruct l; [contradiction | cbn; lia].
Qed.

Lemma colorPulseGeneratorP_wellFormed n l :
  l <> [] -> wellFormed (Part000.colorPulseGenerator n l).
Proof.
  intros H. split; [solve_tagged|]. cbn [frames Part000.colorPulseGenerator].
  apply nonempty_of_length. rewrite length_map. now apply multiColorBleedP_nonempty.
Qed.

Lemma colorPulseGeneratorK_wellFormed n l :
  l <> [] -> wellFormed (Kiianigen.colorPulseGenerator n l).
Proof.
  intros H. split; [solve_tagged|]. cbn [frames Kiianigen.colorPulseGenerator].
  apply nonempty_of_length. rewrite length_map. now apply multiColorBleedK_nonempty.
Qed.

Lemma colorBreatheGenerator_wellFormed bpm l :
  l <> [] -> wellFormed (Part000.colorBreatheGenerator bpm l).
Proof.
  intros H. split; [solve_tagged|]. cbn [frames Part000.colorBreatheGenerator].
  apply nonempty_of_length. rewrite length_map. now apply multiColorBleedP_nonempty.
Qed.

Lemma dodgyPixelP_returns env hiColor bgColor :
  returns (Part000.dodgyPixel env hiColor bgColor)
          (fun a => tagged a /\ length (frames a) = 101%nat).
Proof.
  unfold Part000.dodgyPixel. eapply returns_bind.
  - apply (returns_forEach _ _ (fun _ pair => length pair = 2%nat)).
    intros _ _. eapply returns_bind; [apply (returns_random env (fun _ => True)); auto|].
    intros u1 _. eapply returns_bind; [apply (returns_random env (fun _ => True)); auto|].
    intros u2 _. now apply returns_ret.
  - intros blinks Hb. apply returns_ret. split; [solve_tagged|].
    cbn [frames]. rewrite length_app. cbn [length].
    enough (length (concat blinks) = (length (seq 0 50) * 2)%nat) as -> by reflexivity.
    induction Hb as [|x pair xs pairs Hp _ IH]; [reflexivity|].
    cbn [concat length]. rewrite length_app, IH, Hp. lia.
Qed.

Lemma dodgyPixelK_returns env :
  returns (Kiianigen.dodgyPixel env)
          (fun a => tagged a /\ length (frames a) = 101%nat).
Proof.
  unfold Kiianigen.dodgyPixel. eapply returns_bind.
  - apply (returns_forEach _ _ (fun _ pair => length pair = 2%nat)).
    intros _ _. eapply returns_bind; [apply (returns_random env (fun _ => True)); auto|].
    intros u1 _. eapply returns_bind; [apply (returns_random env (fun _ => True)); auto|].
    intros u2 _. now apply returns_ret.
  - intros blinks Hb. apply returns_ret. split; [solve_tagged|].
    cbn [frames]. rewrite length_app. cbn [length].
    enough (length (concat blinks) = (length (seq 0 50) * 2)%nat) as -> by reflexivity.
    induction Hb as [|x pair xs pairs Hp _ IH]; [reflexivity|].
    cbn [concat length]. rewrite length_app, IH, Hp. lia.
Qed.

Lemma whiteNoise_shape env maxFrames :
  returns (Part000.whiteNoise env maxFrames)
          (fun a => tagged a /\ length (frames a) = noiseFrameCount maxFrames).
Proof.
  unfold Part000.whiteNoise. eapply returns_bind.
  - apply (returns_forEach _ _ (fun _ _ => True)).
    intros f _. eapply returns_bind.
    + apply (returns_forEach _ _ (fun _ _ => True)).
      intros p _. eapply returns_bind; [apply (returns_random env (fun _ => True)); auto|].
      intros u _. now apply returns_ret.
    + intros. now apply returns_ret.
  - intros fs Hfs. apply returns_ret. split; [solve_tagged|].
    cbn [frames]. rewrite (Forall2_length_eq _ _ _ Hfs), range_length.
    unfold noiseFrameCount. destruct maxFrames as [m|]; [|reflexivity].
    destruct (m =? 0); [reflexivity | f_equal; lia].
Qed.

Lemma whiteNoise_same : Kiianigen.whiteNoise = Part000.whiteNoise.
Proof. reflexivity. Qed.

Lemma escapeTest_returns env :
  returns (Part000.escapeTest env)
          (fun a => tagged a /\ length (frames a) = 10%nat).
Proof.
  unfold Part000.escapeTest. eapply returns_bind.
  - apply (returns_forEach _ _ (fun _ _ => True)).
    intros i _.
    assert (Hp : forall id,
               returns (u1 <- Math_random env ;; u2 <- Math_random env ;;
                        u3 <- Math_random env ;;
                        ret (getPixel None None (Some (Qfloor (u1 * 255)))
                                      (Some (Qfloor (u2 * 0))) (Some (Qfloor (u3 * 0)))
                                      (Some id)))
                       (fun _ => True)).
    { intros id.
      eapply returns_bind; [apply (returns_random env (fun _ => True)); auto|].
      intros u1 _. eapply returns_bind; [apply (returns_random env (fun _ => True)); auto|].
      intros u2 _. eapply returns_bind; [apply (returns_random env (fun _ => True)); auto|].
      intros u3 _. now apply returns_ret. }
    eapply returns_bind; [apply Hp|]. intros p1 _.
    eapply returns_bind; [apply Hp|]. intros p16 _. now apply returns_ret.
  - intros fs Hfs. apply returns_ret. split; [solve_tagged|].
    cbn [frames]. now rewrite (Forall2_length_eq _ _ _ Hfs).
Qed.

Lemma escapeTest_same : Kiianigen.escapeTest = Part000.escapeTest.
Proof. reflexivity. Qed.

Lemma bluewipe_wellFormed : wellFormed Part000.bluewipe /\ wellFormed Kiianigen.bluewipe.
Proof.
  split; (split; [solve_tagged | apply nonempty_of_length; vm_compute; lia]).
Qed.

Lemma topAndBottom_wellFormed env :
  wellFormed (Part000.topAndBottom env) /\ wellFormed (Kiianigen.topAndBottom env).
Proof. split; (split; [solve_tagged | discriminate]). Qed.

Lemma topAndBottom2_wellFormed : wellFormed Part000.topAndBottom2.
Proof.
  split; [solve_tagged|]. unfold Part000.topAndBottom2. cbn [frames].
  change (length (range 88 119)) with 32%nat. discriminate.
Qed.

Lemma kitt2000K_wellFormed : exists a, Kiianigen.kitt2000 = Some a /\ wellFormed a.
Proof.
  eexists. split; [vm_compute; reflexivity|].
  split; [solve_tagged | discriminate].
Qed.
Lemma nth_error_defined {A : Type} (l : list A) (i : nat) :
  (i < length l)%nat -> exists x, nth_error l i = Some x.
Proof.
  intros H. destruct (nth_error l i) eqn:E; [eauto|].
  apply nth_error_None in E. lia.
Qed.

Lemma indexed_In {A : Type} (l : list A) (i : nat) (x : A) :
  In (i, x) (indexed l) -> nth_error l i = Some x.
Proof.
  unfold indexed. intros H.
  assert (G : forall k, In (i, x) (combine (seq k (length l)) l) ->
                        (k <= i)%nat /\ nth_error l (i - k) = Some x).
  { clear H. induction l as [|a l IH]; intros k H; [contradiction|].
    cbn [length seq combine] in H. destruct H as [H|H].
    - inversion H; subst. rewrite Nat.sub_diag. now split.
    - destruct (IH _ H) as [Hk Hn]. split; [lia|].
      replace (i - k)%nat with (S (i - S k)) by lia. exact Hn. }
  destruct (G 0%nat H) as [_ Hn]. now rewrite Nat.sub_0_r in Hn.
Qed.

Lemma indexed_length {A : Type} (l : list A) : length (indexed l) = length l.
Proof. unfold indexed. rewrite length_combine, length_seq. lia. Qed.

Lemma shiftPush_length {A : Type} (l : list A) : length (shiftPush l) = length l.
Proof. destruct l; cbn; [reflexivity | rewrite length_app; cbn; lia]. Qed.

(** *** [kitt2000] *)

Lemma createKitt2000Frame_defined bgColor columns bleedColors reversedBleedColors i :
  bleedColors <> [] -> reversedBleedColors <> [] ->
  exists frame,
    Part000.createKitt2000Frame bgColor columns bleedColors reversedBleedColors i = Some frame.
Proof.
  intros Hb Hr. unfold Part000.createKitt2000Frame.
  destruct bleedColors as [|head bs]; [contradiction|].
  destruct reversedBleedColors as [|e0 rs]; [contradiction|].
  cbn [nth_error option_map].
  destruct (elementAt (e0 :: rs) _); [|destruct (_ <? 0)];
    (destruct (elementAt (e0 :: rs) _); [|destruct (_ <? _)]); eauto.
Qed.

Lemma kitt2000P_wellFormed hiColor bgColor width :
  exists a, Part000.kitt2000 hiColor bgColor width = Some a /\ wellFormed a.
Proof.
  unfold Part000.kitt2000.
  set (bleedColors := tl (bleedEntries (Part000.colorBleed _ _ _ None None))).
  assert (Hb : bleedColors <> []).
  { apply nonempty_of_length. unfold bleedColors. rewrite length_tl, fadeP_length.
    apply framesPerColor_pos. }
  assert (Hr : rev bleedColors <> []).
  { apply nonempty_of_length. rewrite length_rev.
    destruct bleedColors; [contradiction | cbn; lia]. }
  set (columns := map _ (seq 0 _)).
  set (frameText := fun i : Z => option_map (join ",") _).
  assert (Hf : forall l, exists fs, forEachOpt l frameText = Some fs
                                     /\ length fs = length l).
  { intros l.
    destruct (forEachOpt_defined l frameText (fun _ _ => True)) as (fs & E & H2).
    - intros i _. unfold frameText.
      destruct (createKitt2000Frame_defined (orDefault bgColor (RGB 0 0 0)) columns
                  bleedColors (rev bleedColors) i Hb Hr) as (fr & ->).
      cbn. eauto.
    - exists fs. split; [assumption | now apply Forall2_length_eq in H2]. }
  destruct (Hf (range 0 (Z.of_nat (length columns) - 1))) as (fw & -> & Hfw).
  destruct (Hf (rangeDown (Z.of_nat (length columns) - 2) 1)) as (bw & -> & _).
  eexists. split; [reflexivity|]. split; [solve_tagged|].
  cbn [frames]. apply nonempty_of_length. rewrite length_app, Hfw, range_length.
  unfold columns. rewrite length_map, length_seq. vm_compute. lia.
Qed.

(** *** The breath generators *)

Lemma baseTopBreath_wellFormed color1 color2 :
  exists a, Part000.baseTopBreath color1 color2 = Some a /\ wellFormed a.
Proof.
  unfold Part000.baseTopBreath.
  set (steps := ((inject_Z _ * 100 / inject_Z 3) / 2)%Q).
  set (c1 := orDefault color1 _). set (c2 := orDefault color2 _).
  set (top := Part000.multiColorBleed steps _ [c1; c2]).
  set (bot := Part000.multiColorBleed steps _ [c2; c1]).
  assert (Hl : length bot = length top).
  { unfold bot, top. now rewrite !multiColorBleedP_length. }
  match goal with
  | |- context [forEachOpt ?l ?body] =>
      destruct (forEachOpt_defined l body (fun _ _ => True)) as (fs & E & H2)
  end.
  - intros [i topColor] Hi. apply indexed_In in Hi.
    destruct (nth_error_defined bot i) as (botColor & ->).
    + rewrite Hl. apply nth_error_Some. congruence.
    + cbn. eauto.
  - rewrite E. eexists. split; [reflexivity|]. split; [solve_tagged|].
    cbn [frames]. apply nonempty_of_length.
    rewrite (Forall2_length_eq _ _ _ H2), indexed_length.
    apply multiColorBleedP_nonempty. discriminate.
Qed.

Lemma spinFrames_defined botColors topColors :
  forall i baseIds,
    (i + length topColors <= length botColors)%nat ->
    exists fs, Part000.spinFrames botColors i baseIds topColors = Some fs
               /\ length fs = length topColors.
Proof.
  induction topColors as [|topColor rest IH]; intros i baseIds H.
  - exists []. now split.
  - cbn [Part000.spinFrames]. cbn [length] in H.
    destruct (nth_error_defined botColors i) as (botColor & ->); [lia|].
    destruct (IH (S i) (popUnshift baseIds)) as (fs & -> & Hl); [lia|].
    cbn [option_map]. eexists. split; [reflexivity|]. cbn. now rewrite Hl.
Qed.

Lemma blueGreenBaseTopBreathSpin_wellFormed :
  exists a, Part000.blueGreenBaseTopBreathSpin = Some a /\ wellFormed a.
Proof.
  unfold Part000.blueGreenBaseTopBreathSpin.
  set (steps := ((_ * 100 / inject_Z 10) / 2)%Q).
  set (top := Part000.multiColorBleed steps _ [RGB 0 255 0; RGB 0 0 255]).
  set (bot := Part000.multiColorBleed steps _ [RGB 0 0 255; RGB 0 255 0]).
  destruct (spinFrames_defined bot top 0 (range 88 119)) as (fs & -> & Hl).
  { unfold bot, top. rewrite !multiColorBleedP_length. cbn. lia. }
  eexists. split; [reflexivity|]. split; [solve_tagged|].
  cbn [frames]. apply nonempty_of_length. rewrite Hl.
  apply multiColorBleedP_nonempty. discriminate.
Qed.

(** *** [keyGroupCycler] *)

Lemma withDefaultColors_nonempty l : Part000.withDefaultColors l <> [].
Proof. destruct l as [|a [|b l]]; discriminate. Qed.

Lemma keyGroupBleeds_lengths n groups :
  forall cur,
    Forall (fun kg => length (snd kg) = (length cur * framesPerColor n)%nat)
           (Part000.keyGroupBleeds n cur groups).
Proof.
  induction groups as [|[name keys] rest IH]; intros cur; [constructor|].
  cbn [Part000.keyGroupBleeds]. constructor.
  - cbn [snd]. apply multiColorBleedP_length.
  - specialize (IH (Part000.getShiftedArray cur)).
    unfold Part000.getShiftedArray in IH at 1. now rewrite shiftPush_length in IH.
Qed.

Lemma Forall_last {A : Type} (P : A -> Prop) (l : list A) (d : A) :
  l <> [] -> Forall P l -> P (last l d).
Proof.
  induction l as [|a [|b l] IH]; intros Hn H; [contradiction| |].
  - now inversion H.
  - apply IH; [discriminate | now inversion H].
Qed.

Lemma keyGroupCycler_wellFormed env stepsPerColor args :
  exists a, Part000.keyGroupCycler env stepsPerColor args = Some a /\ wellFormed a.
Proof.
  unfold Part000.keyGroupCycler.
  set (n := inject_Z _). set (colorValues := Part000.withDefaultColors args).
  set (kgf := Part000.keyGroupBleeds n colorValues Part000.KEY_GROUPS).
  pose proof (keyGroupBleeds_lengths n Part000.KEY_GROUPS colorValues) as Hall.
  fold kgf in Hall.
  set (L := (length colorValues * framesPerColor n)%nat) in *.
  assert (HL : length (snd (last kgf ([], []))) = L).
  { apply (Forall_last _ kgf ([], [])) in Hall; [assumption|]. discriminate. }
  rewrite HL.
  match goal with
  | |- context [forEachOpt (seq 0 L) ?body] =>
      destruct (forEachOpt_defined (seq 0 L) body (fun _ _ => True)) as (fs & E & H2)
  end.
  - intros i Hi. apply in_seq in Hi.
    match goal with
    | |- context [forEachOpt kgf ?body] =>
        destruct (forEachOpt_defined kgf body (fun _ _ => True)) as (parts & Ep & _)
    end.
    + intros [keys groupFrames] Hin.
      pose proof (proj1 (Forall_forall _ _) Hall _ Hin) as Hlen. cbn [snd] in Hlen.
      destruct (nth_error_defined groupFrames i) as (color & ->); [lia|].
      destruct (Part000.groupPixelNumbers env keys); eauto.
    + rewrite Ep. cbn. eauto.
  - rewrite E. eexists. split; [reflexivity|]. split; [solve_tagged|].
    cbn [frames]. apply nonempty_of_length.
    rewrite (Forall2_length_eq _ _ _ H2), length_seq. unfold L.
    pose proof (framesPerColor_pos n). pose proof (withDefaultColors_nonempty args).
    fold colorValues in H0. destruct colorValues; [contradiction | cbn; lia].
Qed.
(** ** Reading the pixel id back from a command *)

Lemma string_of_Z_nonneg (z : Z) :
  0 <= z ->
  exists d, d <> Decimal.Nil
            /\ string_of_Z z = NilEmpty.string_of_uint d
            /\ Z.of_uint d = z.
Proof.
  intros H. destruct z as [|p|p]; [| |lia].
  - exists (Decimal.D0 Decimal.Nil). repeat split. discriminate.
  - exists (Pos.to_uint p).
    pose proof (DecimalPos.Unsigned.to_uint_nonnil p) as Hn.
    repeat split; [assumption | |].
    + unfold string_of_Z. cbn [Z.to_int NilZero.string_of_int]. unfold NilZero.string_of_uint.
      destruct (Pos.to_uint p); [contradiction | reflexivity ..].
    + exact (DecimalZ.of_to (Z.pos p)).
Qed.

Lemma spanDigits_uint (d : Decimal.uint) (tail : string) :
  spanDigits (NilEmpty.string_of_uint d ++ String "]" tail)
  = (NilEmpty.string_of_uint d, String "]" tail).
Proof.
  induction d as [|d IH|d IH|d IH|d IH|d IH|d IH|d IH|d IH|d IH|d IH];
    cbn [NilEmpty.string_of_uint append spanDigits]; [reflexivity|..];
    match goal with
    | |- context [isDigit ?c] => change (isDigit c) with true
    end; cbv iota; now rewrite IH.
Qed.

Lemma string_of_uint_nonempty (d : Decimal.uint) :
  d <> Decimal.Nil -> exists c s, NilEmpty.string_of_uint d = String c s.
Proof. destruct d; [contradiction | cbn; eauto ..]. Qed.

Lemma getPixel_id_shape r g b (id : Z) :
  exists tail,
    getPixel None None r g b (Some id)
    = String "P" (String "[" (string_of_Z id ++ String "]" tail)).
Proof.
  eexists. unfold getPixel. cbn [pushIfDefined app join].
  cbn [append]. reflexivity.
Qed.

Lemma pixelId_getPixel r g b (id : Z) :
  0 <= id -> pixelId (getPixel None None r g b (Some id)) = Some id.
Proof.
  intros H. destruct (getPixel_id_shape r g b id) as (tail & ->).
  destruct (string_of_Z_nonneg id H) as (d & Hd & -> & Hv).
  unfold pixelId. cbn [matchBracketDigits].
  change (Ascii.eqb "P" "[") with false. change (Ascii.eqb "[" "[") with true. cbv iota.
  rewrite spanDigits_uint.
  destruct (string_of_uint_nonempty d Hd) as (c & s & E). rewrite E.
  change (Ascii.eqb "]" "]") with true. cbv iota. rewrite <- E.
  unfold parseInt. rewrite NilEmpty.usu. cbn [option_map]. now rewrite Hv.
Qed.

(** ** The sort *)

Lemma insertByKey_perm x l : Permutation (x :: l) (insertByKey x l).
Proof.
  induction l as [|y l IH]; cbn [insertByKey]; [reflexivity|].
  destruct (fst x <=? fst y); [reflexivity|].
  rewrite perm_swap. now constructor.
Qed.

Lemma insertByKey_hd x l a :
  HdRel keyLe a l -> keyLe a x -> HdRel keyLe a (insertByKey x l).
Proof.
  intros Hl Hx. destruct l as [|y l]; cbn [insertByKey]; [now constructor|].
  destruct (fst x <=? fst y); constructor; [assumption | now inversion Hl].
Qed.

Lemma insertByKey_sorted x l : Sorted keyLe l -> Sorted keyLe (insertByKey x l).
Proof.
  induction 1 as [|y l Hs IH Hh]; cbn [insertByKey]; [repeat constructor|].
  destruct (Z.leb_spec (fst x) (fst y)).
  - constructor; [now constructor | constructor; assumption].
  - constructor; [assumption|]. apply insertByKey_hd; [assumption|]. unfold keyLe. lia.
Qed.

Lemma sortByKey_perm l : Permutation l (sortByKey l).
Proof.
  induction l as [|x l IH]; [reflexivity|]. cbn [sortByKey fold_right].
  rewrite <- insertByKey_perm. now constructor.
Qed.

Lemma sortByKey_sorted l : Sorted keyLe (sortByKey l).
Proof.
  induction l as [|x l IH]; [constructor|]. cbn [sortByKey fold_right].
  now apply insertByKey_sorted.
Qed.

Lemma forEachOpt_keys frame keys :
  forEachOpt frame pixelId = Some keys ->
  length keys = length frame
  /\ Forall (fun p => pixelId (snd p) = Some (fst p)) (combine keys frame).
Proof.
  revert keys. induction frame as [|a frame IH]; intros keys H; cbn in H.
  - inversion H. split; [reflexivity | constructor].
  - destruct (pixelId a) as [k|] eqn:E; [|discriminate].
    destruct (forEachOpt frame pixelId) as [ks|]; [|discriminate].
    inversion H; subst. destruct (IH ks eq_refl) as [Hl Hf].
    split; [cbn; congruence|]. cbn. now constructor.
Qed.

Lemma forEachOpt_of_pairs (ps : list (Z * string)) :
  Forall (fun p => pixelId (snd p) = Some (fst p)) ps ->
  forEachOpt (map snd ps) pixelId = Some (map fst ps).
Proof.
  induction 1 as [|p ps Hp _ IH]; [reflexivity|]. cbn. now rewrite Hp, IH.
Qed.

Lemma Sorted_keys (ps : list (Z * string)) :
  Sorted keyLe ps -> Sorted Z.le (map fst ps).
Proof.
  induction 1 as [|p ps Hs IH Hh]; [constructor|]. cbn. constructor; [assumption|].
  destruct Hh; cbn; constructor. assumption.
Qed.

Lemma map_snd_combine {A B : Type} (l : list A) (l' : list B) :
  length l = length l' -> map snd (combine l l') = l'.
Proof.
  revert l'. induction l as [|a l IH]; intros [|b l'] H; try discriminate; [reflexivity|].
  cbn. f_equal. apply IH. now inversion H.
Qed.

Lemma sortPixelFrame_sorted frame keys :
  forEachOpt frame pixelId = Some keys ->
  exists sorted,
    Part000.sortPixelFrame frame = Some sorted
    /\ Permutation frame sorted
    /\ sortedById sorted.
Proof.
  intros H. destruct (forEachOpt_keys frame keys H) as [Hl Hf].
  assert (G : exists sorted,
             option_map (fun keys => map snd (sortByKey (combine keys frame)))
                        (forEachOpt frame pixelId) = Some sorted
             /\ Permutation frame sorted /\ sortedById sorted).
  { rewrite H. cbn [option_map]. eexists. split; [reflexivity|]. split.
    - rewrite <- (map_snd_combine keys frame Hl) at 1.
      apply Permutation_map, sortByKey_perm.
    - exists (map fst (sortByKey (combine keys frame))). split.
      + apply forEachOpt_of_pairs.
        eapply Permutation_Forall; [apply sortByKey_perm | exact Hf].
      + apply Sorted_keys, sortByKey_sorted. }
  destruct frame as [|a [|b frame]]; [| |exact G].
  - exists []. repeat split; [constructor|]. exists []. split; [reflexivity | constructor].
  - exists [a]. repeat split; [reflexivity|]. exists keys. split; [assumption|].
    destruct keys as [|k [|k' ks]]; try discriminate. repeat constructor.
Qed.
(** ** The tracer frames *)

Lemma Forall2_nth_error {A B : Type} (P : A -> B -> Prop) l l' j a :
  Forall2 P l l' -> nth_error l j = Some a ->
  exists b, nth_error l' j = Some b /\ P a b.
Proof.
  intros H. revert j. induction H as [|x y l l' Hxy _ IH]; intros j Hj.
  - destruct j; discriminate.
  - destruct j as [|j]; cbn in *; [inversion Hj; subst; eauto | now apply IH].
Qed.

Lemma sidesOk_shiftPush lt rt : sidesOk lt rt -> sidesOk (shiftPush lt) (shiftPush rt).
Proof.
  intros H. destruct H as [|x y l l' Hxy Hl]; [constructor|].
  cbn [shiftPush]. apply Forall2_app; [assumption | now constructor].
Qed.

Lemma sidesOk_padded (k : nat) :
  sidesOk (app (map Some Part000.LEFT_BASE_LEDS) (repeat None k))
          (app (map Some Part000.RIGHT_BASE_LEDS) (repeat None k)).
Proof.
  apply Forall2_app.
  - unfold Part000.LEFT_BASE_LEDS, Part000.RIGHT_BASE_LEDS. cbn [map].
    repeat (apply Forall2_cons;
            [split; [lia | eexists; split; [reflexivity | lia]] |]).
    apply Forall2_nil.
  - induction k; cbn; constructor; [exact I | assumption].
Qed.

Lemma tracerSetup_sidesOk stepsPerColor colorCount :
  let '(ltSide, rtSide, _) := Part000.tracerSetup stepsPerColor colorCount in
  sidesOk ltSide rtSide.
Proof.
  unfold Part000.tracerSetup. cbv zeta.
  destruct (Z.rem _ _ >? 0).
  - apply sidesOk_padded.
  - rewrite <- (app_nil_r (map Some Part000.LEFT_BASE_LEDS)).
    rewrite <- (app_nil_r (map Some Part000.RIGHT_BASE_LEDS)).
    exact (sidesOk_padded 0).
Qed.

Lemma tracerCommands_ids botColor ltSide rtSide :
  sidesOk ltSide rtSide ->
  Forall (fun cmd => exists id, pixelId cmd = Some id)
         (Part000.tracerCommands botColor ltSide rtSide).
Proof.
  intros H. unfold Part000.tracerCommands. apply Forall_flat_map, Forall_forall.
  intros [j lt] Hin. apply indexed_In in Hin. destruct lt as [ltId|]; [|constructor].
  destruct (Forall2_nth_error _ _ _ _ _ H Hin) as (rt & -> & H0 & b & -> & Hb).
  apply Forall_app. split.
  - constructor; [|constructor]. eexists. now apply pixelId_getPixel.
  - destruct (negb (ltId =? 94) && negb (ltId =? 110)); [|constructor].
    constructor; [|constructor]. eexists. now apply pixelId_getPixel.
Qed.

Lemma forEachOpt_pixelId frame :
  Forall (fun cmd => exists id, pixelId cmd = Some id) frame ->
  exists keys, forEachOpt frame pixelId = Some keys.
Proof.
  induction 1 as [|cmd frame (id & E) _ (keys & IH)]; [now exists []|].
  exists (id :: keys). cbn. now rewrite E, IH.
Qed.

Lemma tracerFrames_defined botColors topColors :
  forall i ltSide rtSide,
    sidesOk ltSide rtSide ->
    (i + length topColors <= length botColors)%nat ->
    exists fs, Part000.tracerFrames botColors i ltSide rtSide topColors = Some fs
               /\ length fs = length topColors
               /\ Forall sortedById fs.
Proof.
  induction topColors as [|topColor rest IH]; intros i ltSide rtSide Hs Hl.
  - exists []. repeat split. constructor.
  - cbn [Part000.tracerFrames]. cbn [length] in Hl.
    destruct (nth_error_defined botColors i) as (botColor & ->); [lia|].
    match goal with
    | |- context [Part000.sortPixelFrame ?frame] =>
        destruct (forEachOpt_pixelId frame) as (keys & Hk)
    end.
    { apply Forall_app. split; [|now apply tracerCommands_ids].
      unfold idPixel. repeat constructor; eexists; apply pixelId_getPixel; lia. }
    destruct (sortPixelFrame_sorted _ _ Hk) as (sorted & -> & _ & Hsorted).
    destruct (IH (S i) (shiftPush ltSide) (shiftPush rtSide)) as (fs & -> & Hlen & Hall);
      [now apply sidesOk_shiftPush | lia |].
    cbn [option_map]. eexists. split; [reflexivity|].
    split; [cbn; congruence | now constructor].
Qed.

Lemma verticalPulseFrames_defined stepsPerColor args :
  exists fs,
    Part000.verticalPulseFrames stepsPerColor args = Some fs
    /\ fs <> []
    /\ Forall sortedById fs.
Proof.
  unfold Part000.verticalPulseFrames.
  set (n := match stepsPerColor with Some m => m | None => 32 end).
  set (colorValues := Part000.withDefaultColors args).
  pose proof (tracerSetup_sidesOk n (Z.of_nat (length colorValues))) as Hs.
  destruct (Part000.tracerSetup n (Z.of_nat (length colorValues)))
    as [[ltSide rtSide] stepsPerInhale].
  destruct (tracerFrames_defined
              (Part000.multiColorBleed (inject_Z stepsPerInhale) (Some interpSine)
                                       (shiftPush colorValues))
              (Part000.multiColorBleed (inject_Z stepsPerInhale) (Some interpSine)
                                       colorValues)
              0%nat ltSide rtSide Hs) as (fs & E & Hl & Hall).
  { rewrite !multiColorBleedP_length, shiftPush_length. cbn. lia. }
  exists fs. repeat split; [assumption | | assumption].
  apply nonempty_of_length. rewrite Hl. apply multiColorBleedP_nonempty.
  apply withDefaultColors_nonempty.
Qed.

Lemma verticalPulseWithTracers_wellFormed stepsPerColor args :
  exists a, Part000.verticalPulseWithTracers stepsPerColor args = Some a /\ wellFormed a.
Proof.
  unfold Part000.verticalPulseWithTracers.
  destruct (verticalPulseFrames_defined stepsPerColor args) as (fs & -> & Hn & _).
  eexists. split; [reflexivity|]. split; [solve_tagged|].
  cbn [frames]. destruct fs; [contradiction | discriminate].
Qed.
(** ** Every generator *)

Lemma noiseFrameCount_pos maxFrames :
  match maxFrames with
  | Some m => 0 <= m
  | None => True
  end ->
  (0 < noiseFrameCount maxFrames)%nat.
Proof.
  unfold noiseFrameCount. destruct maxFrames as [m|]; [|lia].
  destruct (Z.eqb_spec m 0); lia.
Qed.

Lemma whiteNoise_wellFormed env maxFrames :
  match maxFrames with
  | Some m => 0 <= m
  | None => True
  end ->
  returns (Part000.whiteNoise env maxFrames) wellFormed.
Proof.
  intros H. eapply returns_weaken; [apply whiteNoise_shape|].
  intros a [Ht Hl]. split; [assumption|]. apply nonempty_of_length. rewrite Hl.
  now apply noiseFrameCount_pos.
Qed.

Lemma whiteNoise_negative env (m : Z) :
  m < 0 -> returns (Part000.whiteNoise env (Some m)) (fun a => tagged a /\ frames a = []).
Proof.
  intros H. eapply returns_weaken; [apply whiteNoise_shape|].
  intros a [Ht Hl]. split; [assumption|]. apply length_zero_iff_nil. rewrite Hl.
  unfold noiseFrameCount. destruct (Z.eqb_spec m 0); lia.
Qed.

Lemma invokeP_wellFormed env (c : Part000.GenCall) :
  ~ negativeFramesP c -> returns (Part000.invoke env c) wellFormed.
Proof.
  intros Hc. destruct c; cbn [Part000.invoke].
  - eapply returns_weaken; [apply dodgyPixelP_returns|].
    intros a [Ht Hl]. split; [assumption|]. apply nonempty_of_length. lia.
  - apply returns_lift, kitt2000P_wellFormed.
  - apply returns_ret. exact (proj1 bluewipe_wellFormed).
  - apply returns_ret. apply colorBreatheGenerator_wellFormed. discriminate.
  - apply returns_ret. apply colorBreatheGenerator_wellFormed. discriminate.
  - apply returns_lift, blueGreenBaseTopBreathSpin_wellFormed.
  - apply returns_lift, keyGroupCycler_wellFormed.
  - apply returns_lift, verticalPulseWithTracers_wellFormed.
  - apply returns_lift, baseTopBreath_wellFormed.
  - apply returns_ret, colorPulseGeneratorP_wellFormed. discriminate.
  - apply returns_ret, colorPulseGeneratorP_wellFormed. discriminate.
  - apply returns_ret, colorPulseGeneratorP_wellFormed. discriminate.
  - apply returns_ret, colorPulseGeneratorP_wellFormed. discriminate.
  - apply returns_ret, colorPulseGeneratorP_wellFormed. discriminate.
  - apply whiteNoise_wellFormed. destruct maxFrames as [m|]; [|exact I].
    cbn in Hc. lia.
  - apply returns_ret. exact (proj1 (topAndBottom_wellFormed env)).
  - apply returns_ret. exact topAndBottom2_wellFormed.
  - eapply returns_weaken; [apply escapeTest_returns|].
    intros a [Ht Hl]. split; [assumption|]. apply nonempty_of_length. lia.
Qed.

Lemma invokeK_wellFormed env (c : Kiianigen.GenCall) :
  ~ negativeFramesK c -> returns (Kiianigen.invoke env c) wellFormed.
Proof.
  intros Hc. destruct c; cbn [Kiianigen.invoke].
  - eapply returns_weaken; [apply dodgyPixelK_returns|].
    intros a [Ht Hl]. split; [assumption|]. apply nonempty_of_length. lia.
  - apply returns_lift, kitt2000K_wellFormed.
  - apply returns_ret. exact (proj2 bluewipe_wellFormed).
  - apply returns_ret, colorPulseGeneratorK_wellFormed. discriminate.
  - apply returns_ret, colorPulseGeneratorK_wellFormed. discriminate.
  - apply returns_ret, colorPulseGeneratorK_wellFormed. discriminate.
  - apply returns_ret, colorPulseGeneratorK_wellFormed. discriminate.
  - rewrite whiteNoise_same. apply whiteNoise_wellFormed.
    destruct maxFrames as [m|]; [|exact I]. cbn in Hc. lia.
  - apply returns_ret. exact (proj2 (topAndBottom_wellFormed env)).
  - rewrite escapeTest_same. eapply returns_weaken; [apply escapeTest_returns|].
    intros a [Ht Hl]. split; [assumption|]. apply nonempty_of_length. lia.
Qed.

(** ** The animations object *)

Lemma getProp_setProp_same m g a : getProp (setProp m g a) g = Some a.
Proof.
  induction m as [|[k b] m IH]; cbn.
  - now rewrite String.eqb_refl.
  - destruct (String.eqb_spec k g) as [->|Hk]; cbn.
    + now rewrite String.eqb_refl.
    + destruct (String.eqb_spec k g); [contradiction | assumption].
Qed.

Lemma getProp_setProp_other m g g' a :
  g' <> g -> getProp (setProp m g a) g' = getProp m g'.
Proof.
  intros Hg. induction m as [|[k b] m IH]; cbn.
  - destruct (String.eqb_spec g g'); [congruence | reflexivity].
  - destruct (String.eqb_spec k g) as [->|Hk]; cbn.
    + destruct (String.eqb_spec g g'); [congruence | reflexivity].
    + now rewrite IH.
Qed.

Lemma setProp_keys m g a :
  map fst (setProp m g a)
  = if existsb (String.eqb g) (map fst m) then map fst m else app (map fst m) [g].
Proof.
  induction m as [|[k b] m IH]; cbn; [reflexivity|].
  rewrite (String.eqb_sym g k).
  destruct (String.eqb_spec k g) as [->|Hk]; cbn; [reflexivity|].
  rewrite IH. now destruct (existsb _ _).
Qed.

Lemma setProp_NoDup m g a : NoDup (map fst m) -> NoDup (map fst (setProp m g a)).
Proof.
  intros H. rewrite setProp_keys. destruct (existsb _ _) eqn:E; [assumption|].
  apply NoDup_app; [assumption | repeat constructor; intros [] |].
  intros x Hx [<-|[]].
  assert (existsb (String.eqb g) (map fst m) = true); [|congruence].
  apply existsb_exists. exists g. split; [assumption | apply String.eqb_refl].
Qed.

Lemma lookupGenerator_None gens g :
  ~ In g (map fst gens) -> lookupGenerator gens g = None.
Proof.
  induction gens as [|[k gen] gens IH]; intros H; [reflexivity|]. cbn in *.
  destruct (String.eqb_spec k g); [tauto | apply IH; tauto].
Qed.

(** What the loop of the [all] branch leaves in the animations object, for
    any registry whose functions return a value with [P]. *)
Lemma generateAll_spec (P : Animation -> Prop) gens :
  NoDup (map fst gens) ->
  (forall g gen, In (g, gen) gens -> returns gen P) ->
  forall animOrig n,
  exists result n',
    generateAll gens animOrig n = Some (result, n')
    /\ (forall g gen, In (g, gen) gens -> notExcluded g = true ->
          exists a k k', gen k = Some (a, k') /\ getProp result g = Some a /\ P a)
    /\ (forall g, ~ In g (map fst gens) \/ notExcluded g = false ->
          getProp result g = getProp animOrig g)
    /\ (NoDup (map fst animOrig) -> NoDup (map fst result)).
Proof.
  induction gens as [|[g gen] gens IH]; intros Hnd Hret animOrig n.
  - exists animOrig, n. repeat split; [intros ? ? [] | auto].
  - cbn [map fst] in Hnd. inversion Hnd as [|? ? Hnotin Hnd']; subst.
    assert (Hret' : forall g' gen', In (g', gen') gens -> returns gen' P).
    { intros. eapply Hret. right. eassumption. }
    cbn [generateAll]. destruct (notExcluded g) eqn:Eg.
    + destruct (Hret g gen (or_introl eq_refl) n) as (a & n1 & Ea & Pa).
      destruct (IH Hnd' Hret' (setProp animOrig g a) n1)
        as (result & n' & E & H1 & H2 & H3).
      exists result, n'. unfold bind. rewrite Ea. repeat split.
      * assumption.
      * intros g' gen' [Heq|Hin] Hex.
        -- inversion Heq; subst. exists a, n, n1. repeat split; [assumption | | assumption].
           rewrite H2 by (now left). apply getProp_setProp_same.
        -- now apply H1.
      * intros g' Hg'. cbn [map fst In] in Hg'.
        rewrite H2 by tauto. apply getProp_setProp_other.
        intros ->. destruct Hg' as [Hg'|Hg']; [tauto | congruence].
      * intros Hn. apply H3. now apply setProp_NoDup.
    + destruct (IH Hnd' Hret' animOrig n) as (result & n' & E & H1 & H2 & H3).
      exists result, n'. repeat split.
      * assumption.
      * intros g' gen' [Heq|Hin] Hex; [inversion Heq; subst; congruence | now apply H1].
      * intros g' Hg'. apply H2. cbn [map fst In] in Hg'.
        destruct Hg' as [Hg'|Hg']; [left; tauto | now right].
      * assumption.
Qed.

Lemma generatorsP_names env :
  map fst (Part000.generators env) = map Part000.callName Part000.callsWithoutArguments.
Proof. unfold Part000.generators. now rewrite map_map. Qed.

Lemma generatorsK_names env :
  map fst (Kiianigen.generators env)
  = map Kiianigen.callName Kiianigen.callsWithoutArguments.
Proof. unfold Kiianigen.generators. now rewrite map_map. Qed.

Lemma NoDup_of_nodup (l : list string) : nodup string_dec l = l -> NoDup l.
Proof. intros <-. apply NoDup_nodup. Qed.

Lemma generators_NoDup env :
  NoDup (map fst (Part000.generators env)) /\ NoDup (map fst (Kiianigen.generators env)).
Proof.
  rewrite generatorsP_names, generatorsK_names.
  split; apply NoDup_of_nodup; vm_compute; reflexivity.
Qed.

Lemma generators_not_excluded env :
  Forall (fun g => notExcluded g = true) (map fst (Part000.generators env))
  /\ Forall (fun g => notExcluded g = true) (map fst (Kiianigen.generators env)).
Proof.
  rewrite generatorsP_names, generatorsK_names.
  split; repeat constructor.
Qed.

Lemma generatorsP_returns env g gen :
  In (g, gen) (Part000.generators env) -> returns gen wellFormed.
Proof.
  unfold Part000.generators. rewrite in_map_iff. intros (c & E & Hc).
  inversion E; subst. apply invokeP_wellFormed.
  unfold Part000.callsWithoutArguments in Hc. cbn [In] in Hc.
  intuition (subst; auto).
Qed.

Lemma generatorsK_returns env g gen :
  In (g, gen) (Kiianigen.generators env) -> returns gen wellFormed.
Proof.
  unfold Kiianigen.generators. rewrite in_map_iff. intros (c & E & Hc).
  inversion E; subst. apply invokeK_wellFormed.
  unfold Kiianigen.callsWithoutArguments in Hc. cbn [In] in Hc.
  intuition (subst; auto).
Qed.

Lemma generateP_all env animOrig n :
  Part000.generate env "all" animOrig n
  = match generateAll (Part000.generators env) animOrig n with
    | Some (animations, n') => Some (Generated animations, n')
    | None => None
    end.
Proof.
  unfold Part000.generate. rewrite lookupGenerator_None.
  - change (String.eqb "all" "") with false.
    change (String.eqb "all" "all") with true. cbn [negb andb orb]. unfold bind.
    destruct (generateAll _ _ _) as [[? ?]|]; reflexivity.
  - rewrite generatorsP_names. vm_compute. intuition discriminate.
Qed.

Lemma generateK_all env animOrig n :
  Kiianigen.generate env "all" animOrig n
  = match generateAll (Kiianigen.generators env) animOrig n with
    | Some (animations, n') => Some (Generated animations, n')
    | None => None
    end.
Proof.
  unfold Kiianigen.generate. rewrite lookupGenerator_None.
  - change (String.eqb "all" "") with false.
    change (String.eqb "all" "all") with true. cbn [negb andb orb]. unfold bind.
    destruct (generateAll _ _ _) as [[? ?]|]; reflexivity.
  - rewrite generatorsK_names. vm_compute. intuition discriminate.
Qed.
(** Every colour [colorBleed] returns is one of the colours its loop
    computes. *)
Lemma colorBleedP_colors c1 c2 steps step f c :
  In c (resultColors (Part000.colorBleed c1 c2 steps step f)) ->
  exists n, In c (bleedColorsP c1 c2 n (interpOrLinear f)).
Proof.
  rewrite colorBleedP_unfold.
  assert (Hel : forall n k,
             In c (resultColors (BleedStep (elementAt (bleedColorsP c1 c2 n
                                                         (interpOrLinear f)) k))) ->
             exists n', In c (bleedColorsP c1 c2 n' (interpOrLinear f))).
  { intros n k H. destruct (elementAt _ k) eqn:E; cbn in H; [|contradiction].
    destruct H as [<-|[]]. exists n. eapply elementAt_In, E. }
  destruct steps as [n|]; [destruct (Qltb n 2); [|destruct step]|]; try apply Hel.
  cbn [resultColors]. eauto.
Qed.

Lemma colorBleedK_colors c1 c2 steps step c :
  In c (resultColors (Kiianigen.colorBleed c1 c2 steps step)) ->
  exists n, In c (bleedColorsK c1 c2 n).
Proof.
  rewrite colorBleedK_unfold.
  assert (Hel : forall n k,
             In c (resultColors (BleedStep (elementAt (bleedColorsK c1 c2 n) k))) ->
             exists n', In c (bleedColorsK c1 c2 n')).
  { intros n k H. destruct (elementAt _ k) eqn:E; cbn in H; [|contradiction].
    destruct H as [<-|[]]. exists n. eapply elementAt_In, E. }
  destruct steps as [n|]; [destruct (Qltb n 2); [|destruct step]|]; try apply Hel.
  cbn [resultColors]. eauto.
Qed.

(** ** The bleed at any step count, and the fallback with any interpolation *)

Lemma loopUpTo_nth_floor (steps : Q) (k : nat) :
  Z.of_nat k <= Qfloor steps ->
  nth_error (loopUpTo steps) k = Some (Z.of_nat k).
Proof. intros H. unfold loopUpTo. apply nth_error_seq_map. lia. Qed.

Lemma linear_last_whole (steps : Q) (n v1 v2 : Z) :
  n <> 0 -> (steps == inject_Z n)%Q ->
  Math_round (interpLinear n steps v1 v2) = Math_round (NumQ (inject_Z v2)).
Proof.
  intros Hn E. unfold interpLinear, linearInterpolate. apply Math_round_Qeq.
  rewrite E. assert (~ (inject_Z n == 0)%Q) by (unfold Qeq; cbn; lia).
  field. assumption.
Qed.

Lemma diffSteps_last_whole (steps : Q) (n v1 v2 : Z) :
  n <> 0 -> (steps == inject_Z n)%Q ->
  Math_round (NumQ (inject_Z v1 + inject_Z n * (inject_Z (v2 - v1) / steps)))
  = Math_round (NumQ (inject_Z v2)).
Proof.
  intros Hn E. apply Math_round_Qeq.
  rewrite E. assert (~ (inject_Z n == 0)%Q) by (unfold Qeq; cbn; lia).
  unfold Zminus. rewrite inject_Z_plus, inject_Z_opp. field. assumption.
Qed.

Lemma two_le_floor (steps : Q) : (2 <= steps)%Q -> 2 <= Qfloor steps.
Proof. intros H. rewrite <- (Qfloor_Z 2). now apply Qfloor_resp_le. Qed.

Lemma bleedColorsP_first_any c1 c2 (steps : Q) :
  0 <= Qfloor steps ->
  nth_error (bleedColorsP c1 c2 steps interpLinear) 0 = Some (roundClamp c1).
Proof.
  intros H. unfold bleedColorsP. rewrite nth_error_map, (loopUpTo_nth_floor steps 0) by lia.
  cbn [option_map Z.of_nat]. f_equal. destruct c1, c2. cbn [mapChannels roundClamp].
  now rewrite !linear_first.
Qed.

Lemma bleedColorsK_first_any c1 c2 (steps : Q) :
  0 <= Qfloor steps ->
  nth_error (bleedColorsK c1 c2 steps) 0 = Some (roundClamp c1).
Proof.
  intros H. unfold bleedColorsK. rewrite nth_error_map, (loopUpTo_nth_floor steps 0) by lia.
  cbn [option_map Z.of_nat]. f_equal. destruct c1, c2. cbn [mapChannels roundClamp].
  now rewrite !diffSteps_first.
Qed.

Lemma bleedColorsP_last_whole c1 c2 (steps : Q) (n : Z) :
  0 < n -> (steps == inject_Z n)%Q -> Qfloor steps = n ->
  nth_error (bleedColorsP c1 c2 steps interpLinear) (Z.to_nat n) = Some (roundClamp c2).
Proof.
  intros Hn E Hf. unfold bleedColorsP.
  rewrite nth_error_map, (loopUpTo_nth_floor steps (Z.to_nat n)) by lia.
  cbn [option_map]. rewrite Z2Nat.id by lia. f_equal.
  destruct c1, c2. cbn [mapChannels roundClamp].
  rewrite !(linear_last_whole steps n) by (assumption || lia). reflexivity.
Qed.

Lemma bleedColorsK_last_whole c1 c2 (steps : Q) (n : Z) :
  0 < n -> (steps == inject_Z n)%Q -> Qfloor steps = n ->
  nth_error (bleedColorsK c1 c2 steps) (Z.to_nat n) = Some (roundClamp c2).
Proof.
  intros Hn E Hf. unfold bleedColorsK.
  rewrite nth_error_map, (loopUpTo_nth_floor steps (Z.to_nat n)) by lia.
  cbn [option_map]. rewrite Z2Nat.id by lia. f_equal.
  destruct c1, c2. cbn [mapChannels roundClamp].
  rewrite !(diffSteps_last_whole steps n) by (assumption || lia). reflexivity.
Qed.

(** The fallback returns [colors[1]] of a bleed over two steps, whatever the
    interpolation function. *)
Lemma bleedColorsP_fallback c1 c2 (f : Interp) :
  elementAt (bleedColorsP c1 c2 2 f) 1
  = Some (mapChannels (fun o d => clampChannel (Math_round (f 1 2%Q o d))) c1 c2).
Proof.
  unfold bleedColorsP. rewrite loopUpTo_two. reflexivity.
Qed.

Lemma Q2R_inject_Z (z : Z) : Q2R (inject_Z z) = IZR z.
Proof. unfold Q2R. cbn. field. Qed.

(** [Math.round] of a rational is the same on the real it stands for. *)
Lemma Math_round_Q2R (q : Q) : Math_round (NumR (Q2R q)) = Math_round (NumQ q).
Proof.
  unfold Math_round. set (z := Qfloor (q + (1 # 2))).
  assert (H1 : (inject_Z z <= q + (1 # 2))%Q) by apply Qfloor_le.
  assert (H2 : (q + (1 # 2) < inject_Z (z + 1))%Q) by apply Qlt_floor.
  apply Qreals.Qle_Rle in H1. apply Qreals.Qlt_Rlt in H2.
  rewrite Qreals.Q2R_plus, Q2R_inject_Z in H1, H2.
  assert (Eh : Q2R (1 # 2) = (/ 2)%R) by (unfold Q2R; cbn; lra).
  rewrite Eh in H1, H2. rewrite plus_IZR in H2.
  destruct (base_Int_part (Q2R q + / 2)) as [Ha Hb].
  assert (Int_part (Q2R q + / 2) < z + 1).
  { apply lt_IZR. rewrite plus_IZR. lra. }
  assert (z < Int_part (Q2R q + / 2) + 1).
  { apply lt_IZR. rewrite plus_IZR. lra. }
  lia.
Qed.

Lemma sine_middle (v1 v2 : Z) :
  Math_round (interpSine 1 2%Q v1 v2)
  = Math_round (NumQ ((inject_Z v1 + inject_Z v2) / 2)).
Proof.
  rewrite <- Math_round_Q2R. unfold interpSine, sineInterpolate. f_equal. f_equal.
  assert (E2 : Q2R 2 = 2%R) by (unfold Q2R; cbn; lra).
  rewrite E2.
  replace (1 / 2 * PI - PI / 2)%R with 0%R by field.
  rewrite sin_0.
  unfold Qdiv. rewrite Qreals.Q2R_mult, Qreals.Q2R_plus, !Q2R_inject_Z.
  assert (Ei : Q2R (/ 2) = (/ 2)%R) by (unfold Q2R; cbn; lra).
  rewrite Ei. field.
Qed.

Lemma bleedColorsP_sine_middle c1 c2 :
  elementAt (bleedColorsP c1 c2 2 interpSine) 1 = Some (midpoint c1 c2).
Proof.
  rewrite bleedColorsP_fallback. f_equal. destruct c1, c2. cbn [mapChannels midpoint].
  now rewrite !sine_middle.
Qed.

(** ** The frames as pushed and as sorted *)

Lemma tracerFrames_perm botColors topColors :
  forall i ltSide rtSide,
    sidesOk ltSide rtSide ->
    (i + length topColors <= length botColors)%nat ->
    exists fs, Part000.tracerFrames botColors i ltSide rtSide topColors = Some fs
               /\ Forall2 (fun pushed sorted => Permutation pushed sorted
                                                /\ sortedById sorted)
                          (tracerPushed botColors i ltSide rtSide topColors) fs.
Proof.
  induction topColors as [|topColor rest IH]; intros i ltSide rtSide Hs Hl.
  - exists []. split; [reflexivity | constructor].
  - cbn [Part000.tracerFrames tracerPushed]. cbn [length] in Hl.
    destruct (nth_error_defined botColors i) as (botColor & ->); [lia|].
    match goal with
    | |- context [Part000.sortPixelFrame ?frame] =>
        destruct (forEachOpt_pixelId frame) as (keys & Hk)
    end.
    { apply Forall_app. split; [|now apply tracerCommands_ids].
      unfold idPixel. repeat constructor; eexists; apply pixelId_getPixel; lia. }
    destruct (sortPixelFrame_sorted _ _ Hk) as (sorted & -> & Hperm & Hsorted).
    destruct (IH (S i) (shiftPush ltSide) (shiftPush rtSide)) as (fs & -> & Hall);
      [now apply sidesOk_shiftPush | lia |].
    cbn [option_map]. eexists. split; [reflexivity|].
    constructor; [split; assumption | exact Hall].
Qed.

Lemma verticalPulseFrames_perm stepsPerColor args :
  exists fs,
    Part000.verticalPulseFrames stepsPerColor args = Some fs
    /\ Forall2 (fun pushed sorted => Permutation pushed sorted /\ sortedById sorted)
               (verticalPulsePushed stepsPerColor args) fs.
Proof.
  unfold Part000.verticalPulseFrames, verticalPulsePushed.
  set (n := match stepsPerColor with Some m => m | None => 32 end).
  set (colorValues := Part000.withDefaultColors args).
  pose proof (tracerSetup_sidesOk n (Z.of_nat (length colorValues))) as Hs.
  destruct (Part000.tracerSetup n (Z.of_nat (length colorValues)))
    as [[ltSide rtSide] stepsPerInhale].
  apply tracerFrames_perm; [exact Hs|].
  rewrite !multiColorBleedP_length, shiftPush_length. cbn. lia.
Qed.

(* ================================================================== *)
(** * The claims of the specification *)

(** ** Pixel command encoder *)


(** ** Colour bleed: endpoints, range, fallback *)

(** C2, as the spec states it, fails for a step count that is no integer:
    with [steps = 5/2] the loop runs for [s = 0, 1, 2], so [colorBleed]
    returns 3 colours, which is not [steps + 1], and the last of them is
    not [c2].  The script itself calls [colorBleed] with the step count
    250/3.  In both scripts. *)
Lemma C2_colorBleed_endpoints_counterexample :
  (2 <= 5 # 2)%Q
  /\ Part000.colorBleed (RGB 0 0 0) (RGB 255 255 255) (Some (5 # 2)%Q) None None
     = BleedAll [RGB 0 0 0; RGB 102 102 102; RGB 204 204 204]
  /\ Kiianigen.colorBleed (RGB 0 0 0) (RGB 255 255 255) (Some (5 # 2)%Q) None
     = BleedAll [RGB 0 0 0; RGB 102 102 102; RGB 204 204 204]
  /\ ~ (inject_Z (Z.of_nat (length [RGB 0 0 0; RGB 102 102 102; RGB 204 204 204]))
        == (5 # 2) + 1)%Q
  /\ ~ In (roundClamp (RGB 255 255 255)) [RGB 0 0 0; RGB 102 102 102; RGB 204 204 204]
  /\ ~ (forall (steps : Q) c1 c2 colors,
          (2 <= steps)%Q ->
          Part000.colorBleed c1 c2 (Some steps) None None = BleedAll colors ->
          (inject_Z (Z.of_nat (length colors)) == steps + 1)%Q).
Proof.
  assert (H : (2 <= 5 # 2)%Q) by (unfold Qle; cbn; lia).
  assert (E : Part000.colorBleed (RGB 0 0 0) (RGB 255 255 255) (Some (5 # 2)%Q) None None
              = BleedAll [RGB 0 0 0; RGB 102 102 102; RGB 204 204 204])
    by (vm_compute; reflexivity).
  assert (N : ~ (inject_Z (Z.of_nat (length [RGB 0 0 0; RGB 102 102 102;
                                              RGB 204 204 204]))
                 == (5 # 2) + 1)%Q)
    by (unfold Qeq; cbn; lia).
  split; [exact H|]. split; [exact E|]. split; [vm_compute; reflexivity|].
  split; [exact N|]. split.
  - vm_compute. intros [F|[F|[F|[]]]]; discriminate F.
  - intros F. exact (N (F _ _ _ _ H E)).
Qed.

(** C2, amended.  For all colours [c1], [c2] and every [steps >= 2],
    [colorBleed(c1, c2, steps)] returns an array of exactly
    [floor(steps) + 1] colours whose element 0 is [c1]; when [steps] is an
    integer, that is [steps + 1] colours, and the element [steps] is [c2].
    Each is taken after rounding and clamping of the channels, which leave a
    colour of 8-bit channels unchanged.  In both scripts. *)
Theorem C2_colorBleed_endpoints (c1 c2 : Color) (steps : Q) :
  (2 <= steps)%Q ->
  (exists colors,
      Part000.colorBleed c1 c2 (Some steps) None None = BleedAll colors
      /\ Z.of_nat (length colors) = Qfloor steps + 1
      /\ elementAt colors 0 = Some (roundClamp c1)
      /\ ((steps == inject_Z (Qfloor steps))%Q ->
          (inject_Z (Z.of_nat (length colors)) == steps + 1)%Q
          /\ elementAt colors (Qfloor steps) = Some (roundClamp c2)))
  /\ (exists colors,
      Kiianigen.colorBleed c1 c2 (Some steps) None = BleedAll colors
      /\ Z.of_nat (length colors) = Qfloor steps + 1
      /\ elementAt colors 0 = Some (roundClamp c1)
      /\ ((steps == inject_Z (Qfloor steps))%Q ->
          (inject_Z (Z.of_nat (length colors)) == steps + 1)%Q
          /\ elementAt colors (Qfloor steps) = Some (roundClamp c2)))
  /\ (inRange c1 -> roundClamp c1 = c1)
  /\ (inRange c2 -> roundClamp c2 = c2).
Proof.
  intros H.
  assert (E2 : Qltb steps 2 = false) by now apply Qltb_false.
  pose proof (two_le_floor steps H) as Hf.
  assert (Hcount : forall len : nat,
             Z.of_nat len = Qfloor steps + 1 ->
             (steps == inject_Z (Qfloor steps))%Q ->
             (inject_Z (Z.of_nat len) == steps + 1)%Q).
  { intros len Hlen E. rewrite Hlen, inject_Z_plus, <- E. reflexivity. }
  split; [|split; [|split; apply roundClamp_inRange]].
  - exists (bleedColorsP c1 c2 steps interpLinear).
    rewrite colorBleedP_unfold, E2. cbn [interpOrLinear].
    assert (Hlen : Z.of_nat (length (bleedColorsP c1 c2 steps interpLinear))
                   = Qfloor steps + 1) by (rewrite bleedColorsP_length; lia).
    split; [reflexivity|]. split; [exact Hlen|]. split.
    + change 0 with (Z.of_nat 0). rewrite elementAt_nat.
      apply bleedColorsP_first_any. lia.
    + intros E. split; [now apply Hcount|].
      rewrite <- (Z2Nat.id (Qfloor steps)) at 1 by lia. rewrite elementAt_nat.
      apply bleedColorsP_last_whole; [lia | exact E | reflexivity].
  - exists (bleedColorsK c1 c2 steps).
    rewrite colorBleedK_unfold, E2.
    assert (Hlen : Z.of_nat (length (bleedColorsK c1 c2 steps)) = Qfloor steps + 1)
      by (rewrite bleedColorsK_length; lia).
    split; [reflexivity|]. split; [exact Hlen|]. split.
    + change 0 with (Z.of_nat 0). rewrite elementAt_nat.
      apply bleedColorsK_first_any. lia.
    + intros E. split; [now apply Hcount|].
      rewrite <- (Z2Nat.id (Qfloor steps)) at 1 by lia. rewrite elementAt_nat.
      apply bleedColorsK_last_whole; [lia | exact E | reflexivity].
Qed.

Lemma C2_colorBleed_endpoints_witness :
  (2 <= 4)%Q
  /\ (exists colors,
      Part000.colorBleed (RGB 0 0 0) (RGB 255 255 255) (Some 4%Q) None None
        = BleedAll colors
      /\ Z.of_nat (length colors) = 4 + 1
      /\ elementAt colors 0 = Some (roundClamp (RGB 0 0 0))
      /\ elementAt colors 4 = Some (roundClamp (RGB 255 255 255))).
Proof.
  assert (H : (2 <= 4)%Q) by (unfold Qle; cbn; lia).
  split; [exact H|].
  destruct (proj1 (C2_colorBleed_endpoints (RGB 0 0 0) (RGB 255 255 255) 4 H))
    as (colors & E & Hl & H0 & Hn).
  exists colors. split; [exact E|]. split; [exact Hl|]. split; [exact H0|].
  apply Hn. reflexivity.
Defined.

(** C5, as the spec states it, fails for an interpolation function that
    is not exact in the middle: with [randomInterpolate] and the random
    number 1/4 the fallback returns the colour a quarter of the way, not the
    average of the two colours. *)
Lemma C5_colorBleed_fallback_counterexample :
  unsetOrBelowTwo None
  /\ Part000.colorBleed (RGB 0 0 0) (RGB 255 255 255) None None
                        (Some (interpRandom (1 # 4)))
     = BleedStep (Some (RGB 64 64 64))
  /\ midpoint (RGB 0 0 0) (RGB 255 255 255) = RGB 128 128 128
  /\ Part000.colorBleed (RGB 0 0 0) (RGB 255 255 255) None None
                        (Some (interpRandom (1 # 4)))
     <> BleedStep (Some (midpoint (RGB 0 0 0) (RGB 255 255 255))).
Proof.
  assert (E : Part000.colorBleed (RGB 0 0 0) (RGB 255 255 255) None None
                                 (Some (interpRandom (1 # 4)))
              = BleedStep (Some (RGB 64 64 64))) by (vm_compute; reflexivity).
  assert (M : midpoint (RGB 0 0 0) (RGB 255 255 255) = RGB 128 128 128)
    by (vm_compute; reflexivity).
  split; [exact I|]. split; [exact E|]. split; [exact M|].
  rewrite E, M. discriminate.
Qed.

(** C5, amended.  Called with [steps] unset or below 2, [colorBleed] takes
    [steps = 2] and [step = 1] whatever [step] was, and returns a single
    colour, the value of the interpolation function at step 1 of 2, rounded
    and clamped.  It does not throw.  With the linear interpolation, the
    default and the only one of the older script, and with the sine
    interpolation, that colour is the midpoint: the average of the two
    colours, rounded and clamped. *)
Theorem C5_colorBleed_fallback (c1 c2 : Color) (steps : option Q) (step : option Z) :
  unsetOrBelowTwo steps ->
  (forall f,
      Part000.colorBleed c1 c2 steps step f
      = BleedStep
          (Some (mapChannels
                   (fun o d => clampChannel (Math_round (interpOrLinear f 1 2%Q o d)))
                   c1 c2)))
  /\ Part000.colorBleed c1 c2 steps step None = BleedStep (Some (midpoint c1 c2))
  /\ Part000.colorBleed c1 c2 steps step (Some interpLinear)
     = BleedStep (Some (midpoint c1 c2))
  /\ Part000.colorBleed c1 c2 steps step (Some interpSine)
     = BleedStep (Some (midpoint c1 c2))
  /\ Kiianigen.colorBleed c1 c2 steps step = BleedStep (Some (midpoint c1 c2)).
Proof.
  intros H.
  assert (HP : forall f,
             Part000.colorBleed c1 c2 steps step f
             = BleedStep (elementAt (bleedColorsP c1 c2 2 (interpOrLinear f)) 1)).
  { intros f. rewrite colorBleedP_unfold. destruct steps as [n|]; [|reflexivity].
    cbn in H. apply Qltb_true in H. now rewrite H. }
  assert (HK : Kiianigen.colorBleed c1 c2 steps step
               = BleedStep (elementAt (bleedColorsK c1 c2 2) 1)).
  { rewrite colorBleedK_unfold. destruct steps as [n|]; [|reflexivity].
    cbn in H. apply Qltb_true in H. now rewrite H. }
  split; [intros f; now rewrite HP, bleedColorsP_fallback|].
  rewrite !HP, HK. cbn [interpOrLinear].
  now rewrite bleedColorsP_middle, bleedColorsP_sine_middle, bleedColorsK_middle.
Qed.

Lemma C5_colorBleed_fallback_witness :
  unsetOrBelowTwo (Some 0%Q)
  /\ Part000.colorBleed (RGB 0 0 0) (RGB 255 255 255) (Some 0%Q) (Some 7)
                        (Some interpSine)
     = BleedStep (Some (midpoint (RGB 0 0 0) (RGB 255 255 255))).
Proof.
  assert (H : unsetOrBelowTwo (Some 0%Q)) by reflexivity.
  split; [exact H|].
  exact (proj1 (proj2 (proj2 (proj2
           (C5_colorBleed_fallback (RGB 0 0 0) (RGB 255 255 255) (Some 0%Q) (Some 7) H))))).
Defined.

(** C3. Whatever the colours, the step count, the step and the
    interpolation function, every colour [colorBleed] returns is made of
    three channels that were each rounded by [Math.round] and then clamped,
    so each is an integer of [[0, 255]]; hence so is every element of a
    multi-colour bleed.  In both scripts. *)
Theorem C3_channels_in_range :
  (forall c1 c2 steps step f c,
      In c (resultColors (Part000.colorBleed c1 c2 steps step f)) ->
      inRange c
      /\ exists s n,
          c = mapChannels
                (fun o d => clampChannel (Math_round (interpOrLinear f s n o d))) c1 c2)
  /\ (forall c1 c2 steps step c,
      In c (resultColors (Kiianigen.colorBleed c1 c2 steps step)) ->
      inRange c
      /\ exists s n,
          c = mapChannels
                (fun o d =>
                   clampChannel
                     (Math_round (NumQ (inject_Z o + inject_Z s * (inject_Z (d - o) / n)))))
                c1 c2)
  /\ (forall n f colorValues,
      Forall entryInRange (Part000.multiColorBleed n f colorValues))
  /\ (forall n colorValues,
      Forall entryInRange (Kiianigen.multiColorBleed n colorValues)).
Proof.
  split; [|split; [|split]].
  - intros c1 c2 steps step f c H.
    destruct (colorBleedP_colors _ _ _ _ _ _ H) as (n & Hin). split.
    + exact (proj1 (Forall_forall _ _) (bleedColorsP_inRange _ _ _ _) _ Hin).
    + unfold bleedColorsP in Hin. apply in_map_iff in Hin.
      destruct Hin as (s & <- & _). now exists s, n.
  - intros c1 c2 steps step c H.
    destruct (colorBleedK_colors _ _ _ _ _ H) as (n & Hin). split.
    + exact (proj1 (Forall_forall _ _) (bleedColorsK_inRange _ _ _) _ Hin).
    + unfold bleedColorsK in Hin. apply in_map_iff in Hin.
      destruct Hin as (s & <- & _). now exists s, n.
  - intros. apply multiColorBleedP_inRange.
  - intros. apply multiColorBleedK_inRange.
Qed.

Lemma C3_channels_in_range_witness :
  In (RGB 150 0 4)
     (resultColors (Part000.colorBleed (RGB 300 (-20) 7) (RGB 0 0 0) None None None))
  /\ inRange (RGB 150 0 4).
Proof.
  assert (H : In (RGB 150 0 4)
                 (resultColors (Part000.colorBleed (RGB 300 (-20) 7) (RGB 0 0 0)
                                                   None None None)))
    by (vm_compute; left; reflexivity).
  split; [exact H|].
  exact (proj1 (proj1 C3_channels_in_range _ _ _ _ _ _ H)).
Defined.

(** C4, as the spec states it, fails: with [n = 4] and the colours
    [[0,0,0]], [[255,255,255]], [[0,0,255]] the bleed has 12 elements, not
    [3*4 - 3 = 9].  In both scripts. *)
Lemma C4_multiColorBleed_length_counterexample :
  length (Part000.multiColorBleed 4 (Some interpLinear)
            [RGB 0 0 0; RGB 255 255 255; RGB 0 0 255]) = 12%nat
  /\ length (Kiianigen.multiColorBleed 4 [RGB 0 0 0; RGB 255 255 255; RGB 0 0 255])
     = 12%nat
  /\ ~ (forall (n : Z) f c1 c2 c3,
          2 <= n ->
          Z.of_nat (length (Part000.multiColorBleed (inject_Z n) f [c1; c2; c3]))
          = 3 * n - 3).
Proof.
  split; [reflexivity|]. split; [reflexivity|].
  intros H.
  specialize (H 4 (Some interpLinear) (RGB 0 0 0) (RGB 255 255 255) (RGB 0 0 255)).
  rewrite multiColorBleedP_length, framesPerColor_integer in H by lia.
  cbn in H. lia.
Qed.

(** C4, amended.  For every integer [n >= 2] and colours [c1], [c2], [c3],
    [multiColorBleed(n, fn, c1, c2, c3)] has exactly [3*n] elements: three
    segments of [n + 1] colours, less the two shared boundaries, less the
    final pop.  With [n = 4] that is 12.  In both scripts. *)
Theorem C4_multiColorBleed_length (n : Z) (f : option Interp) (c1 c2 c3 : Color) :
  2 <= n ->
  Z.of_nat (length (Part000.multiColorBleed (inject_Z n) f [c1; c2; c3])) = 3 * n
  /\ Z.of_nat (length (Kiianigen.multiColorBleed (inject_Z n) [c1; c2; c3])) = 3 * n.
Proof.
  intros H.
  rewrite multiColorBleedP_length, multiColorBleedK_length, framesPerColor_integer
    by assumption.
  cbn [length]. lia.
Qed.

Lemma C4_multiColorBleed_length_witness :
  2 <= 4
  /\ Z.of_nat (length (Part000.multiColorBleed (inject_Z 4) None
                         [RGB 0 0 0; RGB 255 255 255; RGB 0 0 255])) = 3 * 4.
Proof.
  split; [lia|].
  apply (C4_multiColorBleed_length 4 None (RGB 0 0 0) (RGB 255 255 255) (RGB 0 0 255)).
  lia.
Defined.

(** ** Sine interpolation *)

Lemma sine_angle_range (s n : R) :
  (0 <= s <= n)%R -> (0 < n)%R ->
  (- (PI / 2) <= s / n * PI - PI / 2 <= PI / 2)%R.
Proof.
  intros [H0 H1] Hn. pose proof PI_RGT_0 as Hpi.
  assert (0 <= s / n <= 1)%R as [Ha Hb].
  { split.
    - apply Rmult_le_pos; [assumption | left; now apply Rinv_0_lt_compat].
    - apply (Rmult_le_reg_r n); [assumption|]. unfold Rdiv.
      rewrite Rmult_assoc, Rinv_l, Rmult_1_r, Rmult_1_l by lra. assumption. }
  split; nra.
Qed.

Lemma sine_monotone_factor (s t n : R) :
  (0 <= s)%R -> (s <= t)%R -> (t <= n)%R -> (0 < n)%R ->
  ((sin (s / n * PI - PI / 2) + 1) / 2 <= (sin (t / n * PI - PI / 2) + 1) / 2)%R.
Proof.
  intros H0 Hst Htn Hn. pose proof PI_RGT_0 as Hpi.
  assert (sin (s / n * PI - PI / 2) <= sin (t / n * PI - PI / 2))%R.
  { destruct (sine_angle_range s n) as [? ?]; [lra | assumption |].
    destruct (sine_angle_range t n) as [? ?]; [lra | assumption |].
    apply sin_incr_1; try assumption.
    assert (s / n <= t / n)%R.
    { unfold Rdiv. apply Rmult_le_compat_r; [left; now apply Rinv_0_lt_compat | assumption]. }
    nra. }
  lra.
Qed.

Lemma sine_mirror (s n : R) :
  n <> 0%R ->
  sin ((n - s) / n * PI - PI / 2) = (- sin (s / n * PI - PI / 2))%R.
Proof.
  intros Hn. rewrite <- sin_neg. f_equal. field. assumption.
Qed.

(** C7, as the spec states it, fails: with [s = 0], [n = 1], [a = 0],
    [b = 1] both [sineInterpolate(0, 1, 0, 1)] and
    [sineInterpolate(1 - 0, 1, 1, 0)] are 0, so their sum is 0 and misses
    [a + b = 1] by a whole unit. *)
Lemma C7_sineInterpolate_counterexample :
  sineInterpolate 0 1 0 1 = 0%R
  /\ sineInterpolate (1 - 0) 1 1 0 = 0%R
  /\ Rabs (sineInterpolate 0 1 0 1 + sineInterpolate (1 - 0) 1 1 0 - (0 + 1)) = 1%R.
Proof.
  assert (E1 : sineInterpolate 0 1 0 1 = 0%R).
  { unfold sineInterpolate.
    replace (0 / 1 * PI - PI / 2)%R with (- (PI / 2))%R by field.
    rewrite sin_neg, sin_PI2. field. }
  assert (E2 : sineInterpolate (1 - 0) 1 1 0 = 0%R).
  { unfold sineInterpolate.
    replace ((1 - 0) / 1 * PI - PI / 2)%R with (PI / 2)%R by field.
    rewrite sin_PI2. field. }
  repeat split; try assumption.
  rewrite E1, E2.
  replace (0 + 0 - (0 + 1))%R with (- (1))%R by ring.
  rewrite Rabs_Ropp. apply Rabs_R1.
Qed.

(** C7, amended.  For [0 <= s <= t <= n] with [n > 0], sine interpolation
    is monotonic in the step: it does not decrease from [s] to [t] when
    [a <= b] and does not increase when [b <= a].  It is symmetric with the
    endpoints kept in the same order:
    [sineInterpolate(s, n, a, b) + sineInterpolate(n - s, n, a, b) = a + b];
    swapping the endpoints as well gives the same value back,
    [sineInterpolate(n - s, n, b, a) = sineInterpolate(s, n, a, b)]. *)
Theorem C7_sineInterpolate_monotone_symmetric (s t n a b : R) :
  (0 <= s)%R -> (s <= t)%R -> (t <= n)%R -> (0 < n)%R ->
  ((a <= b)%R -> (sineInterpolate s n a b <= sineInterpolate t n a b)%R)
  /\ ((b <= a)%R -> (sineInterpolate t n a b <= sineInterpolate s n a b)%R)
  /\ (sineInterpolate s n a b + sineInterpolate (n - s) n a b = a + b)%R
  /\ sineInterpolate (n - s) n b a = sineInterpolate s n a b.
Proof.
  intros H0 Hst Htn Hn.
  pose proof (sine_monotone_factor s t n H0 Hst Htn Hn) as Hm.
  unfold sineInterpolate. rewrite sine_mirror by lra.
  repeat split.
  - intros Hab. nra.
  - intros Hab. nra.
  - field.
  - field.
Qed.

Lemma C7_sineInterpolate_monotone_symmetric_witness :
  (0 <= 1)%R /\ (1 <= 2)%R /\ (2 <= 4)%R /\ (0 < 4)%R
  /\ (sineInterpolate 1 4 0 255 + sineInterpolate (4 - 1) 4 0 255 = 0 + 255)%R.
Proof.
  assert (H0 : (0 <= 1)%R) by lra.
  assert (H1 : (1 <= 2)%R) by lra.
  assert (H2 : (2 <= 4)%R) by lra.
  assert (H3 : (0 < 4)%R) by lra.
  repeat split; try assumption.
  exact (proj1 (proj2 (proj2
           (C7_sineInterpolate_monotone_symmetric 1 2 4 0 255 H0 H1 H2 H3)))).
Defined.

(** ** Sorted frames *)

(** C9. For every step count and every list of colours,
    [verticalPulseWithTracers] returns an animation with at least one
    frame, and each of its frames is the join of what [sortPixelFrame] has
    made of the commands pushed for that frame: the same commands, each as
    often as it was pushed, in nondecreasing order of the pixel id each
    command carries. *)
Theorem C9_verticalPulse_frames_sorted (stepsPerColor : option Z) (colors : list Color) :
  exists sortedFrames a,
    Part000.verticalPulseFrames stepsPerColor colors = Some sortedFrames
    /\ Part000.verticalPulseWithTracers stepsPerColor colors = Some a
    /\ frames a = map (join ",") sortedFrames
    /\ sortedFrames <> []
    /\ Forall2 (fun pushed sorted => Permutation pushed sorted /\ sortedById sorted)
               (verticalPulsePushed stepsPerColor colors) sortedFrames
    /\ Forall sortedById sortedFrames.
Proof.
  destruct (verticalPulseFrames_defined stepsPerColor colors) as (fs & E & Hne & Hs).
  destruct (verticalPulseFrames_perm stepsPerColor colors) as (fs' & E' & Hperm).
  assert (fs' = fs) by congruence. subst fs'.
  exists fs. unfold Part000.verticalPulseWithTracers. rewrite E. cbn [option_map].
  eexists. split; [reflexivity|]. split; [reflexivity|]. split; [reflexivity|].
  split; [exact Hne|]. split; [exact Hperm | exact Hs].
Qed.

(** ** The noise generator *)

(** C8, as the spec states it, fails: called with [maxFrames = 5],
    [whiteNoise] returns 5 frames, not 6; there is no background frame.
    [dodgyPixel], the generator that does start with a background frame,
    takes no [maxFrames] and returns 101 frames. *)
Lemma C8_noise_frames_counterexample :
  option_map (fun r => length (frames (fst r)))
             (Part000.whiteNoise sampleEnv (Some 5) 0%nat) = Some 5%nat
  /\ option_map (fun r => length (frames (fst r)))
                (Part000.whiteNoise sampleEnv (Some 5) 0%nat) <> Some 6%nat
  /\ option_map (fun r => length (frames (fst r)))
                (Part000.dodgyPixel sampleEnv None None 0%nat) = Some 101%nat.
Proof.
  assert (E : option_map (fun r => length (frames (fst r)))
                         (Part000.whiteNoise sampleEnv (Some 5) 0%nat) = Some 5%nat)
    by (vm_compute; reflexivity).
  split; [exact E|]. split; [rewrite E; discriminate | vm_compute; reflexivity].
Qed.

(** C8, amended.  With an oracle that answers in [[0, 1)], [whiteNoise]
    called with [maxFrames = 5] returns exactly 5 frames and no background
    frame; each frame gives the pixel ids 1 to 119 a grey level, and every
    level is an integer from 0 and strictly below the cap 153.  In both
    scripts. *)
Theorem C8_whiteNoise_frames (env : Env) (n : nat) :
  (forall k, (0 <= random env k)%Q /\ (random env k < 1)%Q) ->
  exists a n' levels,
    Part000.whiteNoise env (Some 5) n = Some (a, n')
    /\ Kiianigen.whiteNoise env (Some 5) n = Some (a, n')
    /\ frames a = map noiseFrame levels
    /\ length levels = 5%nat
    /\ Forall (fun frame => length frame = 119%nat
                            /\ Forall (fun v => 0 <= v < 153) frame) levels.
Proof.
  intros Hr.
  destruct (whiteNoise_returns env 5 Hr ltac:(lia) n)
    as (a & n' & E & _ & _ & levels & Hf & Hl & Hv).
  exists a, n', levels. rewrite whiteNoise_same. repeat split; assumption.
Qed.

Lemma C8_whiteNoise_frames_witness :
  (forall k, (0 <= random sampleEnv k)%Q /\ (random sampleEnv k < 1)%Q)
  /\ exists a n' levels,
      Part000.whiteNoise sampleEnv (Some 5) 0%nat = Some (a, n')
      /\ Kiianigen.whiteNoise sampleEnv (Some 5) 0%nat = Some (a, n')
      /\ frames a = map noiseFrame levels
      /\ length levels = 5%nat
      /\ Forall (fun frame => length frame = 119%nat
                              /\ Forall (fun v => 0 <= v < 153) frame) levels.
Proof.
  assert (H : forall k, (0 <= random sampleEnv k)%Q /\ (random sampleEnv k < 1)%Q).
  { intros k. unfold Qle, Qlt. cbn. lia. }
  split; [exact H|]. exact (C8_whiteNoise_frames sampleEnv 0%nat H).
Defined.

(** ** Every generator returns an animation *)

(** C10, as stated, fails: [whiteNoise] called with [maxFrames = -1] returns
    an animation whose [frames] is the empty array.  In both scripts. *)
Lemma C10_generator_output_counterexample :
  (exists a n', Part000.invoke sampleEnv (Part000.CallWhiteNoise (Some (-1))) 0%nat
                = Some (a, n') /\ frames a = [])
  /\ (exists a n', Kiianigen.invoke sampleEnv (Kiianigen.CallWhiteNoise (Some (-1))) 0%nat
                   = Some (a, n') /\ frames a = []).
Proof.
  split; (eexists; eexists; split; [vm_compute; reflexivity | reflexivity]).
Qed.

(** C10, amended.  Every generator of the registry, for every choice of its
    parameters and of the device data, returns without throwing an
    animation whose type is ["animation"] and whose settings hold the tokens
    [loop] and [replace:all]; its [frames] is a non-empty array of strings
    unless the call is [whiteNoise] with a negative [maxFrames], where
    [frames] is empty.  In both scripts. *)
Theorem C10_generator_output (env : Env) :
  (forall c, ~ negativeFramesP c -> returns (Part000.invoke env c) wellFormed)
  /\ (forall c, negativeFramesP c ->
                returns (Part000.invoke env c) (fun a => tagged a /\ frames a = []))
  /\ (forall c, ~ negativeFramesK c -> returns (Kiianigen.invoke env c) wellFormed)
  /\ (forall c, negativeFramesK c ->
                returns (Kiianigen.invoke env c) (fun a => tagged a /\ frames a = [])).
Proof.
  repeat split.
  - apply invokeP_wellFormed.
  - intros c Hc. destruct c; try contradiction. destruct maxFrames as [m|]; [|contradiction].
    now apply whiteNoise_negative.
  - apply invokeK_wellFormed.
  - intros c Hc. destruct c; try contradiction. destruct maxFrames as [m|]; [|contradiction].
    cbn [Kiianigen.invoke]. rewrite whiteNoise_same. now apply whiteNoise_negative.
Qed.

Lemma C10_generator_output_witness :
  ~ negativeFramesP (Part000.CallKitt2000 None None (Some 1))
  /\ returns (Part000.invoke sampleEnv (Part000.CallKitt2000 None None (Some 1))) wellFormed.
Proof.
  assert (H : ~ negativeFramesP (Part000.CallKitt2000 None None (Some 1)))
    by (intros H; exact H).
  split; [exact H|].
  exact (proj1 (C10_generator_output sampleEnv) _ H).
Defined.

(** ** The [all] pseudo-generator *)

(** C6. Invoked with [all], [main] calls every generator of the registry
    whose name does not mark it as excluded (no ['!'] in the name; that is
    all of them) and stores the result under the generator's name: the
    animations object then holds, for every registered generator, the
    animation that generator returned, with a non-empty [frames]; every
    other property is as before, and no name occurs twice.  A registry
    entry whose name holds ['!'] is skipped.  In both scripts. *)
Theorem C6_all_generators (env : Env) (animOrig : AnimMap) (n : nat) :
  (exists result n',
      Part000.generate env "all" animOrig n = Some (Generated result, n')
      /\ (forall c, In c Part000.callsWithoutArguments ->
            notExcluded (Part000.callName c) = true
            /\ exists a k k',
                Part000.invoke env c k = Some (a, k')
                /\ getProp result (Part000.callName c) = Some a
                /\ frames a <> [])
      /\ (forall g, ~ In g (map Part000.callName Part000.callsWithoutArguments) ->
            getProp result g = getProp animOrig g)
      /\ (NoDup (map fst animOrig) -> NoDup (map fst result)))
  /\ (exists result n',
      Kiianigen.generate env "all" animOrig n = Some (Generated result, n')
      /\ (forall c, In c Kiianigen.callsWithoutArguments ->
            notExcluded (Kiianigen.callName c) = true
            /\ exists a k k',
                Kiianigen.invoke env c k = Some (a, k')
                /\ getProp result (Kiianigen.callName c) = Some a
                /\ frames a <> [])
      /\ (forall g, ~ In g (map Kiianigen.callName Kiianigen.callsWithoutArguments) ->
            getProp result g = getProp animOrig g)
      /\ (NoDup (map fst animOrig) -> NoDup (map fst result)))
  /\ (forall gens g gen animations k,
        notExcluded g = false ->
        generateAll ((g, gen) :: gens) animations k = generateAll gens animations k).
Proof.
  destruct (generators_NoDup env) as [HndP HndK].
  destruct (generators_not_excluded env) as [HexP HexK].
  split; [|split].
  - destruct (generateAll_spec wellFormed (Part000.generators env) HndP
                (generatorsP_returns env) animOrig n) as (result & n' & E & H1 & H2 & H3).
    exists result, n'. rewrite generateP_all, E. repeat split.
    + rewrite generatorsP_names in HexP.
      exact (proj1 (Forall_forall _ _) HexP _ (in_map _ _ _ H)).
    + rewrite generatorsP_names in HexP.
      pose proof (proj1 (Forall_forall _ _) HexP _ (in_map _ _ _ H)) as Hex.
      destruct (H1 (Part000.callName c) (Part000.invoke env c)) as (a & k & k' & Ek & Eg & Hw).
      * unfold Part000.generators. apply in_map_iff. exists c. split; [reflexivity | exact H].
      * assumption.
      * exists a, k, k'. repeat split; [assumption | assumption | apply Hw].
    + intros g Hg. apply H2. left. now rewrite generatorsP_names.
    + assumption.
  - destruct (generateAll_spec wellFormed (Kiianigen.generators env) HndK
                (generatorsK_returns env) animOrig n) as (result & n' & E & H1 & H2 & H3).
    exists result, n'. rewrite generateK_all, E. repeat split.
    + rewrite generatorsK_names in HexK.
      exact (proj1 (Forall_forall _ _) HexK _ (in_map _ _ _ H)).
    + rewrite generatorsK_names in HexK.
      pose proof (proj1 (Forall_forall _ _) HexK _ (in_map _ _ _ H)) as Hex.
      destruct (H1 (Kiianigen.callName c) (Kiianigen.invoke env c))
        as (a & k & k' & Ek & Eg & Hw).
      * unfold Kiianigen.generators. apply in_map_iff. exists c. split; [reflexivity | exact H].
      * assumption.
      * exists a, k, k'. repeat split; [assumption | assumption | apply Hw].
    + intros g Hg. apply H2. left. now rewrite generatorsK_names.
    + assumption.
  - intros gens g gen animations k Hg. cbn [generateAll]. now rewrite Hg.
Qed.

Lemma C6_all_generators_witness :
  In Part000.CallRgbPulse Part000.callsWithoutArguments
  /\ exists result n',
      Part000.generate sampleEnv "all" [] 0%nat = Some (Generated result, n')
      /\ exists a, getProp result "rgbPulse" = Some a /\ frames a <> [].
Proof.
  assert (Hin : In Part000.CallRgbPulse Part000.callsWithoutArguments).
  { unfold Part000.callsWithoutArguments. cbn [In]. tauto. }
  split; [exact Hin|].
  destruct (C6_all_generators sampleEnv [] 0%nat)
    as [(result & n' & E & Hall & _) _].
  exists result, n'. split; [exact E|].
  destruct (Hall _ Hin) as (_ & a & _ & _ & _ & Eg & Hf).
  exists a. split; [exact Eg | exact Hf].
Defined.

(* ================================================================== *)
(** * Further properties of the code *)

(** ** Pixel ids and [sortPixelFrame] *)

Lemma matchBracketDigits_noBracket (s : string) :
  noBracket s = true -> matchBracketDigits s = None.
Proof.
  induction s as [|c rest IH]; cbn; [reflexivity|].
  destruct (Ascii.eqb c "["); cbn; [discriminate | exact IH].
Qed.

Lemma noBracket_app (a b : string) :
  noBracket (a ++ b) = noBracket a && noBracket b.
Proof.
  induction a as [|c rest IH]; cbn; [reflexivity|].
  rewrite IH. now rewrite andb_assoc.
Qed.

Lemma noBracket_uint (d : Decimal.uint) : noBracket (NilEmpty.string_of_uint d) = true.
Proof. induction d; cbn; auto. Qed.

Lemma noBracket_string_of_Z (z : Z) : noBracket (string_of_Z z) = true.
Proof.
  unfold string_of_Z.
  destruct (Z.to_int z) as [d|d]; cbn;
    (destruct d; [reflexivity | apply (noBracket_uint (_ d)) ..]).
Qed.

Lemma noBracket_join (sep : string) (l : list string) :
  noBracket sep = true -> Forall (fun s => noBracket s = true) l ->
  noBracket (join sep l) = true.
Proof.
  intros Hsep H. induction H as [|x l Hx Hl IH]; [reflexivity|].
  destruct l as [|y l']; [exact Hx|].
  change (join sep (x :: y :: l')) with (x ++ sep ++ join sep (y :: l')).
  now rewrite !noBracket_app, Hx, Hsep, IH.
Qed.

(** A command whose bracket does not open on a digit has no id. *)
Lemma pixelId_no_digit (s : string) :
  (exists c rest, s = String c rest /\ isDigit c = false) ->
  noBracket s = true ->
  pixelId (String "P" (String "[" s)) = None.
Proof.
  intros (c & rest & -> & Hd) Hb. unfold pixelId.
  change (matchBracketDigits (String "P" (String "[" (String c rest))))
    with (match spanDigits (String c rest) with
          | (String d ds, String after _) =>
              if Ascii.eqb after "]" then Some (String d ds)
              else matchBracketDigits (String c rest)
          | _ => matchBracketDigits (String c rest)
          end).
  cbn [spanDigits]. rewrite Hd.
  now rewrite (matchBracketDigits_noBracket _ Hb).
Qed.

Lemma string_of_Z_negative (z : Z) :
  z < 0 -> exists t, string_of_Z z = String "-" t.
Proof.
  intros H. destruct z; try lia. unfold string_of_Z. cbn. eauto.
Qed.

Lemma noBracket_toString (v : JsPrim) : plainPrim (Some v) -> noBracket (toString v) = true.
Proof. destruct v; cbn; [intros _; apply noBracket_string_of_Z | auto]. Qed.

(** X1: what [getPixel] writes for a pixel id that is not negative, the
    comparison function of [sortPixelFrame] reads back: the regular
    expression matches the decimal text of the id, [parseInt] turns that
    text into the id, and so the key of the command is the id it was built
    from. *)
Theorem X1_pixelId_of_getPixel (r g b : option Z) (id : Z) :
  0 <= id ->
  matchBracketDigits (getPixel None None r g b (Some id)) = Some (string_of_Z id)
  /\ parseInt (string_of_Z id) = Some id
  /\ pixelId (getPixel None None r g b (Some id)) = Some id.
Proof.
  intros H.
  assert (Hparse : parseInt (string_of_Z id) = Some id).
  { destruct (string_of_Z_nonneg id H) as (d & _ & -> & Hv).
    unfold parseInt. rewrite NilEmpty.usu. cbn [option_map]. now rewrite Hv. }
  assert (Hmatch : matchBracketDigits (getPixel None None r g b (Some id))
                   = Some (string_of_Z id)).
  { destruct (getPixel_id_shape r g b id) as (tail & ->).
    destruct (string_of_Z_nonneg id H) as (d & Hd & -> & _).
    cbn [matchBracketDigits].
    change (Ascii.eqb "P" "[") with false. change (Ascii.eqb "[" "[") with true.
    cbv iota. rewrite spanDigits_uint.
    destruct (string_of_uint_nonempty d Hd) as (c & s & ->).
    change (Ascii.eqb "]" "]") with true. reflexivity. }
  split; [exact Hmatch|]. split; [exact Hparse|].
  unfold pixelId. now rewrite Hmatch.
Qed.

Lemma X1_pixelId_of_getPixel_witness :
  0 <= 119 /\ pixelId (getPixel None None (Some 0) None (Some 255) (Some 119)) = Some 119.
Proof.
  split; [lia|].
  exact (proj2 (proj2 (X1_pixelId_of_getPixel (Some 0) None (Some 255) 119 ltac:(lia)))).
Defined.

Lemma getPixel_shape row col r g b id :
  getPixel row col r g b id
  = String "P" (String "["
      (join "," (app (app (pushIfDefined (fun v => "r:" ++ toString v) row)
                          (pushIfDefined (fun v => "c:" ++ toString v) col))
                     (pushIfDefined string_of_Z id))
       ++ "](" ++ join "," (map string_of_Z [orZero r; orZero g; orZero b]) ++ ")")).
Proof. reflexivity. Qed.

(** X2: a command addressed by row or column, or built without an id or
    with a negative one, has no bracketed digits: the comparison function of
    [sortPixelFrame] finds no match on it. *)
Theorem X2_pixelId_missing (row col : option JsPrim) (r g b : option Z)
    (id : option Z) :
  plainPrim row -> plainPrim col ->
  (row <> None \/ col <> None
   \/ match id with
      | Some n => n < 0
      | None => True
      end) ->
  pixelId (getPixel row col r g b id) = None.
Proof.
  intros Hrow Hcol H. rewrite getPixel_shape.
  apply pixelId_no_digit.
  - destruct row as [rw|].
    { destruct col, id; cbn [pushIfDefined app join append]; eauto. }
    destruct col as [cl|].
    { destruct id; cbn [pushIfDefined app join append]; eauto. }
    destruct id as [n|]; cbn [pushIfDefined app join append].
    + destruct H as [H|[H|H]]; try congruence.
      destruct (string_of_Z_negative n H) as [t ->]. cbn [append]. eauto.
    + eauto.
  - rewrite noBracket_app. apply andb_true_intro. split.
    + apply noBracket_join; [reflexivity|].
      apply Forall_app; split.
      * apply Forall_app; split.
        -- destruct row as [rw|]; cbn [pushIfDefined]; repeat constructor.
           cbn. exact (noBracket_toString _ Hrow).
        -- destruct col as [cl|]; cbn [pushIfDefined]; repeat constructor.
           cbn. exact (noBracket_toString _ Hcol).
      * destruct id; cbn [pushIfDefined]; repeat constructor.
        apply noBracket_string_of_Z.
    + cbn [map join]. rewrite !noBracket_app, !noBracket_string_of_Z. reflexivity.
Qed.

Lemma X2_pixelId_missing_witness :
  plainPrim (Some (JNum 2)) /\ plainPrim (Some (JStr "-2%"))
  /\ pixelId (getPixel (Some (JNum 2)) (Some (JStr "-2%")) (Some 1) (Some 2) (Some 3) (Some 5))
     = None.
Proof.
  split; [exact I|]. split; [reflexivity|].
  apply X2_pixelId_missing; [exact I | reflexivity | left; discriminate].
Defined.

Lemma forEachOpt_None {A B : Type} (l : list A) (body : A -> option B) :
  forEachOpt l body = None <-> exists a, In a l /\ body a = None.
Proof.
  induction l as [|x l IH]; cbn.
  - split; [discriminate | intros (a & [] & _)].
  - destruct (body x) eqn:E.
    + destruct (forEachOpt l body) eqn:E'; cbn.
      * split; [discriminate|]. intros (a & [<-|Ha] & Hb); [congruence|].
        assert (Some l0 = None) by (apply IH; eauto). discriminate.
      * split; [|reflexivity]. intros _.
        destruct (proj1 IH eq_refl) as (a & Ha & Hb). eauto.
    + split; [|reflexivity]. intros _. eauto.
Qed.

Lemma hasId_keys (frame : list string) :
  Forall hasId frame -> exists keys, forEachOpt frame pixelId = Some keys.
Proof. apply forEachOpt_pixelId. Qed.

(** X3: on a frame whose commands all carry a pixel id of at most 2^53,
    up to where the keys [parseInt] returns are exact, [sortPixelFrame] does
    not throw; it leaves the same commands, each as often as before, in an
    order where the ids do not decrease. *)
Theorem X3_sortPixelFrame_sorts (frame : list string) :
  Forall hasExactId frame ->
  exists sorted,
    Part000.sortPixelFrame frame = Some sorted
    /\ Permutation frame sorted
    /\ length sorted = length frame
    /\ sortedById sorted
    /\ Forall hasExactId sorted.
Proof.
  intros H.
  assert (Hid : Forall hasId frame).
  { apply Forall_forall. intros cmd Hin.
    destruct (proj1 (Forall_forall _ _) H cmd Hin) as (id & E & _). now exists id. }
  destruct (hasId_keys frame Hid) as [keys Hk].
  destruct (sortPixelFrame_sorted frame keys Hk) as (sorted & Hs & Hp & Ho).
  exists sorted. split; [exact Hs|]. split; [exact Hp|].
  split; [symmetry; now apply Permutation_length|]. split; [exact Ho|].
  exact (Permutation_Forall Hp H).
Qed.

Lemma X3_sortPixelFrame_sorts_witness :
  Forall hasExactId ["P[7](1,2,3)"; "P[3](0,0,0)"; "P[5](9,9,9)"]
  /\ exists sorted,
      Part000.sortPixelFrame ["P[7](1,2,3)"; "P[3](0,0,0)"; "P[5](9,9,9)"] = Some sorted
      /\ Permutation ["P[7](1,2,3)"; "P[3](0,0,0)"; "P[5](9,9,9)"] sorted
      /\ length sorted = 3%nat
      /\ sortedById sorted.
Proof.
  assert (H : Forall hasExactId ["P[7](1,2,3)"; "P[3](0,0,0)"; "P[5](9,9,9)"]).
  { repeat constructor; eexists; (split; [vm_compute; reflexivity | lia]). }
  split; [exact H|].
  destruct (X3_sortPixelFrame_sorts _ H) as (sorted & A & B & C & D & _).
  exists sorted. split; [exact A|]. split; [exact B|]. split; [exact C | exact D].
Defined.

(** X4: [sortPixelFrame] does not work with row column defined pixels,
    as its comment says.  A frame of fewer than two commands is never
    compared and is returned as it is.  On a frame of two or more commands
    the script throws as soon as one of them is a command [getPixel] built
    with a row or a column, or without a pixel id that is not negative; and
    it throws on no other frames than those with a command without a
    bracketed id. *)
Theorem X4_sortPixelFrame_throws :
  (forall frame, (length frame < 2)%nat -> Part000.sortPixelFrame frame = Some frame)
  /\ (forall front back row col r g b id,
        plainPrim row -> plainPrim col ->
        (row <> None \/ col <> None
         \/ match id with
            | Some n => n < 0
            | None => True
            end) ->
        (1 <= length front + length back)%nat ->
        Part000.sortPixelFrame (app front (getPixel row col r g b id :: back)) = None)
  /\ (forall frame,
        Part000.sortPixelFrame frame = None ->
        (2 <= length frame)%nat /\ exists cmd, In cmd frame /\ pixelId cmd = None).
Proof.
  split; [|split].
  - intros [|a [|b rest]] H; [reflexivity | reflexivity | cbn in H; lia].
  - intros front back row col r g b id Hrow Hcol H Hlen.
    assert (Hnone : pixelId (getPixel row col r g b id) = None).
    { rewrite getPixel_shape.
      apply pixelId_no_digit.
      - destruct row as [rw|].
        { destruct col, id; cbn [pushIfDefined app join append]; eauto. }
        destruct col as [cl|].
        { destruct id; cbn [pushIfDefined app join append]; eauto. }
        destruct id as [n|]; cbn [pushIfDefined app join append].
        + destruct H as [H|[H|H]]; try congruence.
          destruct (string_of_Z_negative n H) as [t ->]. cbn [append]. eauto.
        + eauto.
      - rewrite noBracket_app. apply andb_true_intro. split.
        + apply noBracket_join; [reflexivity|].
          apply Forall_app; split.
          * apply Forall_app; split.
            -- destruct row as [rw|]; cbn [pushIfDefined]; repeat constructor.
               cbn. exact (noBracket_toString _ Hrow).
            -- destruct col as [cl|]; cbn [pushIfDefined]; repeat constructor.
               cbn. exact (noBracket_toString _ Hcol).
          * destruct id; cbn [pushIfDefined]; repeat constructor.
            apply noBracket_string_of_Z.
        + cbn [map join]. rewrite !noBracket_app, !noBracket_string_of_Z. reflexivity.
    }
    assert (Hin : In (getPixel row col r g b id)
                     (app front (getPixel row col r g b id :: back)))
      by apply in_elt.
    assert (Hl : (2 <= length (app front (getPixel row col r g b id :: back)))%nat)
      by (rewrite length_app; cbn [length]; lia).
    destruct (app front (getPixel row col r g b id :: back)) as [|x [|y rest]];
      [cbn in Hl; lia | cbn in Hl; lia |].
    unfold Part000.sortPixelFrame.
    assert (E : forEachOpt (x :: y :: rest) pixelId = None)
      by (apply forEachOpt_None; eauto).
    now rewrite E.
  - intros [|a [|b rest]] H; [discriminate H | discriminate H |].
    unfold Part000.sortPixelFrame in H.
    destruct (forEachOpt (a :: b :: rest) pixelId) as [keys|] eqn:E;
      [discriminate H|].
    split; [cbn; lia | now apply forEachOpt_None].
Qed.

Lemma sortByKey_of_sorted (l : list (Z * string)) : Sorted keyLe l -> sortByKey l = l.
Proof.
  induction 1 as [|x l Hl IH Hx]; [reflexivity|].
  change (sortByKey (x :: l)) with (insertByKey x (sortByKey l)). rewrite IH.
  destruct Hx as [|y l' Hxy]; [reflexivity|].
  cbn. unfold keyLe in Hxy. apply Z.leb_le in Hxy. now rewrite Hxy.
Qed.

Lemma combine_fst_snd {A B : Type} (l : list (A * B)) :
  combine (map fst l) (map snd l) = l.
Proof. induction l as [|[a b] l IH]; cbn; [reflexivity | now rewrite IH]. Qed.

(** X5: sorting a sorted frame changes nothing ([Array.prototype.sort] is
    stable): what [sortPixelFrame] leaves, a second call leaves as it is. *)
Theorem X5_sortPixelFrame_idempotent (frame sorted : list string) :
  Part000.sortPixelFrame frame = Some sorted ->
  Part000.sortPixelFrame sorted = Some sorted.
Proof.
  intros H.
  destruct frame as [|a [|b rest]]; try (cbn in H; injection H as <-; reflexivity).
  unfold Part000.sortPixelFrame in H.
  destruct (forEachOpt (a :: b :: rest) pixelId) as [keys|] eqn:E; [|discriminate].
  cbn [option_map] in H. injection H as <-.
  destruct (forEachOpt_keys _ _ E) as [Hlen Hpairs].
  set (ps := sortByKey (combine keys (a :: b :: rest))).
  assert (Hperm : Permutation (combine keys (a :: b :: rest)) ps) by apply sortByKey_perm.
  assert (Hsorted : Sorted keyLe ps) by apply sortByKey_sorted.
  assert (Hps : Forall (fun p => pixelId (snd p) = Some (fst p)) ps).
  { eapply Permutation_Forall; eassumption. }
  assert (Hl : length (map snd ps) = S (S (length rest))).
  { rewrite length_map, <- (Permutation_length Hperm), length_combine, Hlen.
    cbn. lia. }
  unfold Part000.sortPixelFrame.
  destruct (map snd ps) as [|x [|y l]] eqn:Em; try (cbn in Hl; lia).
  rewrite <- Em, (forEachOpt_of_pairs ps Hps). cbn [option_map].
  now rewrite combine_fst_snd, (sortByKey_of_sorted ps Hsorted).
Qed.

Lemma X5_sortPixelFrame_idempotent_witness :
  Part000.sortPixelFrame ["P[7](1,2,3)"; "P[3](0,0,0)"; "P[3](9,9,9)"]
  = Some ["P[3](0,0,0)"; "P[3](9,9,9)"; "P[7](1,2,3)"]
  /\ Part000.sortPixelFrame ["P[3](0,0,0)"; "P[3](9,9,9)"; "P[7](1,2,3)"]
     = Some ["P[3](0,0,0)"; "P[3](9,9,9)"; "P[7](1,2,3)"].
Proof.
  assert (H : Part000.sortPixelFrame ["P[7](1,2,3)"; "P[3](0,0,0)"; "P[3](9,9,9)"]
              = Some ["P[3](0,0,0)"; "P[3](9,9,9)"; "P[7](1,2,3)"])
    by (vm_compute; reflexivity).
  split; [exact H|]. exact (X5_sortPixelFrame_idempotent _ _ H).
Defined.

(** ** The colours of a bleed *)

Lemma Math_round_le (p q : Q) : (p <= q)%Q -> Math_round (NumQ p) <= Math_round (NumQ q).
Proof. intros H. unfold Math_round. apply Qfloor_resp_le. Lqa.lra. Qed.

Lemma Math_round_between (lo hi : Z) (q : Q) :
  (inject_Z lo <= q)%Q -> (q <= inject_Z hi)%Q -> lo <= Math_round (NumQ q) <= hi.
Proof.
  intros H1 H2. split.
  - rewrite <- (Math_round_integer lo). now apply Math_round_le.
  - rewrite <- (Math_round_integer hi). now apply Math_round_le.
Qed.

Lemma Math_round_real_between (lo hi : Z) (r : R) :
  (IZR lo <= r)%R -> (r <= IZR hi)%R -> lo <= Math_round (NumR r) <= hi.
Proof.
  intros H1 H2. unfold Math_round.
  destruct (base_Int_part (r + / 2)) as [Ha Hb].
  split.
  - apply Z.lt_succ_r, lt_IZR. rewrite succ_IZR. lra.
  - apply Z.lt_succ_r, lt_IZR. rewrite succ_IZR. lra.
Qed.

Lemma Math_round_real_integer (z : Z) : Math_round (NumR (IZR z)) = z.
Proof.
  pose proof (Math_round_real_between z z (IZR z)) as H.
  assert (z <= Math_round (NumR (IZR z)) <= z) by (apply H; lra). lia.
Qed.

Lemma fraction_unit (s : Z) (n : Q) :
  0 <= s -> (inject_Z s <= n)%Q -> (0 < n)%Q ->
  (0 <= inject_Z s / n)%Q /\ (inject_Z s / n <= 1)%Q.
Proof.
  intros Hs Hle Hn.
  assert (0 <= inject_Z s)%Q by (change 0%Q with (inject_Z 0); now rewrite <- Zle_Qle).
  split.
  - apply Qle_shift_div_l; [exact Hn | Lqa.lra].
  - apply Qle_shift_div_r; [exact Hn | Lqa.lra].
Qed.

Lemma inject_Z_min_max (o d : Z) :
  (inject_Z (Z.min o d) <= inject_Z o)%Q /\ (inject_Z (Z.min o d) <= inject_Z d)%Q
  /\ (inject_Z o <= inject_Z (Z.max o d))%Q /\ (inject_Z d <= inject_Z (Z.max o d))%Q
  /\ ((inject_Z (Z.min o d) == inject_Z o)%Q /\ (inject_Z (Z.max o d) == inject_Z d)%Q
      \/ (inject_Z (Z.min o d) == inject_Z d)%Q /\ (inject_Z (Z.max o d) == inject_Z o)%Q).
Proof.
  rewrite <- !Zle_Qle.
  repeat split; try lia.
  destruct (Z.le_ge_cases o d).
  - left. rewrite Z.min_l, Z.max_r by lia. split; reflexivity.
  - right. rewrite Z.min_r, Z.max_l by lia. split; reflexivity.
Qed.

Lemma convex_between (lo hi o d t : Q) :
  (0 <= t)%Q -> (t <= 1)%Q ->
  ((lo == o)%Q /\ (hi == d)%Q \/ (lo == d)%Q /\ (hi == o)%Q) ->
  (lo <= o)%Q -> (lo <= d)%Q -> (o <= hi)%Q -> (d <= hi)%Q ->
  (lo <= (d - o) * t + o)%Q /\ ((d - o) * t + o <= hi)%Q.
Proof.
  intros Ht0 Ht1 [[E1 E2]|[E1 E2]] H1 H2 H3 H4; rewrite E1, E2 in *; split; Lqa.nra.
Qed.

Lemma linear_staysBetween : staysBetween interpLinear.
Proof.
  intros s n o d Hs Hle Hn. unfold interpLinear, linearInterpolate.
  destruct (fraction_unit s n Hs Hle Hn) as [Ht0 Ht1].
  destruct (inject_Z_min_max o d) as (H1 & H2 & H3 & H4 & H5).
  apply Math_round_between;
    now apply (convex_between (inject_Z (Z.min o d)) (inject_Z (Z.max o d))).
Qed.


Lemma sine_staysBetween : staysBetween interpSine.
Proof.
  intros s n o d _ _ _. unfold interpSine, sineInterpolate.
  pose proof (SIN_bound (IZR s / Q2R n * PI - PI / 2)) as [Hlo Hhi].
  apply Math_round_real_between.
  - destruct (Z.le_ge_cases o d) as [H|H].
    + rewrite Z.min_l by lia. apply IZR_le in H. nra.
    + rewrite Z.min_r by lia. apply IZR_le in H. nra.
  - destruct (Z.le_ge_cases o d) as [H|H].
    + rewrite Z.max_r by lia. apply IZR_le in H. nra.
    + rewrite Z.max_l by lia. apply IZR_le in H. nra.
Qed.

Lemma random_staysBetween (u : Q) :
  (0 <= u)%Q -> (u <= 1)%Q -> staysBetween (interpRandom u).
Proof.
  intros Hu0 Hu1 s n o d _ _ _. unfold interpRandom, randomInterpolate.
  destruct (inject_Z_min_max o d) as (H1 & H2 & H3 & H4 & H5).
  apply Math_round_between;
    now apply (convex_between (inject_Z (Z.min o d)) (inject_Z (Z.max o d))).
Qed.

Lemma clampChannel_between (o d v : Z) :
  Z.min o d <= v <= Z.max o d ->
  Z.min (clampChannel o) (clampChannel d) <= clampChannel v
  <= Z.max (clampChannel o) (clampChannel d).
Proof. unfold clampChannel. lia. Qed.

Lemma loopUpTo_In (s : Z) (n : Q) :
  In s (loopUpTo n) -> 0 <= s /\ (inject_Z s <= n)%Q.
Proof.
  unfold loopUpTo. rewrite in_map_iff. intros (k & <- & Hk).
  apply in_seq in Hk. split; [lia|].
  apply Qle_trans with (inject_Z (Qfloor n)); [|apply Qfloor_le].
  rewrite <- Zle_Qle. lia.
Qed.

Lemma bleedColorsP_between c1 c2 (n : Q) (f : Interp) :
  (0 < n)%Q -> staysBetween f -> Forall (channelsBetween c1 c2) (bleedColorsP c1 c2 n f).
Proof.
  intros Hn Hf. apply Forall_forall. intros c Hc.
  unfold bleedColorsP in Hc. apply in_map_iff in Hc. destruct Hc as (s & <- & Hs).
  destruct (loopUpTo_In s n Hs) as [Hs0 Hsn].
  destruct c1 as [r1 g1 b1], c2 as [r2 g2 b2]. cbn [mapChannels channelsBetween].
  repeat split; apply clampChannel_between, Hf; assumption.
Qed.

Lemma bleedColorsK_linear c1 c2 (n : Q) :
  ~ (n == 0)%Q -> bleedColorsK c1 c2 n = bleedColorsP c1 c2 n interpLinear.
Proof.
  intros Hn. unfold bleedColorsK, bleedColorsP. apply map_ext. intros s.
  assert (E : forall o d,
             Math_round (NumQ (inject_Z o + inject_Z s * (inject_Z (d - o) / n)))
             = Math_round (interpLinear s n o d)).
  { intros o d. apply Math_round_Qeq. unfold linearInterpolate, Zminus.
    rewrite inject_Z_plus, inject_Z_opp. field. exact Hn. }
  destruct c1, c2. cbn [mapChannels]. now rewrite !E.
Qed.

Lemma two_le_nonzero (n : Q) : Qltb n 2 = false -> (0 < n)%Q /\ ~ (n == 0)%Q.
Proof. intros H. apply Qltb_false in H. split; Lqa.lra. Qed.

Lemma colorBleed_agree c1 c2 steps step :
  Kiianigen.colorBleed c1 c2 steps step = Part000.colorBleed c1 c2 steps step None.
Proof.
  rewrite colorBleedK_unfold, colorBleedP_unfold. cbn [interpOrLinear].
  assert (E2 : bleedColorsK c1 c2 2 = bleedColorsP c1 c2 2 interpLinear)
    by (apply bleedColorsK_linear; Lqa.lra).
  destruct steps as [n|]; [|now rewrite E2].
  destruct (Qltb n 2) eqn:E; [now rewrite E2|].
  now rewrite (bleedColorsK_linear c1 c2 n (proj2 (two_le_nonzero n E))).
Qed.

Lemma bleedSegments_agree n first l :
  forall i, Kiianigen.bleedSegments n first i l = Part000.bleedSegments n None first i l.
Proof.
  induction l as [|c rest IH]; intros i; [reflexivity|].
  cbn [Kiianigen.bleedSegments Part000.bleedSegments].
  now rewrite colorBleed_agree, IH.
Qed.

Lemma multiColorBleed_agree n cs :
  Kiianigen.multiColorBleed n cs = Part000.multiColorBleed n None cs.
Proof.
  unfold Kiianigen.multiColorBleed, Part000.multiColorBleed.
  destruct cs; [reflexivity|]. now rewrite bleedSegments_agree.
Qed.

(** X6: with a step count of at least 2, [colorBleed] called with a step
    returns that element of the array it returns without one, and
    [undefined], not an error, for a step below 0 or above the integer part
    of the step count.  Both files. *)
Theorem X6_colorBleed_step (c1 c2 : Color) (steps : Q) (k : Z) (f : option Interp) :
  (2 <= steps)%Q ->
  (exists colors,
      Part000.colorBleed c1 c2 (Some steps) None f = BleedAll colors
      /\ Part000.colorBleed c1 c2 (Some steps) (Some k) f = BleedStep (elementAt colors k)
      /\ (elementAt colors k = None <-> k < 0 \/ Qfloor steps < k))
  /\ (exists colors,
      Kiianigen.colorBleed c1 c2 (Some steps) None = BleedAll colors
      /\ Kiianigen.colorBleed c1 c2 (Some steps) (Some k) = BleedStep (elementAt colors k)
      /\ (elementAt colors k = None <-> k < 0 \/ Qfloor steps < k)).
Proof.
  intros H.
  assert (E : Qltb steps 2 = false) by now apply Qltb_false.
  assert (Hfloor : 2 <= Qfloor steps).
  { change 2 with (Qfloor (inject_Z 2)). rewrite <- (Qfloor_Z 2) at 1.
    now apply Qfloor_resp_le. }
  assert (Hnone : forall cs : list Color,
             length cs = Z.to_nat (Qfloor steps + 1) ->
             elementAt cs k = None <-> k < 0 \/ Qfloor steps < k).
  { intros cs Hlen. unfold elementAt.
    destruct (k <? 0) eqn:Ek.
    - apply Z.ltb_lt in Ek. split; [now left | reflexivity].
    - apply Z.ltb_ge in Ek. rewrite nth_error_None, Hlen. lia. }
  split.
  - exists (bleedColorsP c1 c2 steps (interpOrLinear f)).
    rewrite !colorBleedP_unfold, E.
    repeat split; try reflexivity; apply Hnone, bleedColorsP_length.
  - exists (bleedColorsK c1 c2 steps).
    rewrite !colorBleedK_unfold, E.
    repeat split; try reflexivity; apply Hnone, bleedColorsK_length.
Qed.

Lemma X6_colorBleed_step_witness :
  (2 <= 4)%Q
  /\ Part000.colorBleed (RGB 0 0 0) (RGB 200 100 40) (Some 4%Q) (Some 1) None
     = BleedStep (Some (RGB 50 25 10))
  /\ Part000.colorBleed (RGB 0 0 0) (RGB 200 100 40) (Some 4%Q) (Some 5) None
     = BleedStep None.
Proof.
  assert (H : (2 <= 4)%Q) by (unfold Qle; cbn; lia).
  split; [exact H|].
  destruct (X6_colorBleed_step (RGB 0 0 0) (RGB 200 100 40) 4 1 None H)
    as [(cs1 & A1 & B1 & _) _].
  destruct (X6_colorBleed_step (RGB 0 0 0) (RGB 200 100 40) 4 5 None H)
    as [(cs5 & A5 & B5 & C5) _].
  split.
  - rewrite B1. vm_compute in A1. injection A1 as <-. reflexivity.
  - rewrite B5. f_equal. apply C5. right. vm_compute. reflexivity.
Defined.

(** X7: a bleed never overshoots.  With linear or sine interpolation, or
    with random interpolation on numbers of [[0, 1]], every channel of every
    colour [colorBleed] returns lies between that channel of the two
    colours after the clamp; so it does for any interpolation function whose
    rounded values stay between the two channels.  Both files, for every
    step count and step. *)
Theorem X7_colorBleed_no_overshoot :
  staysBetween interpLinear
  /\ staysBetween interpSine
  /\ (forall u, (0 <= u)%Q -> (u <= 1)%Q -> staysBetween (interpRandom u))
  /\ (forall c1 c2 steps step f c,
        staysBetween (interpOrLinear f) ->
        In c (resultColors (Part000.colorBleed c1 c2 steps step f)) ->
        channelsBetween c1 c2 c)
  /\ (forall c1 c2 steps step c,
        In c (resultColors (Kiianigen.colorBleed c1 c2 steps step)) ->
        channelsBetween c1 c2 c).
Proof.
  assert (HP : forall c1 c2 steps step f c,
             staysBetween (interpOrLinear f) ->
             In c (resultColors (Part000.colorBleed c1 c2 steps step f)) ->
             channelsBetween c1 c2 c).
  { intros c1 c2 steps step f c Hf Hc.
    assert (H2 : Forall (channelsBetween c1 c2) (bleedColorsP c1 c2 2 (interpOrLinear f)))
      by (apply bleedColorsP_between; [Lqa.lra | exact Hf]).
    assert (Hstep : forall cs k,
               Forall (channelsBetween c1 c2) cs ->
               In c (resultColors (BleedStep (elementAt cs k))) -> channelsBetween c1 c2 c).
    { intros cs k Hcs Hin. cbn [resultColors] in Hin.
      destruct (elementAt cs k) as [c'|] eqn:Ek; [|destruct Hin].
      destruct Hin as [<-|[]]. apply elementAt_In in Ek.
      exact (proj1 (Forall_forall _ _) Hcs _ Ek). }
    rewrite colorBleedP_unfold in Hc.
    destruct steps as [n|]; [|exact (Hstep _ _ H2 Hc)].
    destruct (Qltb n 2) eqn:E; [exact (Hstep _ _ H2 Hc)|].
    assert (Hn : Forall (channelsBetween c1 c2) (bleedColorsP c1 c2 n (interpOrLinear f)))
      by (apply bleedColorsP_between; [exact (proj1 (two_le_nonzero n E)) | exact Hf]).
    destruct step as [k|]; [exact (Hstep _ _ Hn Hc)|].
    exact (proj1 (Forall_forall _ _) Hn _ Hc). }
  split; [exact linear_staysBetween|].
  split; [exact sine_staysBetween|].
  split; [exact random_staysBetween|].
  split; [exact HP|].
  intros c1 c2 steps step c Hc. rewrite colorBleed_agree in Hc.
  exact (HP c1 c2 steps step None c linear_staysBetween Hc).
Qed.

(** X9: the length of a multi-colour bleed, for any number of colours and
    any step count: the integer part of the step count for each colour when
    it is 2 or more, two for each colour when it is below 2, where
    [colorBleed] falls back to one colour whose three numbers [concat]
    spreads.  Both files. *)
Theorem X9_multiColorBleed_length (steps : Q) (f : option Interp) (colors : list Color) :
  ((2 <= steps)%Q ->
   length (Part000.multiColorBleed steps f colors)
   = (length colors * Z.to_nat (Qfloor steps))%nat
   /\ length (Kiianigen.multiColorBleed steps colors)
      = (length colors * Z.to_nat (Qfloor steps))%nat)
  /\ ((steps < 2)%Q ->
      length (Part000.multiColorBleed steps f colors) = (length colors * 2)%nat
      /\ length (Kiianigen.multiColorBleed steps colors) = (length colors * 2)%nat
      /\ Forall (fun e => exists n, e = ENum n) (Part000.multiColorBleed steps f colors)
      /\ Forall (fun e => exists n, e = ENum n) (Kiianigen.multiColorBleed steps colors)).
Proof.
  rewrite multiColorBleedP_length, multiColorBleedK_length. unfold framesPerColor.
  split.
  - intros H. apply Qltb_false in H. rewrite H. split; reflexivity.
  - intros H. pose proof H as H'. apply Qltb_true in H. rewrite H.
    split; [reflexivity|]. split; [reflexivity|].
    assert (HP : forall g, Forall (fun e => exists n, e = ENum n)
                                  (Part000.multiColorBleed steps g colors)).
    { intros g. unfold Part000.multiColorBleed. apply Forall_removelast.
      destruct colors as [|first rest]; [constructor|].
      rewrite bleedSegmentsP_generic. apply segmentsOf_Forall.
      intros a b. rewrite colorBleedP_unfold, H.
      destruct (elementAt _ 1) as [[r g' b']|]; cbn [bleedEntries];
        repeat constructor; eauto. }
    split; [apply HP|]. rewrite multiColorBleed_agree. apply HP.
Qed.

Lemma linear_exactAtEnds : exactAtEnds interpLinear.
Proof.
  intros n o d Hn. split.
  - rewrite linear_first. apply Math_round_integer.
  - rewrite linear_last by lia. apply Math_round_integer.
Qed.

Lemma sineInterpolate_first (n a b : R) : sineInterpolate 0 n a b = a.
Proof.
  unfold sineInterpolate.
  replace (0 / n * PI - PI / 2)%R with (- (PI / 2))%R by (unfold Rdiv; ring).
  rewrite sin_neg, sin_PI2. field.
Qed.

Lemma sineInterpolate_last (n a b : R) : n <> 0%R -> sineInterpolate n n a b = b.
Proof.
  intros Hn. unfold sineInterpolate.
  replace (n / n * PI - PI / 2)%R with (PI / 2)%R by (field; exact Hn).
  rewrite sin_PI2. field.
Qed.

Lemma sineInterpolate_half (n a b : R) :
  n <> 0%R -> sineInterpolate (n / 2) n a b = ((a + b) / 2)%R.
Proof.
  intros Hn. unfold sineInterpolate.
  replace (n / 2 / n * PI - PI / 2)%R with 0%R by (field; exact Hn).
  rewrite sin_0. field.
Qed.

Lemma sine_exactAtEnds : exactAtEnds interpSine.
Proof.
  intros n o d Hn. unfold interpSine.
  assert (E : Q2R (inject_Z n) = IZR n) by (unfold Q2R; cbn; field).
  rewrite E. split.
  - rewrite sineInterpolate_first. apply Math_round_real_integer.
  - rewrite sineInterpolate_last by (apply not_0_IZR; lia).
    apply Math_round_real_integer.
Qed.

Lemma roundClamp_channels (r g b : Z) :
  roundClamp (RGB r g b) = RGB (clampChannel r) (clampChannel g) (clampChannel b).
Proof. unfold roundClamp. now rewrite !Math_round_integer. Qed.

Lemma bleedColorsP_ends c1 c2 (n : Z) (f : Interp) :
  0 < n -> exactAtEnds f ->
  nth_error (bleedColorsP c1 c2 (inject_Z n) f) 0 = Some (roundClamp c1)
  /\ nth_error (bleedColorsP c1 c2 (inject_Z n) f) (Z.to_nat n) = Some (roundClamp c2).
Proof.
  intros Hn Hf. unfold bleedColorsP. rewrite !nth_error_map.
  rewrite (loopUpTo_nth n 0) by lia.
  rewrite (loopUpTo_nth n (Z.to_nat n)) by lia.
  rewrite Z2Nat.id by lia. cbn [option_map Z.of_nat].
  destruct c1 as [r1 g1 b1], c2 as [r2 g2 b2]. rewrite !roundClamp_channels.
  cbn [mapChannels].
  split; f_equal; f_equal; f_equal;
    first [exact (proj1 (Hf n _ _ Hn)) | exact (proj2 (Hf n _ _ Hn))].
Qed.

Lemma nth_error_tl {A : Type} (l : list A) (k : nat) :
  nth_error (tl l) k = nth_error l (S k).
Proof. destruct l; [now destruct k | reflexivity]. Qed.

Lemma nth_error_removelast {A : Type} (l : list A) (k : nat) :
  (S k < length l)%nat -> nth_error (removelast l) k = nth_error l k.
Proof.
  revert k. induction l as [|x l IH]; intros k Hk; [cbn in Hk; lia|].
  destruct l as [|y l']; [cbn in Hk; lia|].
  change (removelast (x :: y :: l')) with (x :: removelast (y :: l')).
  destruct k as [|k]; [reflexivity|]. cbn [nth_error]. apply IH. cbn in *. lia.
Qed.

(** The element that ends the segment of the colour at index [j]. *)
Lemma segmentsOf_segment_end (fade : Color -> Color -> list Entry) (F : Color -> Entry)
    (n : nat) (first : Color) :
  (0 < n)%nat ->
  (forall a b, length (fade a b) = S n) ->
  (forall a b, nth_error (fade a b) n = Some (F b)) ->
  forall l i j,
    (j < length l)%nat ->
    nth_error (segmentsOf fade first (S i) l) (j * n + (n - 1)) = Some (F (nth (S j) l first)).
Proof.
  intros Hn Hlen Hend. induction l as [|c rest IH]; intros i j Hj; [cbn in Hj; lia|].
  cbn [segmentsOf]. change (0 <? S i)%nat with true. cbv iota.
  assert (Htl : length (tl (fade c match rest with
                                   | [] => first
                                   | next :: _ => next
                                   end)) = n) by (rewrite length_tl, Hlen; reflexivity).
  destruct j as [|j].
  - rewrite nth_error_app1 by (rewrite Htl; lia).
    rewrite nth_error_tl. replace (S (0 * n + (n - 1))) with n by lia.
    rewrite Hend. destruct rest; reflexivity.
  - rewrite nth_error_app2 by (rewrite Htl; lia).
    rewrite Htl. replace (S j * n + (n - 1) - n)%nat with (j * n + (n - 1))%nat by lia.
    rewrite IH by (cbn in Hj; lia). reflexivity.
Qed.

Lemma segmentsOf_keyframe (fade : Color -> Color -> list Entry) (F : Color -> Entry)
    (n : nat) (first : Color) (l : list Color) (i : nat) :
  (0 < n)%nat ->
  (forall a b, length (fade a b) = S n) ->
  (forall a b, nth_error (fade a b) 0 = Some (F a)) ->
  (forall a b, nth_error (fade a b) n = Some (F b)) ->
  (i <= S (length l))%nat ->
  nth_error (segmentsOf fade first 0 (first :: l)) (i * n)
  = Some (F (nth i (first :: l) first)).
Proof.
  intros Hn Hlen Hstart Hend Hi.
  cbn [segmentsOf]. change (0 <? 0)%nat with false. cbv iota.
  destruct i as [|[|i]].
  - rewrite nth_error_app1 by (rewrite Hlen; lia). cbn [Nat.mul]. apply Hstart.
  - rewrite nth_error_app1 by (rewrite Hlen; lia).
    replace (1 * n)%nat with n by lia. rewrite Hend. destruct l; reflexivity.
  - rewrite nth_error_app2 by (rewrite Hlen; lia).
    rewrite Hlen. replace (S (S i) * n - S n)%nat with (i * n + (n - 1))%nat by lia.
    rewrite (segmentsOf_segment_end fade F n first Hn Hlen Hend) by lia.
    reflexivity.
Qed.

Lemma multiColorBleedP_keyframe (n : Z) (f : option Interp) (colors : list Color)
    (i : nat) (c : Color) :
  2 <= n -> exactAtEnds (interpOrLinear f) -> nth_error colors i = Some c ->
  nth_error (Part000.multiColorBleed (inject_Z n) f colors) (i * Z.to_nat n)
  = Some (EColor (roundClamp c)).
Proof.
  intros Hn Hf Hc.
  destruct colors as [|first l]; [now destruct i|].
  assert (Hi : (i < S (length l))%nat).
  { change (i < length (first :: l))%nat. apply nth_error_Some. rewrite Hc. discriminate. }
  unfold Part000.multiColorBleed. rewrite bleedSegmentsP_generic.
  set (fade := fun a b => bleedEntries (Part000.colorBleed a b (Some (inject_Z n)) None f)).
  assert (Efade : forall a b, fade a b = map EColor (bleedColorsP a b (inject_Z n) (interpOrLinear f))).
  { intros a b. unfold fade. rewrite colorBleedP_unfold, Qltb_inject_Z by exact Hn.
    reflexivity. }
  assert (Hlen : forall a b, length (fade a b) = S (Z.to_nat n)).
  { intros a b. rewrite Efade, length_map, bleedColorsP_length, Qfloor_Z. lia. }
  assert (Hstart : forall a b, nth_error (fade a b) 0 = Some (EColor (roundClamp a))).
  { intros a b. rewrite Efade, nth_error_map.
    now rewrite (proj1 (bleedColorsP_ends a b n _ ltac:(lia) Hf)). }
  assert (Hend : forall a b, nth_error (fade a b) (Z.to_nat n) = Some (EColor (roundClamp b))).
  { intros a b. rewrite Efade, nth_error_map.
    now rewrite (proj2 (bleedColorsP_ends a b n _ ltac:(lia) Hf)). }
  rewrite nth_error_removelast.
  - rewrite (segmentsOf_keyframe fade (fun c => EColor (roundClamp c)) (Z.to_nat n) first l i)
      by (try assumption; lia).
    now rewrite (nth_error_nth _ _ first Hc).
  - rewrite (segmentsOf_length_from_zero fade first (Z.to_nat n) l Hlen).
    cbn [length]. nia.
Qed.

(** X10: a multi-colour bleed passes through the colours it is given.  With
    an integer step count [n] of 2 or more and an interpolation that is
    exact at both ends, as the linear and the sine one are, the element at
    [i * n] is the colour at index [i], rounded and clamped: the colour
    itself when its channels are integers of [[0, 255]].  Both files. *)
Theorem X10_multiColorBleed_keyframes :
  exactAtEnds interpLinear
  /\ exactAtEnds interpSine
  /\ (forall (n : Z) f colors i c,
        2 <= n -> exactAtEnds (interpOrLinear f) -> nth_error colors i = Some c ->
        nth_error (Part000.multiColorBleed (inject_Z n) f colors) (i * Z.to_nat n)
        = Some (EColor (roundClamp c)))
  /\ (forall (n : Z) colors i c,
        2 <= n -> nth_error colors i = Some c ->
        nth_error (Kiianigen.multiColorBleed (inject_Z n) colors) (i * Z.to_nat n)
        = Some (EColor (roundClamp c)))
  /\ (forall c, inRange c -> roundClamp c = c).
Proof.
  split; [exact linear_exactAtEnds|].
  split; [exact sine_exactAtEnds|].
  split; [exact multiColorBleedP_keyframe|].
  split; [|exact roundClamp_inRange].
  intros n colors i c Hn Hc. rewrite multiColorBleed_agree.
  exact (multiColorBleedP_keyframe n None colors i c Hn linear_exactAtEnds Hc).
Qed.

(** X11: the interpolation functions at the ends and in the middle.  For a
    step count that is not 0, [linearInterpolate] and [sineInterpolate]
    return [val1] at step 0, [val2] at the last step and the average of the
    two at half the step count. *)
Theorem X11_interpolate_ends (n a b : Q) (m x y : R) :
  ~ (n == 0)%Q -> m <> 0%R ->
  (linearInterpolate 0 n a b == a)%Q
  /\ (linearInterpolate n n a b == b)%Q
  /\ (linearInterpolate (n / 2) n a b == (a + b) / 2)%Q
  /\ sineInterpolate 0 m x y = x
  /\ sineInterpolate m m x y = y
  /\ sineInterpolate (m / 2) m x y = ((x + y) / 2)%R.
Proof.
  intros Hn Hm. unfold linearInterpolate.
  split; [field; exact Hn|]. split; [field; exact Hn|]. split; [field; exact Hn|].
  split; [apply sineInterpolate_first|].
  split; [now apply sineInterpolate_last | now apply sineInterpolate_half].
Qed.

Lemma X11_interpolate_ends_witness :
  ~ (4 == 0)%Q /\ 4%R <> 0%R
  /\ (linearInterpolate (4 / 2) 4 10 20 == (10 + 20) / 2)%Q
  /\ sineInterpolate (4 / 2) 4 10 20 = ((10 + 20) / 2)%R.
Proof.
  assert (Hn : ~ (4 == 0)%Q) by (unfold Qeq; cbn; lia).
  assert (Hm : 4%R <> 0%R) by lra.
  split; [exact Hn|]. split; [exact Hm|].
  destruct (X11_interpolate_ends 4 10 20 4 10 20 Hn Hm) as (_ & _ & A & _ & _ & B).
  split; [exact A | exact B].
Defined.


(** ** The generation step of [main] *)

Lemma lookupGenerator_found {C : Type} (name : C -> string) (inv : C -> Gen Animation)
    (cs : list C) (c0 : C) :
  NoDup (map name cs) -> In c0 cs ->
  lookupGenerator (map (fun c => (name c, inv c)) cs) (name c0) = Some (inv c0).
Proof.
  induction cs as [|c cs IH]; intros Hnd Hin; [destruct Hin|].
  cbn [map lookupGenerator]. inversion Hnd as [|? ? Hnotin Hnd']; subst.
  destruct (String.eqb (name c) (name c0)) eqn:E.
  - apply String.eqb_eq in E. destruct Hin as [->|Hin]; [reflexivity|].
    exfalso. apply Hnotin. rewrite E. now apply in_map.
  - destruct Hin as [->|Hin]; [now rewrite String.eqb_refl in E|].
    now apply IH.
Qed.

Lemma callNamesP_NoDup : NoDup (map Part000.callName Part000.callsWithoutArguments).
Proof. apply NoDup_of_nodup. vm_compute. reflexivity. Qed.

Lemma callNamesK_NoDup : NoDup (map Kiianigen.callName Kiianigen.callsWithoutArguments).
Proof. apply NoDup_of_nodup. vm_compute. reflexivity. Qed.

Lemma callNamesP_plain (c : Part000.GenCall) :
  String.eqb (Part000.callName c) "" = false
  /\ String.eqb (Part000.callName c) "all" = false
  /\ String.eqb (Part000.callName c) "conf" = false.
Proof. destruct c; repeat split; reflexivity. Qed.

Lemma callNamesK_plain (c : Kiianigen.GenCall) :
  String.eqb (Kiianigen.callName c) "" = false
  /\ String.eqb (Kiianigen.callName c) "all" = false.
Proof. destruct c; repeat split; reflexivity. Qed.

Lemma generateP_by_name env (c : Part000.GenCall) animOrig :
  In c Part000.callsWithoutArguments ->
  Part000.generate env (Part000.callName c) animOrig
  = (a <- Part000.invoke env c ;;
     ret (Generated (setProp animOrig (Part000.callName c) a))).
Proof.
  intros Hin. unfold Part000.generate, Part000.generators.
  rewrite (lookupGenerator_found Part000.callName (Part000.invoke env)
             Part000.callsWithoutArguments c callNamesP_NoDup Hin).
  destruct (callNamesP_plain c) as (-> & -> & ->). reflexivity.
Qed.

Lemma generateK_by_name env (c : Kiianigen.GenCall) animOrig :
  In c Kiianigen.callsWithoutArguments ->
  Kiianigen.generate env (Kiianigen.callName c) animOrig
  = (a <- Kiianigen.invoke env c ;;
     ret (Generated (setProp animOrig (Kiianigen.callName c) a))).
Proof.
  intros Hin. unfold Kiianigen.generate, Kiianigen.generators.
  rewrite (lookupGenerator_found Kiianigen.callName (Kiianigen.invoke env)
             Kiianigen.callsWithoutArguments c callNamesK_NoDup Hin).
  destruct (callNamesK_plain c) as (-> & ->). reflexivity.
Qed.

(** X12: a generator name that is not registered, is neither [all] nor
    [conf] and is no name [generators] inherits, ends [main] at its first
    test: no generator runs, no random number is drawn and no animation is
    written.  The empty name does the same.  The older file knows no
    [conf]: there it is an unknown name. *)
Theorem X12_generate_unknown (env : Env) (animOrig : AnimMap) (n : nat) :
  (forall generator,
      ~ In generator (map Part000.callName Part000.callsWithoutArguments) ->
      ~ In generator objectPrototypeNames ->
      generator <> "all" -> generator <> "conf" ->
      Part000.generate env generator animOrig n = Some (UnknownGenerator, n))
  /\ (forall generator,
      ~ In generator (map Kiianigen.callName Kiianigen.callsWithoutArguments) ->
      ~ In generator objectPrototypeNames ->
      generator <> "all" ->
      Kiianigen.generate env generator animOrig n = Some (UnknownGenerator, n))
  /\ Part000.generate env "" animOrig n = Some (UnknownGenerator, n)
  /\ Kiianigen.generate env "" animOrig n = Some (UnknownGenerator, n)
  /\ Kiianigen.generate env "conf" animOrig n = Some (UnknownGenerator, n)
  /\ Part000.generate env "conf" animOrig n = Some (FromConf, n).
Proof.
  split; [|split].
  - intros g Hg _ Hall Hconf. unfold Part000.generate.
    rewrite lookupGenerator_None by now rewrite generatorsP_names.
    apply String.eqb_neq in Hall, Hconf. rewrite Hall, Hconf. cbn [negb andb].
    now rewrite orb_true_r.
  - intros g Hg _ Hall. unfold Kiianigen.generate.
    rewrite lookupGenerator_None by now rewrite generatorsK_names.
    apply String.eqb_neq in Hall. rewrite Hall. cbn [negb].
    now rewrite orb_true_r.
  - repeat split; reflexivity.
Qed.

(** X13: called with the name of a registered generator, the generation
    step of [main] runs that generator without arguments and writes its
    animation, which has frames, under that name; every other property of
    the animations object stays as it was.  Both files. *)
Theorem X13_generate_by_name (env : Env) (animOrig : AnimMap) (n : nat) :
  (forall c,
      In c Part000.callsWithoutArguments ->
      exists a n',
        Part000.invoke env c n = Some (a, n')
        /\ Part000.generate env (Part000.callName c) animOrig n
           = Some (Generated (setProp animOrig (Part000.callName c) a), n')
        /\ wellFormed a
        /\ getProp (setProp animOrig (Part000.callName c) a) (Part000.callName c) = Some a
        /\ (forall g, g <> Part000.callName c ->
              getProp (setProp animOrig (Part000.callName c) a) g = getProp animOrig g))
  /\ (forall c,
      In c Kiianigen.callsWithoutArguments ->
      exists a n',
        Kiianigen.invoke env c n = Some (a, n')
        /\ Kiianigen.generate env (Kiianigen.callName c) animOrig n
           = Some (Generated (setProp animOrig (Kiianigen.callName c) a), n')
        /\ wellFormed a
        /\ getProp (setProp animOrig (Kiianigen.callName c) a) (Kiianigen.callName c)
           = Some a
        /\ (forall g, g <> Kiianigen.callName c ->
              getProp (setProp animOrig (Kiianigen.callName c) a) g = getProp animOrig g)).
Proof.
  split.
  - intros c Hin.
    assert (Hg : In (Part000.callName c, Part000.invoke env c) (Part000.generators env)).
    { unfold Part000.generators.
      exact (in_map (fun c => (Part000.callName c, Part000.invoke env c)) _ _ Hin). }
    destruct (generatorsP_returns env _ _ Hg n) as (a & n' & Ha & Hw).
    exists a, n'. split; [exact Ha|]. split.
    + rewrite (generateP_by_name env c animOrig Hin). unfold bind. rewrite Ha. reflexivity.
    + split; [exact Hw|]. split; [apply getProp_setProp_same|].
      intros g Hne. now apply getProp_setProp_other.
  - intros c Hin.
    assert (Hg : In (Kiianigen.callName c, Kiianigen.invoke env c) (Kiianigen.generators env)).
    { unfold Kiianigen.generators.
      exact (in_map (fun c => (Kiianigen.callName c, Kiianigen.invoke env c)) _ _ Hin). }
    destruct (generatorsK_returns env _ _ Hg n) as (a & n' & Ha & Hw).
    exists a, n'. split; [exact Ha|]. split.
    + rewrite (generateK_by_name env c animOrig Hin). unfold bind. rewrite Ha. reflexivity.
    + split; [exact Hw|]. split; [apply getProp_setProp_same|].
      intros g Hne. now apply getProp_setProp_other.
Qed.

(** ** What [main] reads from the device data *)

Lemma maxRowCol_from (pixelIds : list PixelId) :
  forall a b,
    let '(mr, mc) := fold_left (fun '(maxRow, maxCol) px =>
                                  (Z.max maxRow (Row px), Z.max maxCol (Col px)))
                               pixelIds (a, b) in
    a <= mr /\ b <= mc
    /\ (forall px, In px pixelIds -> Row px <= mr /\ Col px <= mc)
    /\ (mr = a \/ exists px, In px pixelIds /\ Row px = mr)
    /\ (mc = b \/ exists px, In px pixelIds /\ Col px = mc).
Proof.
  induction pixelIds as [|p l IH]; intros a b.
  - cbn. repeat split; try lia; try (intros px []); now left.
  - cbn [fold_left]. specialize (IH (Z.max a (Row p)) (Z.max b (Col p))).
    destruct (fold_left _ l (Z.max a (Row p), Z.max b (Col p))) as [mr mc].
    destruct IH as (Ha & Hb & Hall & Hr & Hc).
    split; [lia|]. split; [lia|]. split; [|split].
    + intros px [<-|Hin]; [lia | now apply Hall].
    + destruct Hr as [->|(px & Hin & E)].
      * destruct (Z.max_spec a (Row p)) as [[_ E]|[_ E]]; rewrite E.
        -- right. exists p. split; [now left | reflexivity].
        -- now left.
      * right. exists px. split; [now right | exact E].
    + destruct Hc as [->|(px & Hin & E)].
      * destruct (Z.max_spec b (Col p)) as [[_ E]|[_ E]]; rewrite E.
        -- right. exists p. split; [now left | reflexivity].
        -- now left.
      * right. exists px. split; [now right | exact E].
Qed.

(** X14: the grid bounds [main] computes from [kll.PixelIds].  [maxRow] and
    [maxCol] are never negative, bound the row and the column of every
    pixel, and each is 0 or attained by some pixel; without pixels both
    are 0.  Both files. *)
Theorem X14_maxRowCol_bounds (pixelIds : list PixelId) :
  let '(mr, mc) := maxRowCol pixelIds in
  0 <= mr /\ 0 <= mc
  /\ (forall px, In px pixelIds -> Row px <= mr /\ Col px <= mc)
  /\ (mr = 0 \/ exists px, In px pixelIds /\ Row px = mr)
  /\ (mc = 0 \/ exists px, In px pixelIds /\ Col px = mc)
  /\ (pixelIds = [] -> mr = 0 /\ mc = 0).
Proof.
  pose proof (maxRowCol_from pixelIds 0 0) as H. unfold maxRowCol.
  destruct (fold_left _ pixelIds (0, 0)) as [mr mc] eqn:E.
  destruct H as (Ha & Hb & Hall & Hr & Hc).
  split; [exact Ha|]. split; [exact Hb|]. split; [exact Hall|].
  split; [exact Hr|]. split; [exact Hc|].
  intros ->. cbn in E. injection E as <- <-. split; reflexivity.
Qed.

Lemma filter_partition {A : Type} (p : A -> bool) (l : list A) :
  Permutation l (app (filter (fun x => negb (p x)) l) (filter p l)).
Proof.
  induction l as [|x l IH]; [constructor|].
  cbn [filter]. destruct (p x); cbn [negb].
  - now apply Permutation_cons_app.
  - cbn [app]. now constructor.
Qed.

(** X15: [main] puts every led into exactly one of [blankLeds] and
    [keyedLeds], the keyed ones being those with a scan code that is set and
    not empty; so the one frame of [topAndBottom] colours every led once,
    green without a scan code and blue with one.  Both files. *)
Theorem X15_leds_partition (env : Env) :
  Permutation (leds env) (app (blankLeds env) (keyedLeds env))
  /\ (length (blankLeds env) + length (keyedLeds env) = length (leds env))%nat
  /\ (forall l, In l (keyedLeds env) <-> In l (leds env) /\ hasScanCode l = true)
  /\ (forall l, In l (blankLeds env) <-> In l (leds env) /\ hasScanCode l = false)
  /\ frames (Part000.topAndBottom env)
     = [join "," (map topAndBottomPixel (app (blankLeds env) (keyedLeds env)))]
  /\ frames (Kiianigen.topAndBottom env) = frames (Part000.topAndBottom env).
Proof.
  assert (Hp : Permutation (leds env) (app (blankLeds env) (keyedLeds env)))
    by apply filter_partition.
  split; [exact Hp|]. split.
  { rewrite <- length_app. symmetry. now apply Permutation_length. }
  split; [intros l; unfold keyedLeds; apply filter_In|].
  split.
  { intros l. unfold blankLeds. rewrite filter_In.
    destruct (hasScanCode l); cbn; intuition congruence. }
  split; [|reflexivity].
  cbn [Part000.topAndBottom frames]. do 2 f_equal.
  rewrite map_app. f_equal.
  - apply map_ext_in. intros l Hl. unfold blankLeds in Hl. apply filter_In in Hl.
    unfold topAndBottomPixel. destruct (hasScanCode l); [now destruct Hl | reflexivity].
  - apply map_ext_in. intros l Hl. unfold keyedLeds in Hl. apply filter_In in Hl.
    unfold topAndBottomPixel. destruct (hasScanCode l); [reflexivity | now destruct Hl].
Qed.

Lemma ledIdByScanCode_fold (key : string) (l : list Led) :
  forall acc,
    fold_left (fun found l => if String.eqb (scanCodeKey l) key
                              then Some (led_id l) else found) l acc = None
    <-> acc = None /\ forall x, In x l -> scanCodeKey x <> key.
Proof.
  induction l as [|x l IH]; intros acc; cbn [fold_left].
  - split; [intros ->; split; [reflexivity | intros x []] | now intros [-> _]].
  - rewrite IH. destruct (String.eqb (scanCodeKey x) key) eqn:E.
    + apply String.eqb_eq in E. split; [intros [H _]; discriminate|].
      intros [_ H]. exfalso. apply (H x); [now left | exact E].
    + apply String.eqb_neq in E. split.
      * intros [-> H]. split; [reflexivity|]. intros y [<-|Hy]; [exact E | now apply H].
      * intros [-> H]. split; [reflexivity|]. intros y Hy. apply H. now right.
Qed.

Lemma ledIdByScanCode_keep (key : string) (l : list Led) :
  (forall x, In x l -> scanCodeKey x <> key) ->
  forall acc,
    fold_left (fun found l => if String.eqb (scanCodeKey l) key
                              then Some (led_id l) else found) l acc = acc.
Proof.
  induction l as [|x l IH]; intros H acc; [reflexivity|].
  cbn [fold_left].
  assert (E : String.eqb (scanCodeKey x) key = false)
    by (apply String.eqb_neq, H; now left).
  rewrite E. apply IH. intros y Hy. apply H. now right.
Qed.

(** X16: the table [ledIdByScanCode] that [main] fills, read at a key
    that is no inherited name.  A key no led is stored under is missing from
    it; otherwise it holds the id of the last such led, a later led
    replacing an earlier one with the same scan code.  A led without a scan
    code is stored under the key ["undefined"]. *)
Theorem X16_ledIdByScanCode_lookup (env : Env) (key : string) :
  ~ In key objectPrototypeNames ->
  (ledIdByScanCode env key = None
   <-> forall l, In l (leds env) -> scanCodeKey l <> key)
  /\ (forall front l back,
        leds env = app front (l :: back) ->
        scanCodeKey l = key ->
        (forall l', In l' back -> scanCodeKey l' <> key) ->
        ledIdByScanCode env key = Some (led_id l))
  /\ (forall l, scanCode l = None -> scanCodeKey l = "undefined").
Proof.
  intros _. split; [|split].
  - unfold ledIdByScanCode. rewrite ledIdByScanCode_fold. tauto.
  - intros front l back E Hkey Hback. unfold ledIdByScanCode.
    rewrite E, fold_left_app. cbn [fold_left].
    apply String.eqb_eq in Hkey. rewrite Hkey.
    now apply ledIdByScanCode_keep.
  - intros l H. unfold scanCodeKey. now rewrite H.
Qed.

Lemma X16_ledIdByScanCode_lookup_witness :
  ~ In "0x01" objectPrototypeNames
  /\ ledIdByScanCode (mkEnv 5 17 [mkLed 1 (Some "0x01"); mkLed 2 None;
                                  mkLed 3 (Some "0x01")] (fun _ => 0%Q)) "0x01"
     = Some 3
  /\ ledIdByScanCode (mkEnv 5 17 [mkLed 1 (Some "0x01"); mkLed 2 None;
                                  mkLed 3 (Some "0x01")] (fun _ => 0%Q)) "0x02"
     = None.
Proof.
  assert (H1 : ~ In "0x01" objectPrototypeNames).
  { cbn. intros H. repeat (destruct H as [H|H]; [discriminate H|]). exact H. }
  assert (H2 : ~ In "0x02" objectPrototypeNames).
  { cbn. intros H. repeat (destruct H as [H|H]; [discriminate H|]). exact H. }
  split; [exact H1|]. split.
  - apply (proj1 (proj2 (X16_ledIdByScanCode_lookup _ "0x01" H1))
             [mkLed 1 (Some "0x01"); mkLed 2 None] (mkLed 3 (Some "0x01")) []);
      [reflexivity | reflexivity | intros l' []].
  - apply (proj1 (X16_ledIdByScanCode_lookup _ "0x02" H2)).
    intros l [<-|[<-|[<-|[]]]]; discriminate.
Defined.


(** ** [generateFromConf] *)

Lemma isWord_not_space (c : ascii) : isWord c = true -> isSpace c = false.
Proof.
  destruct c as [b0 b1 b2 b3 b4 b5 b6 b7].
  destruct b0, b1, b2, b3, b4, b5, b6, b7; intros H; try reflexivity; discriminate H.
Qed.

Lemma removeNonWord_allWord (s : string) : allWord (removeNonWord s) = true.
Proof.
  induction s as [|c rest IH]; [reflexivity|].
  cbn [removeNonWord]. destruct (isWord c) eqn:E; [|exact IH].
  cbn [allWord]. now rewrite E, IH.
Qed.

Lemma removeNonWord_word (s : string) : allWord s = true -> removeNonWord s = s.
Proof.
  induction s as [|c rest IH]; [reflexivity|].
  cbn [allWord removeNonWord]. intros H. apply andb_prop in H. destruct H as [Hc Hr].
  now rewrite Hc, IH.
Qed.

Lemma replaceSpaceRuns_word (s : string) :
  allWord s = true -> forall inRun, replaceSpaceRuns inRun s = s.
Proof.
  induction s as [|c rest IH]; [reflexivity|].
  cbn [allWord replaceSpaceRuns]. intros H inRun.
  apply andb_prop in H. destruct H as [Hc Hr].
  now rewrite (isWord_not_space c Hc), IH.
Qed.

Lemma animNameToUse_word (s : string) : allWord s = true -> animNameToUse s = s.
Proof.
  intros H. unfold animNameToUse.
  now rewrite replaceSpaceRuns_word, removeNonWord_word.
Qed.

Lemma removeNonWord_length (s : string) :
  (String.length (removeNonWord s) <= String.length s)%nat.
Proof.
  induction s as [|c rest IH]; [reflexivity|].
  cbn [removeNonWord]. destruct (isWord c); cbn [String.length]; lia.
Qed.

Lemma replaceSpaceRuns_length (s : string) :
  forall inRun, (String.length (replaceSpaceRuns inRun s) <= String.length s)%nat.
Proof.
  induction s as [|c rest IH]; intros inRun; [reflexivity|].
  cbn [replaceSpaceRuns].
  pose proof (IH true). pose proof (IH false).
  destruct (isSpace c); [destruct inRun|]; cbn [String.length]; lia.
Qed.

(** X17: the property name [generateFromConf] stores an animation under.
    It holds letters, digits and underscores only and is no longer than the
    name; a name of such characters is kept as it is, so the step is
    idempotent; each run of white space has become one underscore and every
    other character is dropped, so that different names can share a
    property name. *)
Theorem X17_animNameToUse_word_characters (animName : string) :
  allWord (animNameToUse animName) = true
  /\ (String.length (animNameToUse animName) <= String.length animName)%nat
  /\ (allWord animName = true -> animNameToUse animName = animName)
  /\ animNameToUse (animNameToUse animName) = animNameToUse animName
  /\ animNameToUse "KARR 1.0" = "KARR_10"
  /\ animNameToUse "Iced  Cooly!" = animNameToUse "Iced_Cooly".
Proof.
  assert (H : allWord (animNameToUse animName) = true) by apply removeNonWord_allWord.
  split; [exact H|]. split.
  { unfold animNameToUse.
    apply Nat.le_trans with (String.length (replaceSpaceRuns false animName));
      [apply removeNonWord_length | apply replaceSpaceRuns_length]. }
  split; [apply animNameToUse_word|].
  split; [now apply animNameToUse_word|].
  split; reflexivity.
Qed.

Lemma generateActive_spec (P : Animation -> Prop) (env : Env)
    (anims : list (string * Part000.GenCall)) (active : list string) :
  (forall name, In name active ->
     exists c, confAnimation anims name = Some c /\ returns (Part000.invoke env c) P) ->
  forall animOrig,
    returns (generateActive env anims active animOrig)
      (fun result =>
         (forall name, In name active ->
            exists a, getProp result (animNameToUse name) = Some a /\ P a)
         /\ (forall g, ~ In g (map animNameToUse active) ->
               getProp result g = getProp animOrig g)
         /\ (NoDup (map fst animOrig) -> NoDup (map fst result))).
Proof.
  induction active as [|name rest IH]; intros H animOrig.
  - apply returns_ret. split; [intros name []|]. split; [reflexivity | auto].
  - cbn [generateActive].
    destruct (H name (or_introl eq_refl)) as (c & Hc & Hret). rewrite Hc.
    apply (returns_bind _ _ P); [exact Hret|]. intros a Pa.
    apply (returns_weaken _ _ _ (IH (fun nm Hnm => H nm (or_intror Hnm))
                                    (setProp animOrig (animNameToUse name) a))).
    intros result (H1 & H2 & H3). split; [|split].
    + intros name' Hin.
      destruct (in_dec string_dec (animNameToUse name') (map animNameToUse rest))
        as [Hk|Hk].
      * apply in_map_iff in Hk. destruct Hk as (name'' & E & Hin'').
        rewrite <- E. now apply H1.
      * destruct Hin as [<-|Hin]; [|exfalso; apply Hk; now apply in_map].
        exists a. split; [|exact Pa].
        rewrite (H2 _ Hk). apply getProp_setProp_same.
    + intros g Hg. cbn [map] in Hg.
      rewrite H2 by (intros Hin; apply Hg; now right).
      apply getProp_setProp_other. intros ->. apply Hg. now left.
    + intros Hnd. apply H3. now apply setProp_NoDup.
Qed.

Lemma invokeP_total (env : Env) (c : Part000.GenCall) (n : nat) :
  exists a n', Part000.invoke env c n = Some (a, n').
Proof.
  assert (H : returns (Part000.invoke env c) (fun _ => True)).
  { destruct c;
      try (apply (returns_weaken _ wellFormed);
           [apply invokeP_wellFormed; cbn; tauto | auto]).
    apply (returns_weaken _ _ _ (whiteNoise_shape env maxFrames)). auto. }
  destruct (H n) as (a & n' & E & _). eauto.
Qed.

(** X18: when [animations] holds every name of [activeAnimations], no
    entry asks [whiteNoise] for a negative number of frames and no property
    name is ["__proto__"], [generateFromConf] does not throw; afterwards
    every active name has, under its property name, an animation with the
    type tag, the two settings and a frame, the other properties of the
    animations object are as before, and no key occurs twice. *)
Theorem X18_generateFromConf_returns (env : Env) (animOrig : AnimMap)
    (confData : ConfData) :
  Forall (fun name => exists c, confAnimation (animations confData) name = Some c
                                /\ ~ negativeFramesP c)
         (activeAnimations confData) ->
  ~ In "__proto__" (map animNameToUse (activeAnimations confData)) ->
  returns (generateFromConf env animOrig confData)
    (fun result =>
       (forall name, In name (activeAnimations confData) ->
          exists a, getProp result (animNameToUse name) = Some a /\ wellFormed a)
       /\ (forall g, ~ In g (map animNameToUse (activeAnimations confData)) ->
             getProp result g = getProp animOrig g)
       /\ (NoDup (map fst animOrig) -> NoDup (map fst result))).
Proof.
  intros H _. unfold generateFromConf. apply generateActive_spec.
  intros name Hin.
  destruct (proj1 (Forall_forall _ _) H name Hin) as (c & Hc & Hneg).
  exists c. split; [exact Hc | now apply invokeP_wellFormed].
Qed.

Lemma X18_generateFromConf_returns_witness :
  Forall (fun name => exists c, confAnimation (animations DEMO_CONF) name = Some c
                                /\ ~ negativeFramesP c)
         (activeAnimations DEMO_CONF)
  /\ ~ In "__proto__" (map animNameToUse (activeAnimations DEMO_CONF))
  /\ returns (generateFromConf sampleEnv [] DEMO_CONF)
       (fun result =>
          exists a, getProp result "Quick_RGB_with_Tracers" = Some a /\ wellFormed a).
Proof.
  assert (H : Forall (fun name => exists c, confAnimation (animations DEMO_CONF) name = Some c
                                            /\ ~ negativeFramesP c)
                     (activeAnimations DEMO_CONF)).
  { repeat constructor; eexists; (split; [reflexivity | cbn; tauto]). }
  assert (Hp : ~ In "__proto__" (map animNameToUse (activeAnimations DEMO_CONF))).
  { vm_compute. intros Hin. repeat (destruct Hin as [Hin|Hin]; [discriminate Hin|]).
    exact Hin. }
  split; [exact H|]. split; [exact Hp|].
  apply (returns_weaken _ _ _
           (X18_generateFromConf_returns sampleEnv [] DEMO_CONF H Hp)).
  intros result (H1 & _).
  apply (H1 "Quick RGB with Tracers"). cbn. tauto.
Defined.

(** X19: [generateFromConf] throws exactly when [activeAnimations] names an
    animation that [animations] does not hold: no generator call of a
    configuration throws. *)
Theorem X19_generateFromConf_throws (env : Env) (animOrig : AnimMap)
    (confData : ConfData) (n : nat) :
  generateFromConf env animOrig confData n = None
  <-> exists name, In name (activeAnimations confData)
                   /\ confAnimation (animations confData) name = None.
Proof.
  unfold generateFromConf.
  generalize (animations confData) as anims.
  generalize (activeAnimations confData) as active. intros active anims.
  revert animOrig n.
  induction active as [|name rest IH]; intros animOrig n.
  - cbn. split; [discriminate | intros (nm & [] & _)].
  - cbn [generateActive]. destruct (confAnimation anims name) as [c|] eqn:E.
    + unfold bind. destruct (invokeP_total env c n) as (a & n' & ->).
      rewrite IH. split.
      * intros (nm & Hin & Hnm). exists nm. split; [now right | exact Hnm].
      * intros (nm & [<-|Hin] & Hnm); [congruence|]. eauto.
    + split; [|reflexivity]. intros _. exists name. split; [now left | exact E].
Qed.


(** ** The number of frames of a generator *)

Lemma withDefaultColors_length (colors : list Color) :
  (2 <= length (Part000.withDefaultColors colors))%nat.
Proof. destruct colors as [|a [|b l]]; cbn; lia. Qed.

(** The step count the tracers settle on is at least the 17 leds of a side
    and at least the step count asked for. *)
Lemma tracerSetup_steps (stepsPerColor colorCount : Z) :
  2 <= colorCount ->
  let '(_, _, stepsPerInhale) := Part000.tracerSetup stepsPerColor colorCount in
  17 <= stepsPerInhale /\ stepsPerColor <= stepsPerInhale.
Proof.
  intros Hc. unfold Part000.tracerSetup. cbv zeta.
  change (Z.of_nat (length (map Some Part000.LEFT_BASE_LEDS))) with 17.
  set (s0 := if 17 >? stepsPerColor then 17 else stepsPerColor).
  assert (Hs0 : 17 <= s0 /\ stepsPerColor <= s0).
  { unfold s0. destruct (17 >? stepsPerColor) eqn:E; lia. }
  destruct (Z.rem (colorCount * s0) 17 >? 0); [|exact Hs0].
  match goal with
  | |- context [if ?X * ?L >? s0 * colorCount then _ else _] =>
      destruct (X * L >? s0 * colorCount) eqn:E; [|exact Hs0];
      enough (s0 <= Math_round (NumQ (inject_Z (X * L) / inject_Z colorCount))) by lia;
      assert (Hgt : s0 * colorCount < X * L) by lia
  end.
  rewrite <- (Math_round_integer s0) at 1. apply Math_round_le.
  apply Qle_shift_div_l.
  - change 0%Q with (inject_Z 0). rewrite <- Zlt_Qlt. lia.
  - rewrite <- inject_Z_mult, <- Zle_Qle. lia.
Qed.

Lemma tracerSteps_bounds (stepsPerColor : option Z) (colors : list Color) :
  17 <= tracerSteps stepsPerColor colors
  /\ match stepsPerColor with
     | Some n => n
     | None => 32
     end <= tracerSteps stepsPerColor colors.
Proof.
  unfold tracerSteps.
  pose proof (withDefaultColors_length colors) as Hl.
  pose proof (tracerSetup_steps
                match stepsPerColor with
                | Some n => n
                | None => 32
                end
                (Z.of_nat (length (Part000.withDefaultColors colors)))
                ltac:(lia)) as H.
  destruct (Part000.tracerSetup _ _) as [[lt rt] s]. exact H.
Qed.

Lemma kitt2000P_frames hiColor bgColor width :
  exists a, Part000.kitt2000 hiColor bgColor width = Some a
            /\ length (frames a) = 101%nat.
Proof.
  unfold Part000.kitt2000.
  set (bleedColors := tl (bleedEntries (Part000.colorBleed _ _ _ None None))).
  assert (Hb : bleedColors <> []).
  { apply nonempty_of_length. unfold bleedColors. rewrite length_tl, fadeP_length.
    apply framesPerColor_pos. }
  assert (Hr : rev bleedColors <> []).
  { apply nonempty_of_length. rewrite length_rev.
    destruct bleedColors; [contradiction | cbn; lia]. }
  set (columns := map _ (seq 0 _)).
  set (frameText := fun i : Z => option_map (join ",") _).
  assert (Hf : forall l, exists fs, forEachOpt l frameText = Some fs
                                     /\ length fs = length l).
  { intros l.
    destruct (forEachOpt_defined l frameText (fun _ _ => True)) as (fs & E & H2).
    - intros i _. unfold frameText.
      destruct (createKitt2000Frame_defined (orDefault bgColor (RGB 0 0 0)) columns
                  bleedColors (rev bleedColors) i Hb Hr) as (fr & ->).
      cbn. eauto.
    - exists fs. split; [assumption | now apply Forall2_length_eq in H2]. }
  destruct (Hf (range 0 (Z.of_nat (length columns) - 1))) as (fw & -> & Hfw).
  destruct (Hf (rangeDown (Z.of_nat (length columns) - 2) 1)) as (bw & -> & Hbw).
  eexists. split; [reflexivity|].
  cbn [frames]. rewrite length_app, Hfw, Hbw. unfold columns.
  rewrite length_map, length_seq. vm_compute. reflexivity.
Qed.

Lemma colorPulseGeneratorP_frames n l :
  length (frames (Part000.colorPulseGenerator n l)) = (length l * framesPerColor n)%nat.
Proof.
  unfold Part000.colorPulseGenerator. cbn [frames].
  now rewrite length_map, multiColorBleedP_length.
Qed.

Lemma colorPulseGeneratorK_frames n l :
  length (frames (Kiianigen.colorPulseGenerator n l)) = (length l * framesPerColor n)%nat.
Proof.
  unfold Kiianigen.colorPulseGenerator. cbn [frames].
  now rewrite length_map, multiColorBleedK_length.
Qed.

Lemma colorBreatheGenerator_frames bpm l :
  length (frames (Part000.colorBreatheGenerator bpm l))
  = (length l * framesPerColor ((60 / bpm * 100 / inject_Z 3) / 2))%nat.
Proof.
  unfold Part000.colorBreatheGenerator. cbn [frames].
  now rewrite length_map, multiColorBleedP_length.
Qed.

Lemma baseTopBreath_frames color1 color2 :
  exists a, Part000.baseTopBreath color1 color2 = Some a
            /\ length (frames a) = 166%nat.
Proof.
  unfold Part000.baseTopBreath.
  set (steps := ((inject_Z _ * 100 / inject_Z 3) / 2)%Q).
  set (c1 := orDefault color1 _). set (c2 := orDefault color2 _).
  set (top := Part000.multiColorBleed steps _ [c1; c2]).
  set (bot := Part000.multiColorBleed steps _ [c2; c1]).
  assert (Hl : length bot = length top).
  { unfold bot, top. now rewrite !multiColorBleedP_length. }
  match goal with
  | |- context [forEachOpt ?l ?body] =>
      destruct (forEachOpt_defined l body (fun _ _ => True)) as (fs & E & H2)
  end.
  - intros [i topColor] Hi. apply indexed_In in Hi.
    destruct (nth_error_defined bot i) as (botColor & ->).
    + rewrite Hl. apply nth_error_Some. congruence.
    + cbn. eauto.
  - rewrite E. eexists. split; [reflexivity|].
    cbn [frames].
    rewrite (Forall2_length_eq _ _ _ H2), indexed_length. unfold top.
    rewrite multiColorBleedP_length. vm_compute. reflexivity.
Qed.

Lemma blueGreenBaseTopBreathSpin_frames :
  exists a, Part000.blueGreenBaseTopBreathSpin = Some a
            /\ length (frames a) = 64%nat.
Proof.
  unfold Part000.blueGreenBaseTopBreathSpin.
  set (steps := ((_ * 100 / inject_Z 10) / 2)%Q).
  set (top := Part000.multiColorBleed steps _ [RGB 0 255 0; RGB 0 0 255]).
  set (bot := Part000.multiColorBleed steps _ [RGB 0 0 255; RGB 0 255 0]).
  destruct (spinFrames_defined bot top 0 (range 88 119)) as (fs & -> & Hl).
  { unfold bot, top. rewrite !multiColorBleedP_length. cbn. lia. }
  eexists. split; [reflexivity|].
  cbn [frames]. rewrite Hl. unfold top. rewrite multiColorBleedP_length.
  vm_compute. reflexivity.
Qed.

Lemma keyGroupCycler_frames env stepsPerColor args :
  exists a, Part000.keyGroupCycler env stepsPerColor args = Some a
            /\ length (frames a)
               = (length (Part000.withDefaultColors args)
                  * framesPerColor (inject_Z (match stepsPerColor with
                                              | Some n => n
                                              | None => 16
                                              end)))%nat.
Proof.
  unfold Part000.keyGroupCycler.
  set (n := inject_Z _). set (colorValues := Part000.withDefaultColors args).
  set (kgf := Part000.keyGroupBleeds n colorValues Part000.KEY_GROUPS).
  pose proof (keyGroupBleeds_lengths n Part000.KEY_GROUPS colorValues) as Hall.
  fold kgf in Hall.
  set (L := (length colorValues * framesPerColor n)%nat) in *.
  assert (HL : length (snd (last kgf ([], []))) = L).
  { apply (Forall_last _ kgf ([], [])) in Hall; [assumption|]. discriminate. }
  rewrite HL.
  match goal with
  | |- context [forEachOpt (seq 0 L) ?body] =>
      destruct (forEachOpt_defined (seq 0 L) body (fun _ _ => True)) as (fs & E & H2)
  end.
  - intros i Hi. apply in_seq in Hi.
    match goal with
    | |- context [forEachOpt kgf ?body] =>
        destruct (forEachOpt_defined kgf body (fun _ _ => True)) as (parts & Ep & _)
    end.
    + intros [keys groupFrames] Hin.
      pose proof (proj1 (Forall_forall _ _) Hall _ Hin) as Hlen. cbn [snd] in Hlen.
      destruct (nth_error_defined groupFrames i) as (color & ->); [lia|].
      destruct (Part000.groupPixelNumbers env keys); eauto.
    + rewrite Ep. cbn. eauto.
  - rewrite E. eexists. split; [reflexivity|].
    cbn [frames]. now rewrite (Forall2_length_eq _ _ _ H2), length_seq.
Qed.

Lemma verticalPulseFrames_count stepsPerColor args :
  exists fs,
    Part000.verticalPulseFrames stepsPerColor args = Some fs
    /\ length fs = (length (Part000.withDefaultColors args)
                    * Z.to_nat (tracerSteps stepsPerColor args))%nat.
Proof.
  pose proof (tracerSteps_bounds stepsPerColor args) as [H17 _].
  unfold Part000.verticalPulseFrames, tracerSteps in *.
  set (n := match stepsPerColor with Some m => m | None => 32 end) in *.
  set (colorValues := Part000.withDefaultColors args) in *.
  pose proof (tracerSetup_sidesOk n (Z.of_nat (length colorValues))) as Hs.
  destruct (Part000.tracerSetup n (Z.of_nat (length colorValues)))
    as [[ltSide rtSide] stepsPerInhale].
  destruct (tracerFrames_defined
              (Part000.multiColorBleed (inject_Z stepsPerInhale) (Some interpSine)
                                       (shiftPush colorValues))
              (Part000.multiColorBleed (inject_Z stepsPerInhale) (Some interpSine)
                                       colorValues)
              0%nat ltSide rtSide Hs) as (fs & E & Hl & Hall).
  { rewrite !multiColorBleedP_length, shiftPush_length. cbn. lia. }
  exists fs. split; [assumption|].
  rewrite Hl, multiColorBleedP_length, framesPerColor_integer by lia. reflexivity.
Qed.

(** X20: the number of frames of every generator call, whatever the
    device data and the random numbers.  It is fixed for most generators;
    [whiteNoise] emits [maxFrames] frames (20 when unset or 0, none when
    negative), [keyGroupCycler] one frame for each colour and step, and
    [verticalPulseWithTracers] one for each colour and each step of the
    count its tracers settle on.  Both files. *)
Theorem X20_frame_counts (env : Env) :
  (forall c, returns (Part000.invoke env c) (fun a => length (frames a) = frameCountP c))
  /\ (forall c, returns (Kiianigen.invoke env c)
                        (fun a => length (frames a) = frameCountK c)).
Proof.
  split.
  - intros c. destruct c; cbn [Part000.invoke frameCountP].
    + apply (returns_weaken _ _ _ (dodgyPixelP_returns env hiColor bgColor)). tauto.
    + apply returns_lift. apply kitt2000P_frames.
    + apply returns_ret. vm_compute. reflexivity.
    + apply returns_ret. unfold Part000.macSleepBreath.
      rewrite colorBreatheGenerator_frames. vm_compute. reflexivity.
    + apply returns_ret. unfold Part000.blueGreenBreath.
      rewrite colorBreatheGenerator_frames. vm_compute. reflexivity.
    + apply returns_lift. apply blueGreenBaseTopBreathSpin_frames.
    + apply returns_lift. apply keyGroupCycler_frames.
    + apply returns_lift. unfold Part000.verticalPulseWithTracers.
      destruct (verticalPulseFrames_count stepsPerColor colors) as (fs & -> & Hl).
      eexists. split; [reflexivity|]. cbn [frames]. now rewrite length_map.
    + apply returns_lift. apply baseTopBreath_frames.
    + apply returns_ret. rewrite colorPulseGeneratorP_frames. vm_compute. reflexivity.
    + apply returns_ret. rewrite colorPulseGeneratorP_frames. vm_compute. reflexivity.
    + apply returns_ret. rewrite colorPulseGeneratorP_frames. vm_compute. reflexivity.
    + apply returns_ret. rewrite colorPulseGeneratorP_frames. vm_compute. reflexivity.
    + apply returns_ret. rewrite colorPulseGeneratorP_frames. vm_compute. reflexivity.
    + apply (returns_weaken _ _ _ (whiteNoise_shape env maxFrames)). tauto.
    + apply returns_ret. reflexivity.
    + apply returns_ret. vm_compute. reflexivity.
    + apply (returns_weaken _ _ _ (escapeTest_returns env)). tauto.
  - intros c. destruct c; cbn [Kiianigen.invoke frameCountK].
    + apply (returns_weaken _ _ _ (dodgyPixelK_returns env)). tauto.
    + apply returns_lift. eexists. split; [vm_compute; reflexivity|].
      vm_compute. reflexivity.
    + apply returns_ret. vm_compute. reflexivity.
    + apply returns_ret. rewrite colorPulseGeneratorK_frames. vm_compute. reflexivity.
    + apply returns_ret. rewrite colorPulseGeneratorK_frames. vm_compute. reflexivity.
    + apply returns_ret. rewrite colorPulseGeneratorK_frames. vm_compute. reflexivity.
    + apply returns_ret. rewrite colorPulseGeneratorK_frames. vm_compute. reflexivity.
    + apply (returns_weaken _ _ _ (whiteNoise_shape env maxFrames)). tauto.
    + apply returns_ret. reflexivity.
    + apply (returns_weaken _ _ _ (escapeTest_returns env)). tauto.
Qed.

(** X21: the step count of [verticalPulseWithTracers].  Whatever step count
    and colours it is called with, it returns an animation of one frame for
    each colour and each step of a count that is at least 17, the leds of
    one side of the base, and at least the count asked for (32 when unset):
    the tracers never shorten the pulse. *)
Theorem X21_verticalPulse_steps (stepsPerColor : option Z) (colors : list Color) :
  exists a,
    Part000.verticalPulseWithTracers stepsPerColor colors = Some a
    /\ Z.of_nat (length (frames a))
       = Z.of_nat (length (Part000.withDefaultColors colors))
         * tracerSteps stepsPerColor colors
    /\ 17 <= tracerSteps stepsPerColor colors
    /\ match stepsPerColor with
       | Some n => n
       | None => 32
       end <= tracerSteps stepsPerColor colors
    /\ (2 <= length (Part000.withDefaultColors colors))%nat
    /\ (34 <= length (frames a))%nat.
Proof.
  destruct (tracerSteps_bounds stepsPerColor colors) as [H17 Hn].
  pose proof (withDefaultColors_length colors) as Hc.
  unfold Part000.verticalPulseWithTracers.
  destruct (verticalPulseFrames_count stepsPerColor colors) as (fs & -> & Hl).
  eexists. split; [reflexivity|]. cbn [frames]. rewrite length_map, Hl.
  split; [rewrite Nat2Z.inj_mul, Z2Nat.id by lia; reflexivity|].
  split; [exact H17|]. split; [exact Hn|]. split; [exact Hc|]. nia.
Qed.


(** ** The pixels of a frame of [verticalPulseWithTracers] *)

Lemma forEachOpt_app {A B : Type} (l1 l2 : list A) (body : A -> option B) :
  forEachOpt (app l1 l2) body
  = match forEachOpt l1 body, forEachOpt l2 body with
    | Some a, Some b => Some (app a b)
    | _, _ => None
    end.
Proof.
  induction l1 as [|x l1 IH]; cbn [app forEachOpt].
  - destruct (forEachOpt l2 body); reflexivity.
  - destruct (body x); [|reflexivity]. rewrite IH.
    destruct (forEachOpt l1 body), (forEachOpt l2 body); reflexivity.
Qed.

Lemma tracerCommands_keys_from (botColor : Entry) (len : nat)
    (rtFull : list (option Z)) (ltSide rtSide : list (option Z)) :
  sidesOk ltSide rtSide ->
  forall pre,
    rtFull = app pre rtSide ->
    forEachOpt
      (flat_map
         (fun '(j, lt) =>
            match lt with
            | None => []
            | Some ltId =>
                let intensity :=
                  if Z.of_nat j >? Z.of_nat len - 4 then 1%Q else (5 # 100)%Q in
                let rt := match nth_error rtFull j with
                          | Some (Some rtId) => Some rtId
                          | _ => None
                          end in
                let pixel (id : option Z) :=
                  getPixel None None (scaled botColor 0 intensity)
                           (scaled botColor 1 intensity) (scaled botColor 2 intensity) id in
                app [pixel (Some ltId)]
                    (if negb (ltId =? 94) && negb (ltId =? 110) then [pixel rt] else [])
            end)
         (combine (seq (length pre) (length ltSide)) ltSide))
      pixelId
    = Some (tracerIds ltSide rtSide).
Proof.
  induction 1 as [|lt rt ltSide rtSide Hhd Htl IH]; intros pre E; [reflexivity|].
  specialize (IH (app pre [rt])).
  rewrite length_app, Nat.add_1_r in IH.
  match type of IH with
  | _ -> forEachOpt (flat_map ?f _) _ = _ => set (F := f) in *
  end.
  cbn [length seq combine flat_map]. rewrite forEachOpt_app.
  unfold tracerIds. cbn [combine flat_map]. fold (tracerIds ltSide rtSide).
  rewrite IH by (rewrite <- app_assoc; exact E).
  unfold F.
  destruct lt as [ltId|]; [|reflexivity].
  destruct Hhd as (Hlt & rtId & -> & Hrt).
  assert (Hn : nth_error rtFull (length pre) = Some (Some rtId)).
  { rewrite E, nth_error_app2, Nat.sub_diag by lia. reflexivity. }
  rewrite Hn. cbv zeta.
  destruct (negb (ltId =? 94) && negb (ltId =? 110));
    cbn [app forEachOpt option_map]; rewrite !pixelId_getPixel by assumption;
    reflexivity.
Qed.

Lemma tracerCommands_keys (botColor : Entry) (ltSide rtSide : list (option Z)) :
  sidesOk ltSide rtSide ->
  forEachOpt (Part000.tracerCommands botColor ltSide rtSide) pixelId
  = Some (tracerIds ltSide rtSide).
Proof.
  intros H.
  exact (tracerCommands_keys_from botColor (length ltSide) rtSide ltSide rtSide H []
           eq_refl).
Qed.

Lemma combine_app_same {A B : Type} (l1 l2 : list A) (r1 r2 : list B) :
  length l1 = length r1 ->
  combine (app l1 l2) (app r1 r2) = app (combine l1 r1) (combine l2 r2).
Proof.
  revert r1. induction l1 as [|a l1 IH]; intros [|b r1] H; try discriminate H.
  - reflexivity.
  - cbn [app combine]. f_equal. apply IH. now injection H.
Qed.

Lemma sidesOk_length (ltSide rtSide : list (option Z)) :
  sidesOk ltSide rtSide -> length ltSide = length rtSide.
Proof. intros H. symmetry. exact (Forall2_length_eq _ _ _ H). Qed.

Lemma tracerIds_shiftPush (ltSide rtSide : list (option Z)) :
  length ltSide = length rtSide ->
  Permutation (tracerIds (shiftPush ltSide) (shiftPush rtSide)) (tracerIds ltSide rtSide).
Proof.
  intros H. destruct ltSide as [|a lt], rtSide as [|b rt]; try discriminate H;
    [reflexivity|].
  unfold tracerIds. cbn [shiftPush].
  rewrite combine_app_same by (now injection H).
  apply Permutation_flat_map. cbn [combine].
  symmetry. apply Permutation_cons_append.
Qed.

Lemma tracerIds_padded (k : nat) :
  Permutation (tracerIds (app (map Some Part000.LEFT_BASE_LEDS) (repeat None k))
                         (app (map Some Part000.RIGHT_BASE_LEDS) (repeat None k)))
              (range 88 119).
Proof.
  unfold tracerIds. rewrite combine_app_same by reflexivity.
  rewrite flat_map_app.
  assert (E : flat_map (fun '(lt, rt) =>
                          match lt, rt with
                          | Some ltId, Some rtId =>
                              ltId :: (if negb (ltId =? 94) && negb (ltId =? 110)
                                       then [rtId] else [])
                          | Some ltId, None => [ltId]
                          | None, _ => []
                          end)
                       (combine (repeat (@None Z) k) (repeat (@None Z) k)) = []).
  { induction k as [|k IH]; [reflexivity | exact IH]. }
  rewrite E, app_nil_r. vm_compute.
  apply NoDup_Permutation.
  - repeat (constructor; [cbn; lia|]). constructor.
  - repeat (constructor; [cbn; lia|]). constructor.
  - intros x. cbn. lia.
Qed.

Lemma tracerSetup_ids stepsPerColor colorCount :
  let '(ltSide, rtSide, _) := Part000.tracerSetup stepsPerColor colorCount in
  Permutation (tracerIds ltSide rtSide) (range 88 119).
Proof.
  unfold Part000.tracerSetup. cbv zeta.
  destruct (Z.rem _ _ >? 0).
  - apply tracerIds_padded.
  - rewrite <- (app_nil_r (map Some Part000.LEFT_BASE_LEDS)).
    rewrite <- (app_nil_r (map Some Part000.RIGHT_BASE_LEDS)).
    exact (tracerIds_padded 0).
Qed.

Lemma forEachOpt_Permutation {A B : Type} (body : A -> option B) (l l' : list A) :
  Permutation l l' ->
  forall ks, forEachOpt l body = Some ks ->
  exists ks', forEachOpt l' body = Some ks' /\ Permutation ks ks'.
Proof.
  induction 1 as [|x l l' Hp IH|x y l|l l' l'' Hp1 IH1 Hp2 IH2]; intros ks Hk.
  - exists []. cbn in Hk. injection Hk as <-. split; [reflexivity | constructor].
  - cbn [forEachOpt] in *. destruct (body x) as [b|]; [|discriminate].
    destruct (forEachOpt l body) as [bs|]; [|discriminate].
    cbn in Hk. injection Hk as <-.
    destruct (IH bs eq_refl) as (bs' & -> & Hb). cbn.
    exists (b :: bs'). split; [reflexivity | now constructor].
  - cbn [forEachOpt] in *. destruct (body y) as [b|]; [|discriminate].
    destruct (body x) as [a|]; [|discriminate].
    destruct (forEachOpt l body) as [bs|]; [|discriminate].
    cbn in Hk. injection Hk as <-. cbn.
    exists (a :: b :: bs). split; [reflexivity | constructor].
  - destruct (IH1 ks Hk) as (ks' & Hk' & Hp).
    destruct (IH2 ks' Hk') as (ks'' & Hk'' & Hp').
    exists ks''. split; [assumption | now transitivity ks'].
Qed.

(** Two sorted lists with the same elements are the same list. *)
Lemma sorted_Permutation_eq (l l' : list Z) :
  Sorted Z.le l -> Sorted Z.le l' -> Permutation l l' -> l = l'.
Proof.
  intros Hl Hl'.
  apply Sorted_StronglySorted in Hl; [|exact Z.le_trans].
  apply Sorted_StronglySorted in Hl'; [|exact Z.le_trans].
  revert l' Hl'. induction Hl as [|a l Hs IH Ha]; intros l' Hl' Hp.
  - apply Permutation_nil in Hp. now subst.
  - destruct Hl' as [|b l' Hs' Hb].
    + apply Permutation_sym, Permutation_nil in Hp. discriminate.
    + assert (Hab : a = b).
      { assert (Hin : In b (a :: l)) by (eapply Permutation_in; [symmetry; exact Hp | now left]).
        assert (Hin' : In a (b :: l')) by (eapply Permutation_in; [exact Hp | now left]).
        destruct Hin as [->|Hin]; [reflexivity|].
        destruct Hin' as [->|Hin']; [reflexivity|].
        pose proof (proj1 (Forall_forall _ _) Ha _ Hin).
        pose proof (proj1 (Forall_forall _ _) Hb _ Hin'). lia. }
      subst b. f_equal. apply IH; [assumption|].
      now apply Permutation_cons_inv in Hp.
Qed.

Lemma tracerPixels_sorted : Sorted Z.le tracerPixels.
Proof.
  assert (E : tracerPixels
              =
       [1; 87; 88; 89; 90; 91; 92; 93; 94; 95; 96; 97; 98; 99; 100; 101; 102;
        103; 104; 105; 106; 107; 108; 109; 110; 111; 112; 113; 114; 115; 116;
        117; 118; 119])
    by (vm_compute; reflexivity).
  rewrite E.
  repeat (apply Sorted_cons; [|first [apply HdRel_nil | apply HdRel_cons; lia]]).
  apply Sorted_nil.
Qed.

Lemma tracerFrames_pixels botColors topColors :
  forall i ltSide rtSide,
    sidesOk ltSide rtSide ->
    Permutation (tracerIds ltSide rtSide) (range 88 119) ->
    (i + length topColors <= length botColors)%nat ->
    exists fs, Part000.tracerFrames botColors i ltSide rtSide topColors = Some fs
               /\ Forall (fun frame => forEachOpt frame pixelId = Some tracerPixels) fs.
Proof.
  induction topColors as [|topColor rest IH]; intros i ltSide rtSide Hs Hp Hl.
  - exists []. split; [reflexivity | constructor].
  - cbn [Part000.tracerFrames]. cbn [length] in Hl.
    destruct (nth_error_defined botColors i) as (botColor & ->); [lia|].
    set (frame := app [idPixel topColor (Some 1); idPixel topColor (Some 87)]
                      (Part000.tracerCommands botColor ltSide rtSide)).
    assert (Hk : forEachOpt frame pixelId = Some (1 :: 87 :: tracerIds ltSide rtSide)).
    { unfold frame. rewrite forEachOpt_app, tracerCommands_keys by assumption.
      unfold idPixel. cbn [forEachOpt option_map].
      rewrite !pixelId_getPixel by lia. reflexivity. }
    destruct (sortPixelFrame_sorted _ _ Hk) as (sorted & -> & Hperm & keys & Hkeys & Hsorted).
    destruct (forEachOpt_Permutation pixelId _ _ Hperm _ Hk) as (keys' & Hkeys' & Hpk).
    assert (keys' = keys) by congruence. subst keys'.
    assert (Hfinal : keys = tracerPixels).
    { apply sorted_Permutation_eq; [assumption | apply tracerPixels_sorted |].
      symmetry. etransitivity; [|exact Hpk].
      unfold tracerPixels. do 2 apply perm_skip. now symmetry. }
    destruct (IH (S i) (shiftPush ltSide) (shiftPush rtSide)) as (fs & -> & Hall).
    + now apply sidesOk_shiftPush.
    + etransitivity; [apply tracerIds_shiftPush, sidesOk_length, Hs | exact Hp].
    + lia.
    + cbn [option_map]. eexists. split; [reflexivity|].
      constructor; [congruence | exact Hall].
Qed.

(** X22: every frame of [verticalPulseWithTracers] sets each of the 34
    pixels once, in the order of their ids: the two pixels 1 and 87 of the
    keyboard and the 32 pixels 88 to 119 of the base, whatever the step
    count, the colours and the padding of the tracers. *)
Theorem X22_verticalPulse_pixels (stepsPerColor : option Z) (colors : list Color) :
  exists sortedFrames a,
    Part000.verticalPulseFrames stepsPerColor colors = Some sortedFrames
    /\ Part000.verticalPulseWithTracers stepsPerColor colors = Some a
    /\ frames a = map (join ",") sortedFrames
    /\ Forall (fun frame => forEachOpt frame pixelId = Some tracerPixels
                            /\ length frame = 34%nat)
              sortedFrames
    /\ tracerPixels = 1 :: 87 :: range 88 119.
Proof.
  unfold Part000.verticalPulseWithTracers, Part000.verticalPulseFrames.
  set (n := match stepsPerColor with Some m => m | None => 32 end).
  set (colorValues := Part000.withDefaultColors colors).
  pose proof (tracerSetup_sidesOk n (Z.of_nat (length colorValues))) as Hs.
  pose proof (tracerSetup_ids n (Z.of_nat (length colorValues))) as Hp.
  destruct (Part000.tracerSetup n (Z.of_nat (length colorValues)))
    as [[ltSide rtSide] stepsPerInhale].
  destruct (tracerFrames_pixels
              (Part000.multiColorBleed (inject_Z stepsPerInhale) (Some interpSine)
                                       (shiftPush colorValues))
              (Part000.multiColorBleed (inject_Z stepsPerInhale) (Some interpSine)
                                       colorValues)
              0%nat ltSide rtSide Hs Hp) as (fs & E & Hall).
  { rewrite !multiColorBleedP_length, shiftPush_length. cbn. lia. }
  rewrite E. exists fs. eexists. split; [reflexivity|]. split; [reflexivity|].
  split; [reflexivity|]. split; [|reflexivity].
  apply Forall_forall. intros frame Hin.
  pose proof (proj1 (Forall_forall _ _) Hall frame Hin) as Hk.
  split; [exact Hk|].
  destruct (forEachOpt_keys _ _ Hk) as [Hlen _]. rewrite <- Hlen. reflexivity.
Qed.


(** ** The cells of [dodgyPixel] *)

Lemma range_In (lo hi x : Z) : In x (range lo hi) <-> lo <= x <= hi.
Proof.
  unfold range. rewrite in_map_iff. split.
  - intros (d & <- & Hd). apply in_seq in Hd. lia.
  - intros H. exists (Z.to_nat (x - lo)). split; [lia|]. apply in_seq. lia.
Qed.

Lemma flat_map_length_const {A B : Type} (f : A -> list B) (c : nat) (l : list A) :
  (forall x, length (f x) = c) -> length (flat_map f l) = (length l * c)%nat.
Proof.
  intros H. induction l as [|x l IH]; [reflexivity|].
  cbn [flat_map length]. rewrite length_app, H, IH. lia.
Qed.

Lemma random_cell (u : Q) (m : Z) :
  (0 <= u)%Q -> (u < 1)%Q -> 0 <= m -> 0 <= Math_round (NumQ (u * inject_Z m)) <= m.
Proof.
  intros H0 H1 Hm.
  assert (Hq : (0 <= inject_Z m)%Q) by (change 0%Q with (inject_Z 0); now rewrite <- Zle_Qle).
  apply Math_round_between.
  - change (inject_Z 0) with 0%Q. Lqa.nra.
  - Lqa.nra.
Qed.

(** X23: the blinks of [dodgyPixel] stay on the grid.  With random numbers
    of [[0, 1)] and grid bounds that are not negative, the animation is the
    background frame, one command for each cell of the grid, followed by 50
    blinks; each blink lights a cell of the grid and then sets it to the
    very command the background frame has for it.  The older file does the
    same with its fixed colours. *)
Theorem X23_dodgyPixel_cells (env : Env) (hiColor bgColor : option Color) :
  (forall k, (0 <= random env k)%Q /\ (random env k < 1)%Q) ->
  0 <= maxRow env -> 0 <= maxCol env ->
  returns (Part000.dodgyPixel env hiColor bgColor)
    (fun a =>
       exists background cells,
         frames a
         = join "," background
             :: flat_map (blinkFrames (orDefault hiColor (RGB 255 255 255))
                                      (orDefault bgColor (RGB 25 25 25))) cells
         /\ length background = Z.to_nat ((maxRow env + 1) * (maxCol env + 1))
         /\ length cells = 50%nat
         /\ Forall (fun cell =>
                      0 <= fst cell <= maxRow env /\ 0 <= snd cell <= maxCol env
                      /\ In (rgbPixel (Some (JNum (fst cell))) (Some (JNum (snd cell)))
                                      (orDefault bgColor (RGB 25 25 25)) None)
                            background)
                   cells)
  /\ Kiianigen.dodgyPixel env = Part000.dodgyPixel env None None.
Proof.
  intros Hrand Hrow Hcol. split; [|reflexivity].
  unfold Part000.dodgyPixel.
  set (hi := orDefault hiColor (RGB 255 255 255)).
  set (bg := orDefault bgColor (RGB 25 25 25)).
  set (background :=
         flat_map (fun x => map (fun y => rgbPixel (Some (JNum x)) (Some (JNum y)) bg None)
                                (range 0 (maxCol env)))
                  (range 0 (maxRow env))).
  assert (Hbg : forall x y, 0 <= x <= maxRow env -> 0 <= y <= maxCol env ->
                            In (rgbPixel (Some (JNum x)) (Some (JNum y)) bg None) background).
  { intros x y Hx Hy. unfold background. apply in_flat_map.
    exists x. split; [now apply range_In|].
    apply in_map_iff. exists y. split; [reflexivity | now apply range_In]. }
  eapply returns_bind.
  - apply (returns_forEach _ _
             (fun _ pair => exists cell,
                  pair = blinkFrames hi bg cell
                  /\ 0 <= fst cell <= maxRow env /\ 0 <= snd cell <= maxCol env)).
    intros _ _.
    eapply returns_bind; [apply (returns_random env (fun u => (0 <= u)%Q /\ (u < 1)%Q));
                          exact Hrand|].
    intros u1 [H10 H11].
    eapply returns_bind; [apply (returns_random env (fun u => (0 <= u)%Q /\ (u < 1)%Q));
                          exact Hrand|].
    intros u2 [H20 H21]. apply returns_ret.
    exists (Math_round (NumQ (u1 * inject_Z (maxRow env))),
            Math_round (NumQ (u2 * inject_Z (maxCol env)))).
    split; [reflexivity|]. cbn [fst snd].
    split; now apply random_cell.
  - intros blinks Hb. apply returns_ret. cbn [frames app].
    assert (Hcells : exists cells,
               concat blinks = flat_map (blinkFrames hi bg) cells
               /\ length cells = length (seq 0 50)
               /\ Forall (fun cell => 0 <= fst cell <= maxRow env
                                      /\ 0 <= snd cell <= maxCol env) cells).
    { induction Hb as [|x pair xs pairs (cell & -> & Hx & Hy) _ (cells & E & Hl & Hall)].
      - exists []. repeat split. constructor.
      - exists (cell :: cells). cbn [concat flat_map length]. rewrite E, Hl.
        repeat split. now constructor. }
    destruct Hcells as (cells & E & Hl & Hall).
    exists background, cells. rewrite E.
    split; [reflexivity|]. split.
    + unfold background.
      rewrite (flat_map_length_const _ (Z.to_nat (maxCol env + 1))).
      * rewrite range_length. replace (maxRow env - 0 + 1) with (maxRow env + 1) by lia.
        rewrite Z2Nat.inj_mul by lia. reflexivity.
      * intros x. rewrite length_map, range_length. f_equal. lia.
    + split; [exact Hl|].
      apply Forall_forall. intros cell Hin.
      destruct (proj1 (Forall_forall _ _) Hall cell Hin) as [Hx Hy].
      split; [exact Hx|]. split; [exact Hy|]. now apply Hbg.
Qed.

Lemma X23_dodgyPixel_cells_witness :
  (forall k, (0 <= random sampleEnv k)%Q /\ (random sampleEnv k < 1)%Q)
  /\ 0 <= maxRow sampleEnv /\ 0 <= maxCol sampleEnv
  /\ returns (Part000.dodgyPixel sampleEnv None None)
       (fun a => exists background cells,
            frames a
            = join "," background
                :: flat_map (blinkFrames (RGB 255 255 255) (RGB 25 25 25)) cells
            /\ length background = 108%nat
            /\ length cells = 50%nat).
Proof.
  assert (Hr : forall k, (0 <= random sampleEnv k)%Q /\ (random sampleEnv k < 1)%Q).
  { intros k. cbn. unfold Qle, Qlt. cbn. lia. }
  assert (H0 : 0 <= maxRow sampleEnv) by (cbn; lia).
  assert (H1 : 0 <= maxCol sampleEnv) by (cbn; lia).
  split; [exact Hr|]. split; [exact H0|]. split; [exact H1|].
  apply (returns_weaken _ _ _
           (proj1 (X23_dodgyPixel_cells sampleEnv None None Hr H0 H1))).
  intros a (background & cells & E & Hb & Hc & _).
  exists background, cells. split; [exact E|]. split; [exact Hb | exact Hc].
Defined.


(** ** A bleed moves one way *)

Lemma Math_round_real_le (r1 r2 : R) :
  (r1 <= r2)%R -> Math_round (NumR r1) <= Math_round (NumR r2).
Proof.
  intros H. unfold Math_round.
  destruct (base_Int_part (r1 + / 2)) as [Ha _].
  destruct (base_Int_part (r2 + / 2)) as [_ Hb].
  apply Z.lt_succ_r, lt_IZR. rewrite succ_IZR. lra.
Qed.

Lemma linear_monotone : monotoneInterp interpLinear.
Proof.
  intros s t n o d Hs Hst Ht Hn. unfold interpLinear, linearInterpolate.
  assert (Hdiv : (inject_Z s / n <= inject_Z t / n)%Q).
  { unfold Qdiv. apply Qmult_le_compat_r; [now rewrite <- Zle_Qle|].
    apply Qinv_le_0_compat. Lqa.lra. }
  split; intros Hod; apply Math_round_le; rewrite Zle_Qle in Hod; Lqa.nra.
Qed.

Lemma sine_monotone : monotoneInterp interpSine.
Proof.
  intros s t n o d Hs Hst Ht Hn. unfold interpSine, sineInterpolate.
  assert (Hn' : (0 < Q2R n)%R).
  { apply Qreals.Qlt_Rlt in Hn. now rewrite RMicromega.Q2R_0 in Hn. }
  assert (Ht' : (IZR t <= Q2R n)%R).
  { apply Qreals.Qle_Rle in Ht. now rewrite Q2R_inject_Z in Ht. }
  pose proof (sine_monotone_factor (IZR s) (IZR t) (Q2R n)
                (IZR_le _ _ Hs) (IZR_le _ _ Hst) Ht' Hn') as Hf.
  split; intros Hod; apply Math_round_real_le; apply IZR_le in Hod; nra.
Qed.

Lemma clampChannel_le (a b : Z) : a <= b -> clampChannel a <= clampChannel b.
Proof. unfold clampChannel. lia. Qed.

Lemma bleedColorsP_toward c1 c2 (n : Q) (f : Interp) (i j : nat) (ci cj : Color) :
  (0 < n)%Q -> monotoneInterp f -> (i <= j)%nat ->
  nth_error (bleedColorsP c1 c2 n f) i = Some ci ->
  nth_error (bleedColorsP c1 c2 n f) j = Some cj ->
  channelsToward c1 c2 ci cj.
Proof.
  intros Hn Hf Hij Hi Hj.
  assert (Hlen : (j < Z.to_nat (Qfloor n + 1))%nat).
  { rewrite <- (bleedColorsP_length c1 c2 n f). apply nth_error_Some. congruence. }
  unfold bleedColorsP, loopUpTo in Hi, Hj.
  rewrite nth_error_map, nth_error_seq_map in Hi, Hj by lia.
  cbn [option_map] in Hi, Hj. injection Hi as <-. injection Hj as <-.
  assert (Hjn : (inject_Z (Z.of_nat j) <= n)%Q).
  { apply Qle_trans with (inject_Z (Qfloor n)); [|apply Qfloor_le].
    rewrite <- Zle_Qle. lia. }
  assert (H : forall o d,
             (o <= d -> clampChannel (Math_round (f (Z.of_nat i) n o d))
                        <= clampChannel (Math_round (f (Z.of_nat j) n o d)))
             /\ (d <= o -> clampChannel (Math_round (f (Z.of_nat j) n o d))
                           <= clampChannel (Math_round (f (Z.of_nat i) n o d)))).
  { intros o d.
    destruct (Hf (Z.of_nat i) (Z.of_nat j) n o d) as [H1 H2]; try assumption; try lia.
    split; intros Hod; apply clampChannel_le; auto. }
  destruct c1 as [r1 g1 b1], c2 as [r2 g2 b2]. cbn [mapChannels channelsToward].
  split; [apply H|]. split; apply H.
Qed.

(** X24: a bleed moves one way.  With linear or sine interpolation, on
    every channel the colours of the array [colorBleed] returns go from the
    first colour towards the second without ever turning back: they never
    decrease where the channel of the second colour is the larger one and
    never increase where it is the smaller one.  Both files. *)
Theorem X24_colorBleed_monotone :
  monotoneInterp interpLinear
  /\ monotoneInterp interpSine
  /\ (forall c1 c2 steps f colors i j ci cj,
        monotoneInterp (interpOrLinear f) ->
        Part000.colorBleed c1 c2 (Some steps) None f = BleedAll colors ->
        (i <= j)%nat ->
        nth_error colors i = Some ci -> nth_error colors j = Some cj ->
        channelsToward c1 c2 ci cj)
  /\ (forall c1 c2 steps colors i j ci cj,
        Kiianigen.colorBleed c1 c2 (Some steps) None = BleedAll colors ->
        (i <= j)%nat ->
        nth_error colors i = Some ci -> nth_error colors j = Some cj ->
        channelsToward c1 c2 ci cj).
Proof.
  assert (HP : forall c1 c2 steps f colors i j ci cj,
             monotoneInterp (interpOrLinear f) ->
             Part000.colorBleed c1 c2 (Some steps) None f = BleedAll colors ->
             (i <= j)%nat ->
             nth_error colors i = Some ci -> nth_error colors j = Some cj ->
             channelsToward c1 c2 ci cj).
  { intros c1 c2 steps f colors i j ci cj Hf E Hij Hi Hj.
    rewrite colorBleedP_unfold in E.
    destruct (Qltb steps 2) eqn:E2; [discriminate|]. injection E as <-.
    exact (bleedColorsP_toward c1 c2 steps _ i j ci cj
             (proj1 (two_le_nonzero steps E2)) Hf Hij Hi Hj). }
  split; [exact linear_monotone|]. split; [exact sine_monotone|].
  split; [exact HP|].
  intros c1 c2 steps colors i j ci cj E. rewrite colorBleed_agree in E.
  exact (HP c1 c2 steps None colors i j ci cj linear_monotone E).
Qed.


(** ** Rotating an array *)

Lemma popUnshift_shiftPush {A : Type} (l : list A) : popUnshift (shiftPush l) = l.
Proof.
  destruct l as [|x rest]; [reflexivity|].
  unfold popUnshift, shiftPush. rewrite rev_app_distr. cbn [rev app].
  now rewrite rev_involutive.
Qed.

Lemma shiftPush_popUnshift {A : Type} (l : list A) : shiftPush (popUnshift l) = l.
Proof.
  unfold popUnshift. destruct (rev l) as [|p front] eqn:E.
  - apply (f_equal (@rev A)) in E. rewrite rev_involutive in E. now subst.
  - cbn [shiftPush]. apply (f_equal (@rev A)) in E. rewrite rev_involutive in E.
    now subst.
Qed.

Lemma shiftPush_iter {A : Type} (n : nat) (l : list A) :
  (n <= length l)%nat -> Nat.iter n shiftPush l = app (skipn n l) (firstn n l).
Proof.
  induction n as [|n IH]; intros H.
  - cbn. now rewrite app_nil_r.
  - rewrite Nat.iter_succ, IH by lia.
    destruct (skipn n l) as [|x rest] eqn:E.
    + exfalso. apply (f_equal (@length A)) in E. rewrite length_skipn in E. cbn in E. lia.
    + cbn [shiftPush app].
      assert (E1 : skipn (S n) l = rest).
      { replace (S n) with (1 + n)%nat by lia. rewrite <- skipn_skipn, E. reflexivity. }
      assert (E2 : firstn (S n) l = app (firstn n l) [x]).
      { rewrite <- (firstn_skipn n l) at 1. rewrite E.
        replace (S n) with (length (firstn n l) + 1)%nat
          by (rewrite length_firstn; lia).
        rewrite firstn_app_2. reflexivity. }
      rewrite E1, E2. now rewrite <- app_assoc.
Qed.

Lemma iter_inverse {A : Type} (f g : A -> A) (n : nat) (x : A) :
  (forall y, g (f y) = y) -> Nat.iter n g (Nat.iter n f x) = x.
Proof.
  intros H. induction n as [|n IH]; [reflexivity|].
  rewrite Nat.iter_succ_r, (Nat.iter_succ n A f), H. exact IH.
Qed.

(** X25: the rotations of the script on an array that is not empty.
    [getShiftedArray] moves the first element to the end, keeping the
    elements and the length; [pop] and [unshift], as [topAndBottom2] and the
    spin use them on the base ids, undo it and are undone by it; and as many
    rotations, either way, as the array has elements give the array back. *)
Theorem X25_rotations {A : Type} (arr : list A) :
  arr <> [] ->
  Part000.getShiftedArray arr = app (tl arr) (firstn 1 arr)
  /\ Permutation arr (Part000.getShiftedArray arr)
  /\ length (Part000.getShiftedArray arr) = length arr
  /\ popUnshift (Part000.getShiftedArray arr) = arr
  /\ Part000.getShiftedArray (popUnshift arr) = arr
  /\ Nat.iter (length arr) Part000.getShiftedArray arr = arr
  /\ Nat.iter (length arr) popUnshift arr = arr.
Proof.
  intros Hne. unfold Part000.getShiftedArray.
  assert (Hfull : Nat.iter (length arr) shiftPush arr = arr).
  { rewrite shiftPush_iter by lia. now rewrite skipn_all, firstn_all. }
  split; [destruct arr; [contradiction | reflexivity]|].
  split; [destruct arr; [contradiction | apply Permutation_cons_append]|].
  split; [apply shiftPush_length|].
  split; [apply popUnshift_shiftPush|].
  split; [apply shiftPush_popUnshift|].
  split; [exact Hfull|].
  rewrite <- Hfull at 2. apply iter_inverse, popUnshift_shiftPush.
Qed.

Lemma X25_rotations_witness :
  [88; 89; 90] <> []
  /\ Part000.getShiftedArray [88; 89; 90] = [89; 90; 88]
  /\ popUnshift [88; 89; 90] = [90; 88; 89]
  /\ Nat.iter 3 popUnshift [88; 89; 90] = [88; 89; 90].
Proof.
  assert (H : [88; 89; 90] <> []) by discriminate.
  split; [exact H|].
  destruct (X25_rotations [88; 89; 90] H) as (E & _ & _ & _ & _ & _ & I).
  split; [exact E|]. split; [reflexivity | exact I].
Defined.

(** ** The random generators *)

(** X26: [whiteNoise] for every [maxFrames].  With random numbers of
    [[0, 1)], it emits [maxFrames] frames, 20 when [maxFrames] is unset or
    0 and none when it is negative; every frame gives each of the pixels 1
    to 119, in this order, one grey level from 0 to 152 on its three
    channels.  The two files have the same function. *)
Theorem X26_whiteNoise_every_maxFrames (env : Env) (maxFrames : option Z) :
  (forall k, (0 <= random env k)%Q /\ (random env k < 1)%Q) ->
  returns (Part000.whiteNoise env maxFrames)
    (fun a =>
       exists levels,
         frames a = map noiseFrame levels
         /\ length levels = noiseFrameCount maxFrames
         /\ Forall (fun frame => length frame = 119%nat
                                 /\ Forall (fun v => 0 <= v < 153) frame) levels)
  /\ Kiianigen.whiteNoise env maxFrames = Part000.whiteNoise env maxFrames.
Proof.
  intros Hrand. split; [|reflexivity].
  assert (H : forall m, m <> 0 ->
              returns (Part000.whiteNoise env (Some m))
                (fun a =>
                   exists levels,
                     frames a = map noiseFrame levels
                     /\ length levels = Z.to_nat m
                     /\ Forall (fun frame => length frame = 119%nat
                                             /\ Forall (fun v => 0 <= v < 153) frame)
                               levels)).
  { intros m Hm.
    apply (returns_weaken _ _ _ (whiteNoise_returns env m Hrand Hm)).
    intros a (_ & _ & H). exact H. }
  destruct maxFrames as [m|].
  - destruct (Z.eq_dec m 0) as [->|Hm].
    + change (Part000.whiteNoise env (Some 0)) with (Part000.whiteNoise env (Some 20)).
      exact (H 20 ltac:(lia)).
    + unfold noiseFrameCount. apply Z.eqb_neq in Hm. rewrite Hm.
      apply H. now apply Z.eqb_neq.
  - change (Part000.whiteNoise env None) with (Part000.whiteNoise env (Some 20)).
    exact (H 20 ltac:(lia)).
Qed.

Lemma X26_whiteNoise_every_maxFrames_witness :
  (forall k, (0 <= random sampleEnv k)%Q /\ (random sampleEnv k < 1)%Q)
  /\ returns (Part000.whiteNoise sampleEnv None)
       (fun a => exists levels, frames a = map noiseFrame levels /\ length levels = 20%nat).
Proof.
  assert (Hr : forall k, (0 <= random sampleEnv k)%Q /\ (random sampleEnv k < 1)%Q).
  { intros k. cbn. unfold Qle, Qlt. cbn. lia. }
  split; [exact Hr|].
  apply (returns_weaken _ _ _ (proj1 (X26_whiteNoise_every_maxFrames sampleEnv None Hr))).
  intros a (levels & E & Hl & _). exists levels. split; [exact E | exact Hl].
Defined.

Lemma Qfloor_times_zero (u : Q) : Qfloor (u * 0) = 0.
Proof.
  assert (E : (u * 0 == inject_Z 0)%Q) by (change (inject_Z 0) with 0%Q; ring).
  rewrite E. apply Qfloor_Z.
Qed.

(** X27: [escapeTest] flashes red only.  Each of its 10 frames sets the
    pixels 1 and 16, in this order; the green and the blue channel are 0
    whatever [Math.random] returns, being the integer part of a random
    number times 0, and with random numbers of [[0, 1)] the red channel is
    an integer from 0 to 254.  The two files have the same function. *)
Theorem X27_escapeTest_red_only (env : Env) :
  (forall k, (0 <= random env k)%Q /\ (random env k < 1)%Q) ->
  returns (Part000.escapeTest env)
    (fun a =>
       exists reds,
         frames a = map escapeFrame reds
         /\ length reds = 10%nat
         /\ Forall (fun p => 0 <= fst p < 255 /\ 0 <= snd p < 255) reds)
  /\ Kiianigen.escapeTest env = Part000.escapeTest env.
Proof.
  intros Hrand. split; [|reflexivity].
  unfold Part000.escapeTest. eapply returns_bind.
  - apply (returns_forEach _ _
             (fun _ frame => exists p, frame = escapeFrame p
                                       /\ 0 <= fst p < 255 /\ 0 <= snd p < 255)).
    intros i _.
    assert (Hp : forall id,
               returns (u1 <- Math_random env ;; u2 <- Math_random env ;;
                        u3 <- Math_random env ;;
                        ret (getPixel None None (Some (Qfloor (u1 * 255)))
                                      (Some (Qfloor (u2 * 0))) (Some (Qfloor (u3 * 0)))
                                      (Some id)))
                       (fun px => exists v, 0 <= v < 255
                                            /\ px = getPixel None None (Some v) (Some 0)
                                                             (Some 0) (Some id))).
    { intros id.
      eapply returns_bind;
        [apply (returns_random env (fun u => (0 <= u)%Q /\ (u < 1)%Q)); exact Hrand|].
      intros u1 [H0 H1].
      eapply returns_bind; [apply (returns_random env (fun _ => True)); auto|].
      intros u2 _.
      eapply returns_bind; [apply (returns_random env (fun _ => True)); auto|].
      intros u3 _. apply returns_ret.
      exists (Qfloor (u1 * 255)). rewrite !Qfloor_times_zero. split; [|reflexivity].
      exact (Qfloor_scaled_range u1 255 H0 H1 ltac:(lia)). }
    eapply returns_bind; [apply Hp|]. intros p1 (v1 & Hv1 & ->).
    eapply returns_bind; [apply Hp|]. intros p16 (v16 & Hv16 & ->).
    apply returns_ret. exists (v1, v16). split; [reflexivity|]. cbn [fst snd]. tauto.
  - intros fs Hfs. apply returns_ret. cbn [frames].
    assert (H : exists reds,
               fs = map escapeFrame reds /\ length reds = length (range 0 9)
               /\ Forall (fun p => 0 <= fst p < 255 /\ 0 <= snd p < 255) reds).
    { induction Hfs as [|x frame xs fs' (p & -> & Hp) _ (reds & -> & Hl & Hall)].
      - exists []. repeat split. constructor.
      - exists (p :: reds). cbn [map length]. rewrite Hl. repeat split.
        now constructor. }
    destruct H as (reds & -> & Hl & Hall).
    exists reds. split; [reflexivity|]. split; [exact Hl | exact Hall].
Qed.

Lemma X27_escapeTest_red_only_witness :
  (forall k, (0 <= random sampleEnv k)%Q /\ (random sampleEnv k < 1)%Q)
  /\ returns (Part000.escapeTest sampleEnv)
       (fun a => exists reds, frames a = map escapeFrame reds /\ length reds = 10%nat).
Proof.
  assert (Hr : forall k, (0 <= random sampleEnv k)%Q /\ (random sampleEnv k < 1)%Q).
  { intros k. cbn. unfold Qle, Qlt. cbn. lia. }
  split; [exact Hr|].
  apply (returns_weaken _ _ _ (proj1 (X27_escapeTest_red_only sampleEnv Hr))).
  intros a (reds & E & Hl & _). exists reds. split; [exact E | exact Hl].
Defined.

(** ** The frames of a pulse *)

(** X28: a pulse shows the colours it is given.  With an integer step
    count [n] of 2 or more, the frame at [i * n] of [colorPulseGenerator]
    sets the two columns left and right of the keyboard to the colour at
    index [i], when the channels of that colour are integers of
    [[0, 255]].  Both files. *)
Theorem X28_pulse_keyframes (n : Z) (colors : list Color) (i : nat) (c : Color) :
  2 <= n -> nth_error colors i = Some c -> inRange c ->
  nth_error (frames (Part000.colorPulseGenerator (inject_Z n) colors)) (i * Z.to_nat n)
  = Some (pulseFrame c)
  /\ nth_error (frames (Kiianigen.colorPulseGenerator (inject_Z n) colors))
               (i * Z.to_nat n)
     = Some (pulseFrame c).
Proof.
  intros Hn Hc Hr.
  assert (HP : nth_error (frames (Part000.colorPulseGenerator (inject_Z n) colors))
                         (i * Z.to_nat n) = Some (pulseFrame c)).
  { unfold Part000.colorPulseGenerator. cbn [frames].
    rewrite nth_error_map.
    rewrite (multiColorBleedP_keyframe n None colors i c Hn linear_exactAtEnds Hc).
    rewrite (roundClamp_inRange c Hr). reflexivity. }
  split; [exact HP|].
  unfold Kiianigen.colorPulseGenerator. cbn [frames].
  rewrite multiColorBleed_agree. exact HP.
Qed.

Lemma X28_pulse_keyframes_witness :
  2 <= 240 /\ nth_error [RGB 255 25 0; RGB 0 0 0] 1 = Some (RGB 0 0 0)
  /\ inRange (RGB 0 0 0)
  /\ nth_error (frames (Part000.colorPulseGenerator (inject_Z 240)
                          [RGB 255 25 0; RGB 0 0 0])) 240
     = Some "P[c:-1%](0,0,0),P[c:101%](0,0,0)".
Proof.
  assert (H1 : 2 <= 240) by lia.
  assert (H2 : nth_error [RGB 255 25 0; RGB 0 0 0] 1 = Some (RGB 0 0 0)) by reflexivity.
  assert (H3 : inRange (RGB 0 0 0)) by (cbn; lia).
  split; [exact H1|]. split; [exact H2|]. split; [exact H3|].
  exact (proj1 (X28_pulse_keyframes 240 [RGB 255 25 0; RGB 0 0 0] 1 (RGB 0 0 0) H1 H2 H3)).
Defined.


(** ** [bluewipe] and [normColor] *)

(** X29: what is wrong with [bluewipe].  Its 107 frames are 53 of the wipe
    downwards and 54 of the wipe back.  A frame of the first loop starts
    with the background colour on the row [-2%]; a frame of the second
    loop passes [bgColor[0]] as the column and [null] as red, so it starts
    with a command for row [-2%], column 93 and the colour (0, 93, 93).
    The two files have the same function. *)
Theorem X29_bluewipe_second_loop :
  length (frames Part000.bluewipe) = 107%nat
  /\ Forall (fun frame => String.prefix "P[r:-2%](93,93,93),P[r:" frame = true)
            (firstn 53 (frames Part000.bluewipe))
  /\ Forall (fun frame => String.prefix "P[r:-2%,c:93](0,93,93),P[r:" frame = true)
            (skipn 53 (frames Part000.bluewipe))
  /\ Forall (fun frame => exists front, frame = front ++ ",P[r:102%](93,93,93)")
            (frames Part000.bluewipe)
  /\ Kiianigen.bluewipe = Part000.bluewipe.
Proof.
  assert (H1 : forallb (String.prefix "P[r:-2%](93,93,93),P[r:")
                       (firstn 53 (frames Part000.bluewipe)) = true)
    by (vm_compute; reflexivity).
  assert (H2 : forallb (String.prefix "P[r:-2%,c:93](0,93,93),P[r:")
                       (skipn 53 (frames Part000.bluewipe)) = true)
    by (vm_compute; reflexivity).
  split; [vm_compute; reflexivity|].
  split; [apply Forall_forall; exact (proj1 (forallb_forall _ _) H1)|].
  split; [apply Forall_forall; exact (proj1 (forallb_forall _ _) H2)|].
  split; [|reflexivity].
  unfold Part000.bluewipe. cbn [frames]. apply Forall_app. split.
  - apply Forall_forall. intros frame Hin. apply in_map_iff in Hin.
    destruct Hin as (i & <- & _).
    match goal with
    | |- exists front, join "," [?a; ?b; ?c] = _ => exists (a ++ "," ++ b)
    end.
    cbn [join]. rewrite !append_assoc. reflexivity.
  - apply Forall_forall. intros frame Hin. apply in_map_iff in Hin.
    destruct Hin as (i & <- & _).
    match goal with
    | |- exists front, join "," [?a; ?b; ?c] = _ => exists (a ++ "," ++ b)
    end.
    cbn [join]. rewrite !append_assoc. reflexivity.
Qed.

(** X30: [normColor] returns an integer of [[0, 255]], the one
    [colorBleed] gets by rounding and clamping in the other order; it keeps
    an integer of that range and the order of its arguments, and a channel
    of that range times a factor of [[0, 1]], as the tracers and the spin
    dim their colours, never exceeds the channel. *)
Theorem X30_normColor_range (colorVal : Q) :
  0 <= normColor colorVal <= 255
  /\ normColor colorVal = clampChannel (Math_round (NumQ colorVal))
  /\ (forall z, 0 <= z <= 255 -> normColor (inject_Z z) = z)
  /\ (forall other, (colorVal <= other)%Q -> normColor colorVal <= normColor other)
  /\ (forall (c : Z) (factor : Q),
        0 <= c <= 255 -> (0 <= factor)%Q -> (factor <= 1)%Q ->
        0 <= normColor (inject_Z c * factor) <= c).
Proof.
  unfold normColor, clampChannel.
  split; [lia|]. split; [lia|]. split.
  { intros z Hz. rewrite Math_round_integer. lia. }
  split.
  { intros other H. pose proof (Math_round_le _ _ H). lia. }
  intros c factor Hc H0 H1.
  assert (Hq : (0 <= inject_Z c)%Q) by (change 0%Q with (inject_Z 0); rewrite <- Zle_Qle; lia).
  assert (Hb : 0 <= Math_round (NumQ (inject_Z c * factor)) <= c).
  { apply Math_round_between; [change (inject_Z 0) with 0%Q|]; Lqa.nra. }
  lia.
Qed.

